(** * dvdwrap: a FUSE view of DVD image directories as single files

    Shallow embedding of [dvdwrap_fuse.c] (the revision that squashes a DVD
    image directory into one [.mpg] file) and proofs about its scan,
    attribute, open, read and release operations.

    Conventions of the embedding:
    - C integers are [Z] with the conversions written out: [u64] for
      [uint64_t] and [size_t], [i64] for [off_t], [i32] for [int];
    - the real directory tree is a finite map from path names to what the
      system calls find there; a path names a node literally (the program
      never normalises the paths it builds), and the tree is not modified
      while the program runs;
    - [lstat] reports on the node itself, [open] follows a symbolic link: a
      node carries the mode and size [lstat] reports and, apart from them,
      whether [open] is granted and the contents of the file it leads to;
    - [read] on a descriptor delivers all the bytes asked for up to the end
      of the file;
    - the process' descriptor table, the outcome of [calloc] and the trace
      of [close] calls form the [world] that [open], [read] and [release]
      thread through;
    - [snprintf] into a [PATH_MAX] buffer is string concatenation: paths are
      taken to be shorter than [PATH_MAX]. *)

From Stdlib Require Import ZArith Lia Ascii String DecimalString.
From stdpp Require Import base tactics option list gmap strings.

Local Open Scope Z_scope.

(** ** Machine integers *)

Module Int.

Definition u64 (z : Z) : Z := z mod 2 ^ 64.
Definition i64 (z : Z) : Z := (z + 2 ^ 63) mod 2 ^ 64 - 2 ^ 63.
Definition i32 (z : Z) : Z := (z + 2 ^ 31) mod 2 ^ 32 - 2 ^ 31.

Definition INT_MAX : Z := 2 ^ 31 - 1.
Definition OFF_MAX : Z := 2 ^ 63 - 1.

End Int.
Import Int.

(** ** Constants of the program *)

Definition MAX_VTS_MIN : Z := 10.
Definition MAX_VTS_MAJ : Z := 100.
Definition FILE_EXTENSION : string := ".mpg".
Definition ENOENT : Z := 2.
Definition ENOMEM : Z := 12.

(** ** The real directory tree *)

(** What [lstat], [open] and [read] see at a path.  [lstat] does not follow
    a symbolic link: [i_mode] and [i_size] are the [st_mode] and [st_size] of
    the node itself.  [open(O_RDONLY)] does follow one: [i_readable] tells
    whether it is granted and [i_data] is the contents of the file it leads
    to.  For a regular file [i_size] is the length of [i_data]; for a
    symbolic link [i_size] is the length of the link text, whatever the file
    at its end holds. *)
Record inode := Inode {
  i_mode : Z;
  i_size : nat;
  i_readable : bool;
  i_data : list Byte.byte
}.

(** The two fields of [struct stat] the program uses. *)
Record stat := Stat {
  st_mode : Z;
  st_size : Z
}.

(** [memset(stbuf, 0, sizeof(struct stat))] *)
Definition stat_zero : stat := Stat 0 0.

(** [lstat(p, &st)]: the mode and the size of the node at [p] itself; for a
    symbolic link these are those of the link, whose size is the length of
    its text. *)
Definition lstat (fs : gmap string inode) (p : string) : option stat :=
  match fs !! p with
  | Some ino => Some (Stat (i_mode ino) (Z.of_nat (i_size ino)))
  | None => None
  end.

(** ** Path formatting *)

(** [printf]'s [%0<w>d]: the decimal numeral, zero-padded on the left up to
    width [w] (used here with non-negative arguments only). *)
Fixpoint zero_pad (n : nat) (s : string) : string :=
  match n with
  | O => s
  | S n' => String "0" (zero_pad n' s)
  end.

Definition fmt_0d (w : nat) (z : Z) : string :=
  let s := NilZero.string_of_int (Z.to_int z) in
  zero_pad (w - String.length s) s.

(** [snprintf(vtspath, PATH_MAX, "%s/VIDEO_TS/VTS_%02d_%01d.VOB", path, maj, min)] *)
Definition vob_path (path : string) (maj min : Z) : string :=
  path +:+ "/VIDEO_TS/VTS_" +:+ fmt_0d 2 maj +:+ "_" +:+ fmt_0d 1 min +:+ ".VOB".

(** [snprintf(vtspath, PATH_MAX, "%s/VIDEO_TS/VIDEO_TS.IFO", targetpath)] *)
Definition ifo_path (path : string) : string :=
  path +:+ "/VIDEO_TS/VIDEO_TS.IFO".

(** ** dvdwrap_scan_videots *)

(** The inner loop [for (min = ...; min < MAX_VTS_MIN; min++)] entered with
    [n = MAX_VTS_MIN - min] iterations left; it returns the final value of
    [min] and of [titlesize[maj]]. *)
Fixpoint scan_minors (fs : gmap string inode) (path : string) (maj : Z)
    (n : nat) (min : Z) (titlesize : Z) : Z * Z :=
  match n with
  | O => (min, titlesize)
  | S n' =>
      match lstat fs (vob_path path maj min) with
      | None => (min, titlesize)                       (* break *)
      | Some st =>
          scan_minors fs path maj n' (min + 1) (u64 (titlesize + st_size st))
      end
  end.

(** One titleset: [min] runs from 1, [titlesize[maj]] starts at 0. *)
Definition scan_titleset (fs : gmap string inode) (path : string) (maj : Z)
    : Z * Z :=
  scan_minors fs path maj (Z.to_nat (MAX_VTS_MIN - 1)) 1 0.

(** The outer loop [for (maj = ...; maj < MAX_VTS_MAJ; maj++)] entered with
    [n = MAX_VTS_MAJ - maj] iterations left; it returns [longest_maj] and
    [longest_size]. *)
Fixpoint scan_majors (fs : gmap string inode) (path : string)
    (n : nat) (maj : Z) (longest_maj longest_size : Z) : Z * Z :=
  match n with
  | O => (longest_maj, longest_size)
  | S n' =>
      let '(min, titlesize) := scan_titleset fs path maj in
      if min =? 1 then (longest_maj, longest_size)     (* break *)
      else if longest_size <? titlesize
           then scan_majors fs path n' (maj + 1) maj titlesize
           else scan_majors fs path n' (maj + 1) longest_maj longest_size
  end.

(** [Some (vts_maj, total_size)] is the return value 0 with both output
    parameters written; [None] is the return value -1. *)
Definition dvdwrap_scan_videots (fs : gmap string inode) (path : string)
    : option (Z * Z) :=
  let '(longest_maj, longest_size) :=
    scan_majors fs path (Z.to_nat (MAX_VTS_MAJ - 1)) 1 0 0 in
  if longest_maj =? 0 then None else Some (longest_maj, longest_size).

(** ** Path resolution *)

(** [&s[k]]: the string starting at index [k]. *)
Fixpoint str_from (k : nat) (s : string) : string :=
  match k, s with
  | O, _ => s
  | S k', String _ s' => str_from k' s'
  | S _, EmptyString => EmptyString
  end.

(** [s[k] = '\0']: the string cut at index [k]. *)
Fixpoint str_cut (k : nat) (s : string) : string :=
  match k, s with
  | O, _ => EmptyString
  | S k', String c s' => String c (str_cut k' s')
  | S _, EmptyString => EmptyString
  end.

(** [strlen(targetpath) - strlen(FILE_EXTENSION)].  In C this is a [size_t]
    difference that wraps when [targetpath] is shorter than the extension, in
    which case the program indexes outside the buffer; the truncated
    subtraction below is meaningful only for longer paths, and the theorems
    about classification assume them. *)
Definition ext_index (targetpath : string) : nat :=
  (String.length targetpath - String.length FILE_EXTENSION)%nat.

(** [strcmp(&targetpath[strlen(targetpath) - strlen(FILE_EXTENSION)],
    FILE_EXTENSION) == 0] *)
Definition has_extension (targetpath : string) : bool :=
  String.eqb (str_from (ext_index targetpath) targetpath) FILE_EXTENSION.

(** The two kinds of entity [dvdwrap_getattr] and [dvdwrap_open] tell apart,
    each with the real path the operation goes on with. *)
Inductive target :=
  | Synthetic (dvd_root : string)
  | Passthrough (real_path : string).

(** [snprintf(targetpath, PATH_MAX, "%s/%s", ctx->sourcepath, path)], the
    suffix test and, on a match, the removal of the suffix.  Both
    [dvdwrap_getattr] and [dvdwrap_open] start with these statements. *)
Definition resolve (sourcepath path : string) : target :=
  let targetpath := sourcepath +:+ "/" +:+ path in
  if has_extension targetpath
  then Synthetic (str_cut (ext_index targetpath) targetpath)
  else Passthrough targetpath.

(** ** dvdwrap_getattr *)

(** The result is the return value and the contents of [stbuf]. *)
Definition dvdwrap_getattr (fs : gmap string inode) (sourcepath path : string)
    : Z * stat :=
  let stbuf := stat_zero in
  match resolve sourcepath path with
  | Synthetic targetpath =>
      match lstat fs (ifo_path targetpath) with
      | Some stbuf =>
          match dvdwrap_scan_videots fs targetpath with
          | Some (maj, total_size) =>
              (0, Stat (st_mode stbuf) (i64 total_size))
          | None => (- ENOENT, stbuf)
          end
      | None => (- ENOENT, stbuf)
      end
  | Passthrough targetpath =>
      match lstat fs targetpath with
      | None => (- ENOENT, stbuf)
      | Some stbuf =>
          (0, Stat (Z.land (st_mode stbuf) (Z.lnot 146)) (st_size stbuf))
      end
  end.

(** ** The process state around open, read and release *)

(** An open file description: the contents of the file it was opened on and
    the file position. *)
Record ofd := Ofd {
  ofd_data : list Byte.byte;
  ofd_pos : Z
}.

(** [w_fds] is the descriptor table (index = descriptor), [w_nomem] tells
    whether the next [calloc] fails, [w_closed] is the trace of the
    descriptors passed to [close], oldest first. *)
Record world := World {
  w_fs : gmap string inode;
  w_fds : list (option ofd);
  w_nomem : bool;
  w_closed : list Z
}.

(** The lowest free slot of the table receives the new description. *)
Fixpoint fd_alloc (t : list (option ofd)) (d : ofd) : nat * list (option ofd) :=
  match t with
  | [] => (O, [Some d])
  | None :: t' => (O, Some d :: t')
  | Some x :: t' => let '(i, t'') := fd_alloc t' d in (S i, Some x :: t'')
  end.

Definition fd_lookup (w : world) (fd : Z) : option ofd :=
  if fd <? 0 then None else mjoin (w_fds w !! Z.to_nat fd).

(** [open(p, O_RDONLY)]: it follows a symbolic link at [p], so that the
    new descriptor is open on [i_data], the contents of the file [p] leads
    to, whose length need not be the size [lstat] reports for [p]. *)
Definition sys_open (w : world) (p : string) : Z * world :=
  match w_fs w !! p with
  | Some ino =>
      if i_readable ino then
        let '(i, t) := fd_alloc (w_fds w) (Ofd (i_data ino) 0) in
        (Z.of_nat i, World (w_fs w) t (w_nomem w) (w_closed w))
      else (-1, w)
  | None => (-1, w)
  end.

(** [close(fd)] *)
Definition sys_close (w : world) (fd : Z) : Z * world :=
  let closed := w_closed w ++ [fd] in
  match fd_lookup w fd with
  | Some _ =>
      (0, World (w_fs w) (<[Z.to_nat fd := None]> (w_fds w)) (w_nomem w) closed)
  | None => (-1, World (w_fs w) (w_fds w) (w_nomem w) closed)
  end.

(** [lseek(fd, off, SEEK_SET)] *)
Definition sys_lseek (w : world) (fd : Z) (off : Z) : Z * world :=
  match fd_lookup w fd with
  | Some d =>
      if off <? 0 then (-1, w)
      else (off, World (w_fs w) (<[Z.to_nat fd := Some (Ofd (ofd_data d) off)]> (w_fds w))
                       (w_nomem w) (w_closed w))
  | None => (-1, w)
  end.

(** [read(fd, buf, count)]: the number of bytes, the bytes themselves and the
    new state; a regular file delivers everything asked for up to its end. *)
Definition sys_read (w : world) (fd : Z) (count : Z)
    : Z * list Byte.byte * world :=
  match fd_lookup w fd with
  | Some d =>
      let chunk := take (Z.to_nat count) (drop (Z.to_nat (ofd_pos d)) (ofd_data d)) in
      let n := Z.of_nat (length chunk) in
      (n, chunk,
       World (w_fs w) (<[Z.to_nat fd := Some (Ofd (ofd_data d) (ofd_pos d + n))]> (w_fds w))
             (w_nomem w) (w_closed w))
  | None => (-1, [], w)
  end.

(** ** The per-file handle *)

(** [dvdwrap_vts_t]; the fields are [fd] and [size] in the source. *)
Record dvdwrap_vts_t := Vts {
  vts_fd : Z;
  vts_size : Z
}.

(** [dvdwrap_fh_t]: [vts] has [MAX_VTS_MIN] elements. *)
Record dvdwrap_fh_t := Fh {
  vts : list dvdwrap_vts_t;
  total_size : Z
}.

(** [calloc(1, sizeof(dvdwrap_fh_t))] *)
Definition fh_zero : dvdwrap_fh_t :=
  Fh (replicate (Z.to_nat MAX_VTS_MIN) (Vts 0 0)) 0.

(** [private->vts[min]], for [0 <= min < MAX_VTS_MIN]. *)
Definition vts_at (private : dvdwrap_fh_t) (min : Z) : dvdwrap_vts_t :=
  default (Vts 0 0) (vts private !! Z.to_nat min).

(** ** dvdwrap_release *)

(** The loop [for (min = ...; min < MAX_VTS_MIN; min++)] with [n] iterations
    left. *)
Fixpoint release_segments (w : world) (private : dvdwrap_fh_t)
    (n : nat) (min : Z) : world :=
  match n with
  | O => w
  | S n' =>
      if vts_size (vts_at private min) =? 0
      then release_segments w private n' (min + 1)
      else release_segments (sys_close w (vts_fd (vts_at private min))).2
                            private n' (min + 1)
  end.

(** The handle is freed and [fi->fh] cleared; what remains is the state and
    the return value. *)
Definition dvdwrap_release (w : world) (private : dvdwrap_fh_t) : world * Z :=
  (release_segments w private (Z.to_nat (MAX_VTS_MIN - 1)) 1, - ENOENT).

(** ** dvdwrap_open *)

(** The loop that opens the segments, with [n] iterations left.  The
    boolean is [false] when the loop was left through [goto fail]. *)
Fixpoint open_segments (w : world) (targetpath : string) (maj : Z)
    (n : nat) (min : Z) (private : dvdwrap_fh_t)
    : world * dvdwrap_fh_t * bool :=
  match n with
  | O => (w, private, true)
  | S n' =>
      let vtspath := vob_path targetpath maj min in
      match lstat (w_fs w) vtspath with
      | None => (w, private, true)                     (* break *)
      | Some st =>
          let '(fd, w1) := sys_open w vtspath in
          let size0 := vts_size (vts_at private min) in
          let private1 :=
            Fh (<[Z.to_nat min := Vts fd size0]> (vts private))
               (total_size private) in
          if fd <? 0 then (w1, private1, false)        (* goto fail *)
          else
            let private2 :=
              Fh (<[Z.to_nat min := Vts fd (u64 (st_size st))]> (vts private))
                 (u64 (total_size private + u64 (st_size st))) in
            open_segments w1 targetpath maj n' (min + 1) private2
      end
  end.

(** The result is the new state, the return value, and the handle left in
    [fi->fh] ([None] when the call stored none or freed it again). *)
Definition dvdwrap_open (w : world) (sourcepath path : string)
    : world * Z * option dvdwrap_fh_t :=
  match resolve sourcepath path with
  | Passthrough _ => (w, - ENOENT, None)
  | Synthetic targetpath =>
      match dvdwrap_scan_videots (w_fs w) targetpath with
      | None => (w, - ENOENT, None)
      | Some (maj, total_size) =>
          if w_nomem w then (w, - ENOMEM, None)
          else
            let '(w1, private, ok) :=
              open_segments w targetpath maj
                (Z.to_nat (MAX_VTS_MIN - 1)) 1 fh_zero in
            if ok then (w1, 0, Some private)
            else ((dvdwrap_release w1 private).1, - ENOENT, None)
      end
  end.

(** ** dvdwrap_read *)

(** The loop that finds the segment of an offset, with [n] iterations left;
    it returns the final [min] and [thisoffset]. *)
Fixpoint locate (private : dvdwrap_fh_t) (n : nat) (min : Z) (thisoffset : Z)
    : Z * Z :=
  match n with
  | O => (min, thisoffset)
  | S n' =>
      let sz := vts_size (vts_at private min) in
      if u64 thisoffset <? sz then (min, thisoffset)   (* break *)
      else locate private n' (min + 1) (i64 (u64 thisoffset - sz))
  end.

(** The caller's buffer after [chunk] was stored at index [pos]. *)
Definition write_at (pos : Z) (chunk buf : list Byte.byte) : list Byte.byte :=
  take (Z.to_nat pos) buf ++ chunk
    ++ drop (Z.to_nat pos + length chunk) buf.

(** What a call comes to: it returns, or it never does. *)
Inductive outcome (A : Type) :=
  | Returns (a : A)
  | Diverges.
Arguments Returns {A} a.
Arguments Diverges {A}.

(** The [while (total < size)] loop.  [bufp] is the index of the pointer
    [buf] in the caller's buffer.  [fuel] bounds the number of iterations. *)
Fixpoint read_loop (fuel : nat) (w : world) (private : dvdwrap_fh_t)
    (buf : list Byte.byte) (bufp : Z) (size offset total : Z)
    : outcome (world * Z * list Byte.byte) :=
  match fuel with
  | O => Diverges
  | S fuel' =>
      if total <? size then
        let thissize := i64 (u64 (size - total)) in
        let '(min, thisoffset) :=
          locate private (Z.to_nat (MAX_VTS_MIN - 1)) 1 offset in
        if min =? MAX_VTS_MIN then Returns (w, i32 total, buf)   (* break *)
        else
          let seg := vts_at private min in
          let room := u64 (vts_size seg - u64 thisoffset) in
          let thissize := if room <? u64 thissize then i64 room else thissize in
          let w1 := (sys_lseek w (vts_fd seg) thisoffset).2 in
          let '(n, chunk, w2) := sys_read w1 (vts_fd seg) (u64 thissize) in
          let buf1 := write_at bufp chunk buf in
          let rc := i32 n in
          if rc <? 0 then Returns (w2, rc, buf1)
          else read_loop fuel' w2 private buf1 (bufp + rc) size
                 (i64 (offset + rc)) (u64 (total + rc))
      else Returns (w, i32 total, buf)
  end.

(** [size] and [offset] are the [size_t] and [off_t] arguments, [buf] the
    caller's buffer of [size] bytes.  An iteration that goes round again
    with [rc > 0] raises [total] by at least one, and one with [rc = 0]
    leaves every variable as it was and so repeats for ever: [size + 1]
    iterations are all the loop can make before it is known to run on. *)
Definition dvdwrap_read (w : world) (private : dvdwrap_fh_t)
    (buf : list Byte.byte) (size offset : Z)
    : outcome (world * Z * list Byte.byte) :=
  if total_size private <=? u64 offset then Returns (w, 0, buf)
  else read_loop (S (Z.to_nat size)) w private buf 0 size offset 0.

(** * Titlesets and their files *)

(** The size [lstat] reports for a file. *)
Definition seg_size (f : inode) : Z := Z.of_nat (i_size f).

(** The size [lstat] reports is the number of bytes [open] and [read]
    deliver: so it is for a regular file, and for a symbolic link only when
    the link text happens to be as long as the file it leads to. *)
Definition plain_file (f : inode) : Prop := i_size f = length (i_data f).

(** The byte count of a sequence of segment files. *)
Definition sum_sizes (segs : list inode) : Z :=
  foldr (fun f acc => seg_size f + acc) 0 segs.

(** [segs] are the segment files of titleset [maj] under [root]: the files at
    minor indices 1, 2, ... in this order, with no file at the next index
    unless the one-digit range of minor indices is used up. *)
Definition titleset_files (fs : gmap string inode) (root : string) (maj : Z)
    (segs : list inode) : Prop :=
  (length segs <= 9)%nat /\
  (forall i f, segs !! i = Some f ->
     fs !! vob_path root maj (1 + Z.of_nat i) = Some f) /\
  ((length segs < 9)%nat ->
     fs !! vob_path root maj (1 + Z.of_nat (length segs)) = None).

(** The bytes of a titleset: its segment files one after the other. *)
Definition titleset_bytes (segs : list inode) : list Byte.byte :=
  concat (i_data <$> segs).

(** The aggregate size the scan computes for one major number. *)
Definition titlesize (fs : gmap string inode) (path : string) (maj : Z) : Z :=
  (scan_titleset fs path maj).2.

(** [maj] is visited by the outer loop started at [lo]: every major number
    from [lo] to [maj] has a first segment. *)
Definition visited (fs : gmap string inode) (path : string) (lo maj : Z)
    : Prop :=
  forall i, lo <= i <= maj -> lstat fs (vob_path path i 1) <> None.

(** The file name part of a segment path. *)
Definition vob_name (maj min : Z) : string :=
  fmt_0d 2 maj +:+ "_" +:+ fmt_0d 1 min +:+ ".VOB".

(** Whether the name of the menu segment of [menu_maj] is the name of one of
    the segment files the scan looks at. *)
Definition menu_name_clash (menu_maj : Z) : bool :=
  existsb (fun maj =>
    existsb (fun min => String.eqb (vob_name menu_maj 0) (vob_name maj min))
      (seqZ 1 (MAX_VTS_MIN - 1)))
    (seqZ 1 (MAX_VTS_MAJ - 1)).

(** * The classification rule of the specification *)

(** The classification rule in the words of the specification: the last
    component of the virtual path, stripped of the suffix [".mpg"], is a
    numeral of one or two decimal digits. *)
Fixpoint has_slash (s : string) : bool :=
  match s with
  | EmptyString => false
  | String c s' => if Ascii.eqb c "/" then true else has_slash s'
  end.

Fixpoint leaf_name (s : string) : string :=
  match s with
  | EmptyString => EmptyString
  | String c s' =>
      if has_slash s' then leaf_name s'
      else if Ascii.eqb c "/" then s' else s
  end.

Fixpoint all_digits (s : string) : bool :=
  match s with
  | EmptyString => true
  | String c s' =>
      match Ascii.is_nat c with
      | Some _ => all_digits s'
      | None => false
      end
  end.

Definition spec_synthetic_leaf (path : string) : bool :=
  let leaf := leaf_name path in
  let stem := str_cut (ext_index leaf) leaf in
  has_extension leaf
  && (1 <=? String.length stem)%nat && (String.length stem <=? 2)%nat
  && all_digits stem.

(** * States and handles during a session *)

(** The same process state over another directory tree. *)
Definition with_fs (fs' : gmap string inode) (w : world) : world :=
  World fs' (w_fds w) (w_nomem w) (w_closed w).

(** Two states that differ in file positions at most. *)
Definition same_files (w w' : world) : Prop :=
  w_fs w' = w_fs w /\ w_nomem w' = w_nomem w /\ w_closed w' = w_closed w
  /\ forall fd, ofd_data <$> fd_lookup w' fd = ofd_data <$> fd_lookup w fd.

(** What [dvdwrap_open] leaves behind for the segment files [segs]: slot
    [i + 1] of the handle holds the size of the [i]-th file and a descriptor
    open on it, the slots after the last file have size 0, and [total_size]
    is the sum. *)
Definition handle_ok (w : world) (private : dvdwrap_fh_t) (segs : list inode)
    : Prop :=
  total_size private = sum_sizes segs
  /\ (length segs <= 9)%nat
  /\ (forall i f, segs !! i = Some f ->
        exists fd pos,
          vts private !! S i = Some (Vts fd (seg_size f))
          /\ fd_lookup w fd = Some (Ofd (i_data f) pos))
  /\ (forall j, (length segs < j)%nat ->
        vts_size (default (Vts 0 0) (vts private !! j)) = 0).

(** The number of bytes a read of [size] bytes at [off0] has to deliver. *)
Definition read_count (segs : list inode) (size off0 : nat) : nat :=
  Nat.min size (length (titleset_bytes segs) - off0).

(** The handle slots and the descriptor table after the files [segs] were
    opened one after the other. *)
Fixpoint open_files (t : list (option ofd)) (segs : list inode)
    : list dvdwrap_vts_t * list (option ofd) :=
  match segs with
  | [] => ([], t)
  | f :: segs' =>
      let '(i, t1) := fd_alloc t (Ofd (i_data f) 0) in
      let '(slots, t') := open_files t1 segs' in
      (Vts (Z.of_nat i) (seg_size f) :: slots, t')
  end.

(** Closing the descriptors of the slots whose size is not 0, in order. *)
Definition close_slots (w : world) (slots : list dvdwrap_vts_t) : world :=
  foldl (fun w v =>
           if vts_size v =? 0 then w else (sys_close w (vts_fd v)).2)
        w slots.

(** The slots release does close. *)
Definition closed_slots (slots : list dvdwrap_vts_t) : list dvdwrap_vts_t :=
  filter (fun v => vts_size v <> 0) slots.

(** The descriptors a handle uses: those of its slots 1 to 9 whose recorded
    size is not 0.  They are the ones reads go to and release closes. *)
Definition slot_fds (private : dvdwrap_fh_t) : list Z :=
  vts_fd <$> closed_slots (take 9 (drop 1 (vts private))).

(** The states an open handle [private] goes through while the program
    serves requests: the state its [dvdwrap_open] left, and any state reached
    from there by a [dvdwrap_read] that returns, on this or on any other
    handle, by a [dvdwrap_open] of any path, whatever its result, or by the
    [dvdwrap_release] of another handle, one that uses no descriptor this
    handle uses. *)
Inductive session (private : dvdwrap_fh_t) (w : world) : world -> Prop :=
  | session_opened : session private w w
  | session_read w1 other buf size offset w2 rc buf' :
      session private w w1 ->
      dvdwrap_read w1 other buf size offset = Returns (w2, rc, buf') ->
      session private w w2
  | session_open w1 sourcepath path w2 rc other :
      session private w w1 ->
      dvdwrap_open w1 sourcepath path = (w2, rc, other) ->
      session private w w2
  | session_release w1 other w2 rc :
      session private w w1 ->
      (forall fd, fd ∈ slot_fds other -> fd ∉ slot_fds private) ->
      dvdwrap_release w1 other = (w2, rc) ->
      session private w w2.

(** What reads need of a handle for the segment files [segs]: as
    [handle_ok], but a descriptor has to be open only where the recorded
    size is not 0. *)
Definition handle_live (w : world) (private : dvdwrap_fh_t)
    (segs : list inode) : Prop :=
  total_size private = sum_sizes segs
  /\ (length segs <= 9)%nat
  /\ (forall i f, segs !! i = Some f ->
        exists fd,
          vts private !! S i = Some (Vts fd (seg_size f))
          /\ (seg_size f <> 0 ->
              exists pos, fd_lookup w fd = Some (Ofd (i_data f) pos)))
  /\ (forall j, (length segs < j)%nat ->
        vts_size (default (Vts 0 0) (vts private !! j)) = 0).

(** The descriptors [private] uses are open in [w'] on the contents they
    are open on in [w]. *)
Definition keeps (private : dvdwrap_fh_t) (w w' : world) : Prop :=
  forall fd d pos,
    fd ∈ slot_fds private ->
    fd_lookup w fd = Some (Ofd d pos) ->
    exists pos', fd_lookup w' fd = Some (Ofd d pos').

(** * Example trees, states and handles *)

(** A readable file of [n] bytes [b], with mode 0644. *)
Definition file_of (n : nat) (b : Byte.byte) : inode :=
  Inode 420 n true (replicate n b).

(** Image directories [/dvd]: one titleset at major number 2 only; two
    titlesets at major numbers 1 and 3; two at major numbers 1 and 2; one
    titleset whose segment 3 is missing. *)
Definition fs_major_2_only : gmap string inode :=
  <[ "/dvd/VIDEO_TS/VTS_02_1.VOB" := file_of 5 Byte.x41 ]> ∅.

Definition fs_majors_1_3 : gmap string inode :=
  <[ "/dvd/VIDEO_TS/VTS_01_1.VOB" := file_of 3 Byte.x41 ]>
  (<[ "/dvd/VIDEO_TS/VTS_03_1.VOB" := file_of 9 Byte.x42 ]> ∅).

Definition fs_majors_1_2 : gmap string inode :=
  <[ "/dvd/VIDEO_TS/VTS_01_1.VOB" := file_of 3 Byte.x41 ]>
  (<[ "/dvd/VIDEO_TS/VTS_02_1.VOB" := file_of 4 Byte.x42 ]>
  (<[ "/dvd/VIDEO_TS/VTS_02_2.VOB" := file_of 5 Byte.x43 ]> ∅)).

Definition fs_gap_at_3 : gmap string inode :=
  <[ "/dvd/VIDEO_TS/VTS_01_1.VOB" := file_of 3 Byte.x41 ]>
  (<[ "/dvd/VIDEO_TS/VTS_01_2.VOB" := file_of 4 Byte.x42 ]>
  (<[ "/dvd/VIDEO_TS/VTS_01_4.VOB" := file_of 5 Byte.x43 ]> ∅)).

(** The example of a DVD image directory [Film] below the source directory
    [/src]: an index file, a menu segment of 10 bytes and three segments of
    100, 200 and 50 bytes for major number 1.  Paths are the literal strings
    the program builds, so the virtual path [/Film.mpg] leads to
    [/src//Film]. *)
Definition fs_film : gmap string inode :=
  <[ "/src//Film/VIDEO_TS/VIDEO_TS.IFO" := file_of 7 Byte.x49 ]>
  (<[ "/src//Film/VIDEO_TS/VTS_01_0.VOB" := file_of 10 Byte.x4d ]>
  (<[ "/src//Film/VIDEO_TS/VTS_01_1.VOB" := file_of 100 Byte.x41 ]>
  (<[ "/src//Film/VIDEO_TS/VTS_01_2.VOB" := file_of 200 Byte.x42 ]>
  (<[ "/src//Film/VIDEO_TS/VTS_01_3.VOB" := file_of 50 Byte.x43 ]> ∅)))).

Definition film_segments : list inode :=
  [file_of 100 Byte.x41; file_of 200 Byte.x42; file_of 50 Byte.x43].

(** The same image directory without its index file, and a process with the
    three standard descriptors open. *)
Definition fs_film_no_index : gmap string inode :=
  delete "/src//Film/VIDEO_TS/VIDEO_TS.IFO" fs_film.

Definition std_fds : list (option ofd) :=
  [Some (Ofd [] 0); Some (Ofd [] 0); Some (Ofd [] 0)].

Definition w_film_no_index : world := World fs_film_no_index std_fds false [].

Definition w_film : world := World fs_film std_fds false [].

(** A handle as [dvdwrap_open] leaves it for the example image, with the
    descriptors 3, 4 and 5. *)
Definition fh_film : dvdwrap_fh_t :=
  Fh [Vts 0 0; Vts 3 100; Vts 4 200; Vts 5 50; Vts 0 0; Vts 0 0; Vts 0 0;
      Vts 0 0; Vts 0 0; Vts 0 0] 350.

(** A state in which the example image is open already, through the handle
    [fh_film], and the handle a second open of the image leaves in that
    state, with the descriptors 6, 7 and 8. *)
Definition w_film_busy : world :=
  World fs_film
    (std_fds ++ [Some (Ofd (replicate 100 Byte.x41) 0);
                 Some (Ofd (replicate 200 Byte.x42) 0);
                 Some (Ofd (replicate 50 Byte.x43) 0)])
    false [].

Definition fh_film_second : dvdwrap_fh_t :=
  Fh [Vts 0 0; Vts 6 100; Vts 7 200; Vts 8 50; Vts 0 0; Vts 0 0; Vts 0 0;
      Vts 0 0; Vts 0 0; Vts 0 0] 350.

(** An image whose second segment file is empty, and one whose first
    segment file is empty and whose third cannot be opened. *)
Definition fs_empty_segment : gmap string inode :=
  <[ "/src//Film/VIDEO_TS/VIDEO_TS.IFO" := file_of 7 Byte.x49 ]>
  (<[ "/src//Film/VIDEO_TS/VTS_01_1.VOB" := file_of 3 Byte.x41 ]>
  (<[ "/src//Film/VIDEO_TS/VTS_01_2.VOB" := file_of 0 Byte.x42 ]> ∅)).

Definition fs_unreadable_segment : gmap string inode :=
  <[ "/src//Film/VIDEO_TS/VIDEO_TS.IFO" := file_of 7 Byte.x49 ]>
  (<[ "/src//Film/VIDEO_TS/VTS_01_1.VOB" := file_of 0 Byte.x41 ]>
  (<[ "/src//Film/VIDEO_TS/VTS_01_2.VOB" := file_of 3 Byte.x42 ]>
  (<[ "/src//Film/VIDEO_TS/VTS_01_3.VOB" :=
        Inode 0 4 false (replicate 4 Byte.x43) ]> ∅))).

Definition w_empty_segment : world := World fs_empty_segment std_fds false [].

Definition w_unreadable_segment : world :=
  World fs_unreadable_segment std_fds false [].

(** * The directory operations and the entry point *)

(** ** Directories *)

(** The [d_type] hint of a directory entry: [DT_DIR], [DT_UNKNOWN], or any
    other value ([DT_REG], [DT_LNK], ...). *)
Inductive dirent_type :=
  | DT_DIR
  | DT_UNKNOWN
  | DT_OTHER.

(** [struct dirent], as far as the program reads it. *)
Record dirent := Dirent {
  d_name : string;
  d_type : dirent_type
}.

(** [S_ISDIR(mode)]: [(mode & S_IFMT) == S_IFDIR], with [S_IFMT = 0170000]
    and [S_IFDIR = 0040000]. *)
Definition S_ISDIR (mode : Z) : bool := Z.land mode 61440 =? 16384.

(** [dir->d_name[0] == '.'] *)
Definition hidden (name : string) : bool :=
  match name with
  | String c _ => Ascii.eqb c "."
  | EmptyString => false
  end.

(** ** dvdwrap_opendir and dvdwrap_releasedir *)

(** [fi->fh] receives a copy of the path; the result is the return value and
    the string held by [fi->fh]. *)
Definition dvdwrap_opendir (path : string) : Z * string := (0, path).

(** The copy is freed. *)
Definition dvdwrap_releasedir (fh : string) : Z := 0.

(** ** dvdwrap_readdir *)

(** One iteration of the [while ((dir = readdir(d)) != NULL)] loop: the name
    passed to [filler], or [None] when the iteration ends in [continue]. *)
Definition readdir_entry (fs : gmap string inode) (targetpath : string)
    (dir : dirent) : option string :=
  let thispath := targetpath +:+ "/" +:+ d_name dir in
  if hidden (d_name dir) then None                     (* hidden *)
  else
    let skip :=
      match d_type dir with
      | DT_DIR => false
      | DT_OTHER => true                               (* not a dir *)
      | DT_UNKNOWN =>
          match lstat fs thispath with
          | None => true                               (* stat failed *)
          | Some st => negb (S_ISDIR (st_mode st))     (* not a dir *)
          end
      end in
    if skip then None
    else
      let thatpath := thispath +:+ "/VIDEO_TS" in
      match lstat fs thatpath with
      | None => Some (d_name dir)
      | Some _ => Some (d_name dir +:+ FILE_EXTENSION)
      end.

(** The loop over the entries [readdir] delivers, [buf] being the names
    [filler] has received so far. *)
Fixpoint readdir_loop (fs : gmap string inode) (targetpath : string)
    (entries : list dirent) (buf : list string) : list string :=
  match entries with
  | [] => buf
  | dir :: entries' =>
      readdir_loop fs targetpath entries'
        match readdir_entry fs targetpath dir with
        | Some name => buf ++ [name]
        | None => buf
        end
  end.

(** [dirs] gives the entries [opendir] and [readdir] deliver for a path, in
    their order ([None] when [opendir] fails); [path] is [None] for a null
    pointer, in which case the path held by [fi->fh] is used.  [filler]
    appends a name to [buf], and its return value is not looked at.  The
    result is the return value and the names in [buf]. *)
Definition dvdwrap_readdir (fs : gmap string inode)
    (dirs : gmap string (list dirent)) (sourcepath : string)
    (path : option string) (fh : string) (buf : list string)
    : Z * list string :=
  let path := match path with Some p => p | None => fh end in
  let targetpath := sourcepath +:+ "/" +:+ path in
  let buf := buf ++ ["."] in
  let buf := buf ++ [".."] in
  match dirs !! targetpath with
  | Some entries => (0, readdir_loop fs targetpath entries buf)
  | None => (0, buf)
  end.

(** ** main *)

(** The loop [for (n = ...; n < argc - 1; n++) argv[n] = argv[n + 1]] with
    [k] iterations left.  [argv] has [argc] strings (the null pointer that
    ends the array is not needed: the loop reads up to index [argc - 1]). *)
Fixpoint shift_args (k : nat) (n : nat) (argv : list string) : list string :=
  match k with
  | O => argv
  | S k' => shift_args k' (S n) (<[n := default "" (argv !! S n)]> argv)
  end.

(** How [main] ends: with an exit status of its own, or in the call
    [fuse_main(argc, argv, &dvdwrap_oper, ctx)], whose result it returns;
    [source] is the argument handed to [realpath] for [ctx->sourcepath]. *)
Inductive main_result :=
  | Exit (status : Z)
  | FuseMain (argc : Z) (argv : list string) (source : string).

(** [nomem] tells whether [malloc] fails. *)
Definition main (nomem : bool) (argv : list string) : main_result :=
  let argc := Z.of_nat (length argv) in
  if argc <? 3 then Exit 1
  else if nomem then Exit 1
  else
    let source := default "" (argv !! 1%nat) in
    let argv := shift_args (Z.to_nat (argc - 1 - 1)) 1 argv in
    FuseMain (argc - 1) argv source.

(** * The single-segment read of the first revision *)

Module Rev1.

(** [dvdwrap_read] of the first revision of the file: one positioned read on
    the segment of the offset, no loop.  The handle has the same layout
    ([total] is [total_size] here, and the sizes are [size_t]).  The search
    loop is the one of the later revision, but nothing stops the use of
    slot [MAX_VTS_MIN] after it: there the program reads outside the array,
    and the model reads a slot of zeros. *)
Definition dvdwrap_read (w : world) (private : dvdwrap_fh_t)
    (buf : list Byte.byte) (size offset : Z) : world * Z * list Byte.byte :=
  if total_size private <=? u64 offset then (w, 0, buf)
  else
    let '(min, offset) :=
      locate private (Z.to_nat (MAX_VTS_MIN - 1)) 1 offset in
    let seg := vts_at private min in
    let room := u64 (vts_size seg - u64 offset) in
    let size := if room <? size then room else size in
    let w1 := (sys_lseek w (vts_fd seg) offset).2 in
    let '(n, chunk, w2) := sys_read w1 (vts_fd seg) size in
    (w2, i32 n, write_at 0 chunk buf).

End Rev1.

(** * What the directory listing takes for a directory *)

(** The entry at [thispath] passes the tests of [dvdwrap_readdir] on its
    type: its [d_type] is [DT_DIR], or it is [DT_UNKNOWN] and [lstat] of the
    path succeeds with the mode of a directory. *)
Definition entry_is_dir (fs : gmap string inode) (thispath : string)
    (dir : dirent) : Prop :=
  d_type dir = DT_DIR
  \/ (d_type dir = DT_UNKNOWN
      /\ exists st, lstat fs thispath = Some st /\ S_ISDIR (st_mode st) = true).

(** * Further example trees *)

(** A directory with mode 0755. *)
Definition dir_node : inode := Inode 16877 0 true [].

(** Two titlesets of the same aggregate size, 4 bytes each. *)
Definition fs_tie : gmap string inode :=
  <[ "/dvd/VIDEO_TS/VTS_01_1.VOB" := file_of 4 Byte.x41 ]>
  (<[ "/dvd/VIDEO_TS/VTS_02_1.VOB" := file_of 3 Byte.x42 ]>
  (<[ "/dvd/VIDEO_TS/VTS_02_2.VOB" := file_of 1 Byte.x43 ]> ∅)).

(** The directory [/src//sub] with: the image directory [Film]; a plain
    directory [docs]; a file [notes.txt]; a hidden directory [.git]; a
    directory [Broken] that has a [VIDEO_TS] subdirectory but nothing in
    it; and a plain directory whose name is [old.mpg]. *)
Definition fs_sub : gmap string inode :=
  <[ "/src//sub/Film" := dir_node ]>
  (<[ "/src//sub/Film/VIDEO_TS" := dir_node ]>
  (<[ "/src//sub/Film/VIDEO_TS/VIDEO_TS.IFO" := file_of 7 Byte.x49 ]>
  (<[ "/src//sub/Film/VIDEO_TS/VTS_01_1.VOB" := file_of 100 Byte.x41 ]>
  (<[ "/src//sub/docs" := dir_node ]>
  (<[ "/src//sub/notes.txt" := file_of 12 Byte.x4e ]>
  (<[ "/src//sub/.git" := dir_node ]>
  (<[ "/src//sub/Broken" := dir_node ]>
  (<[ "/src//sub/Broken/VIDEO_TS" := dir_node ]>
  (<[ "/src//sub/old.mpg" := dir_node ]> ∅))))))))).

Definition entries_sub : list dirent :=
  [Dirent "." DT_DIR; Dirent ".." DT_DIR; Dirent "Film" DT_DIR;
   Dirent "docs" DT_UNKNOWN; Dirent "notes.txt" DT_UNKNOWN;
   Dirent ".git" DT_DIR; Dirent "Broken" DT_DIR;
   Dirent "old.mpg" DT_DIR; Dirent "gone" DT_UNKNOWN;
   Dirent "link" DT_OTHER].

Definition dirs_sub : gmap string (list dirent) :=
  <[ "/src//sub" := entries_sub ]> ∅.

(** An image whose second segment file cannot be opened. *)
Definition locked_segments : list inode :=
  [file_of 3 Byte.x41; Inode 0 4 false (replicate 4 Byte.x42)].

Definition fs_locked : gmap string inode :=
  <[ "/src//Film/VIDEO_TS/VIDEO_TS.IFO" := file_of 7 Byte.x49 ]>
  (<[ "/src//Film/VIDEO_TS/VTS_01_1.VOB" := file_of 3 Byte.x41 ]>
  (<[ "/src//Film/VIDEO_TS/VTS_01_2.VOB" :=
        Inode 0 4 false (replicate 4 Byte.x42) ]> ∅)).

Definition w_locked : world := World fs_locked std_fds false [].

(** A handle that records 5 bytes for its only segment, in a state where
    the descriptor of that segment is open on 3 bytes only. *)
Definition fh_stale : dvdwrap_fh_t :=
  Fh [Vts 0 0; Vts 3 5; Vts 0 0; Vts 0 0; Vts 0 0; Vts 0 0; Vts 0 0; Vts 0 0;
      Vts 0 0; Vts 0 0] 5.

Definition w_stale : world :=
  World ∅ (std_fds ++ [Some (Ofd (replicate 3 Byte.x41) 0)]) false [].

(** ** Symbolic links among the segment files *)

(** A symbolic link with the text [text] (mode [S_IFLNK | 0777], 0120777)
    that leads to a readable file with the contents [data]. *)
Definition link_to (text : string) (data : list Byte.byte) : inode :=
  Inode 41471 (String.length text) true data.

(** The image directory [Film] whose first segment file is a symbolic link,
    with a text of 19 characters, to a file of 100 bytes elsewhere; the
    second segment file is a regular file of 50 bytes. *)
Definition fs_linked : gmap string inode :=
  <[ "/src//Film/VIDEO_TS/VIDEO_TS.IFO" := file_of 7 Byte.x49 ]>
  (<[ "/src//Film/VIDEO_TS/VTS_01_1.VOB" :=
        link_to "/media/store/t1.vob" (replicate 100 Byte.x41) ]>
  (<[ "/src//Film/VIDEO_TS/VTS_01_2.VOB" := file_of 50 Byte.x42 ]>
  (<[ "/media/store/t1.vob" := file_of 100 Byte.x41 ]> ∅))).

Definition linked_segments : list inode :=
  [link_to "/media/store/t1.vob" (replicate 100 Byte.x41);
   file_of 50 Byte.x42].

Definition w_linked : world := World fs_linked std_fds false [].

(** The handle [dvdwrap_open] builds for it: 19 bytes recorded beside the
    descriptor of the first segment. *)
Definition fh_linked : dvdwrap_fh_t :=
  Fh [Vts 0 0; Vts 3 19; Vts 4 50; Vts 0 0; Vts 0 0; Vts 0 0; Vts 0 0;
      Vts 0 0; Vts 0 0; Vts 0 0] 69.

(** The same with a link that leads to a file of 5 bytes only, as the one
    segment file. *)
Definition fs_short_link : gmap string inode :=
  <[ "/src//Film/VIDEO_TS/VIDEO_TS.IFO" := file_of 7 Byte.x49 ]>
  (<[ "/src//Film/VIDEO_TS/VTS_01_1.VOB" :=
        link_to "/media/store/t1.vob" (replicate 5 Byte.x41) ]>
  (<[ "/media/store/t1.vob" := file_of 5 Byte.x41 ]> ∅)).

Definition w_short_link : world := World fs_short_link std_fds false [].

Definition fh_short_link : dvdwrap_fh_t :=
  Fh [Vts 0 0; Vts 3 19; Vts 0 0; Vts 0 0; Vts 0 0; Vts 0 0; Vts 0 0;
      Vts 0 0; Vts 0 0; Vts 0 0] 19.

(** * Machine integers within range *)

Lemma u64_id z : 0 <= z < 2 ^ 64 -> u64 z = z.
Proof. intros H. unfold u64. apply Z.mod_small. exact H. Qed.

Lemma i64_id z : - 2 ^ 63 <= z < 2 ^ 63 -> i64 z = z.
Proof. intros H. unfold i64. rewrite Z.mod_small; lia. Qed.

Lemma i32_id z : - 2 ^ 31 <= z < 2 ^ 31 -> i32 z = z.
Proof. intros H. unfold i32. rewrite Z.mod_small; lia. Qed.

Lemma u64_range z : 0 <= u64 z < 2 ^ 64.
Proof. unfold u64. apply Z.mod_pos_bound. lia. Qed.

(** * Properties of the scan *)

Lemma nine_minors : Z.to_nat (MAX_VTS_MIN - 1) = 9%nat.
Proof. reflexivity. Qed.

Lemma ninety_nine_majors : Z.to_nat (MAX_VTS_MAJ - 1) = 99%nat.
Proof. reflexivity. Qed.

Lemma seg_size_nonneg f : 0 <= seg_size f.
Proof. unfold seg_size. lia. Qed.

Lemma sum_sizes_nonneg segs : 0 <= sum_sizes segs.
Proof.
  induction segs as [|f segs IH]; simpl; [lia|].
  pose proof (seg_size_nonneg f). lia.
Qed.

Lemma sum_sizes_app l1 l2 : sum_sizes (l1 ++ l2) = sum_sizes l1 + sum_sizes l2.
Proof. induction l1 as [|f l1 IH]; simpl; lia. Qed.

Lemma plain_seg_size f :
  plain_file f -> seg_size f = Z.of_nat (length (i_data f)).
Proof. unfold plain_file, seg_size. intros ->. reflexivity. Qed.

(** For files whose size is the length of their contents, the sum of the
    sizes is the length of the concatenation. *)
Lemma sum_sizes_bytes segs :
  Forall plain_file segs ->
  sum_sizes segs = Z.of_nat (length (titleset_bytes segs)).
Proof.
  unfold titleset_bytes. induction 1 as [|f segs Hf _ IH]; [reflexivity|].
  simpl. rewrite length_app, IH, Nat2Z.inj_add, (plain_seg_size f Hf).
  reflexivity.
Qed.

Lemma lstat_Some fs p f :
  fs !! p = Some f -> lstat fs p = Some (Stat (i_mode f) (seg_size f)).
Proof. intros H. unfold lstat. rewrite H. reflexivity. Qed.

Lemma lstat_None fs p : fs !! p = None -> lstat fs p = None.
Proof. intros H. unfold lstat. rewrite H. reflexivity. Qed.

Lemma lstat_is_None fs p : lstat fs p = None <-> fs !! p = None.
Proof. unfold lstat. destruct (fs !! p); split; congruence. Qed.

Lemma lstat_size_nonneg fs p st : lstat fs p = Some st -> 0 <= st_size st.
Proof.
  unfold lstat. destruct (fs !! p); intros H; inversion H; simpl. lia.
Qed.

Section Scan.

Variable fs : gmap string inode.
Variable path : string.

(** The inner loop never lowers [min], and it keeps [titlesize] within
    [uint64_t]. *)
Lemma scan_minors_bounds maj n min acc :
  0 <= acc < 2 ^ 64 ->
  min <= (scan_minors fs path maj n min acc).1
  /\ 0 <= (scan_minors fs path maj n min acc).2 < 2 ^ 64.
Proof.
  revert min acc. induction n as [|n IH]; intros min acc Hacc; simpl.
  - lia.
  - destruct (lstat fs (vob_path path maj min)) as [st|]; simpl; [|lia].
    destruct (IH (min + 1) (u64 (acc + st_size st)) (u64_range _)) as [H1 H2].
    split; [lia | exact H2].
Qed.

Lemma titlesize_range maj : 0 <= titlesize fs path maj < 2 ^ 64.
Proof.
  unfold titlesize, scan_titleset.
  apply (scan_minors_bounds maj _ 1 0). lia.
Qed.

(** The inner loop ends with [min = 1] exactly when the first segment is
    missing. *)
Lemma scan_titleset_min_1 maj :
  (scan_titleset fs path maj).1 = 1 <-> lstat fs (vob_path path maj 1) = None.
Proof.
  unfold scan_titleset. rewrite nine_minors.
  change (scan_minors fs path maj 9 1 0)
    with (match lstat fs (vob_path path maj 1) with
          | None => (1, 0)
          | Some st => scan_minors fs path maj 8 2 (u64 (0 + st_size st))
          end).
  destruct (lstat fs (vob_path path maj 1)) as [st|].
  - split; [|discriminate]. intros H.
    pose proof (scan_minors_bounds maj 8 2 (u64 (0 + st_size st)) (u64_range _)) as [Hb _].
    lia.
  - split; reflexivity.
Qed.

(** The inner loop over a titleset given by its files. *)
Lemma scan_minors_files maj segs : forall n min acc,
  (length segs <= n)%nat ->
  (forall i f, segs !! i = Some f ->
     fs !! vob_path path maj (min + Z.of_nat i) = Some f) ->
  ((length segs < n)%nat ->
     fs !! vob_path path maj (min + Z.of_nat (length segs)) = None) ->
  0 <= acc -> acc + sum_sizes segs < 2 ^ 64 ->
  scan_minors fs path maj n min acc
  = (min + Z.of_nat (length segs), acc + sum_sizes segs).
Proof.
  induction segs as [|f segs IH]; intros n min acc Hlen Hfiles Hgap Hacc Hsum.
  - simpl in *. destruct n as [|n]; simpl.
    + f_equal; lia.
    + rewrite Z.add_0_r in Hgap. rewrite (lstat_None _ _ (Hgap ltac:(lia))).
      f_equal; lia.
  - destruct n as [|n]; [simpl in Hlen; lia|].
    simpl. pose proof (Hfiles 0%nat f eq_refl) as H0.
    rewrite Z.add_0_r in H0. rewrite (lstat_Some _ _ _ H0). simpl.
    pose proof (seg_size_nonneg f). pose proof (sum_sizes_nonneg segs).
    simpl in Hsum.
    rewrite u64_id by lia.
    rewrite (IH n (min + 1) (acc + seg_size f)).
    + f_equal; simpl length; lia.
    + simpl in Hlen. lia.
    + intros i g Hi. specialize (Hfiles (S i) g Hi).
      replace (min + 1 + Z.of_nat i) with (min + Z.of_nat (S i)) by lia.
      exact Hfiles.
    + intros Hlt. simpl in Hgap.
      replace (min + 1 + Z.of_nat (length segs))
        with (min + Z.of_nat (S (length segs))) by lia.
      apply Hgap. lia.
    + lia.
    + lia.
Qed.

(** The aggregate of a titleset is the exact sum of its files' sizes. *)
Lemma scan_titleset_files maj segs :
  titleset_files fs path maj segs ->
  sum_sizes segs < 2 ^ 64 ->
  scan_titleset fs path maj = (1 + Z.of_nat (length segs), sum_sizes segs).
Proof.
  intros (Hlen & Hfiles & Hgap) Hsum.
  unfold scan_titleset. rewrite nine_minors.
  rewrite (scan_minors_files maj segs 9 1 0); auto; lia.
Qed.

(** What the outer loop returns: either the pair it was entered with, or a
    visited major number with a strictly larger aggregate; nothing visited
    is larger than the returned size, and nothing visited before the
    returned major number is as large. *)
Lemma scan_majors_spec n : forall maj lm ls,
  let r := scan_majors fs path n maj lm ls in
  (r = (lm, ls)
   \/ (maj <= r.1 < maj + Z.of_nat n /\ visited fs path maj r.1
       /\ r.2 = titlesize fs path r.1 /\ ls < r.2
       /\ forall j, maj <= j < r.1 -> titlesize fs path j < r.2))
  /\ ls <= r.2
  /\ (forall j, maj <= j < maj + Z.of_nat n -> visited fs path maj j ->
        titlesize fs path j <= r.2).
Proof.
  induction n as [|n IH]; intros maj lm ls; simpl.
  - split; [left; reflexivity|]. split; [simpl; lia|]. intros j Hj. lia.
  - pose proof (scan_titleset_min_1 maj) as Hmin.
    unfold titlesize in *.
    destruct (scan_titleset fs path maj) as [min ts] eqn:Est. simpl in Hmin.
    destruct (Z.eqb_spec min 1) as [E1|N1].
    + split; [left; reflexivity|]. split; [simpl; lia|].
      intros j Hj Hv. exfalso. apply (Hv maj); [lia|]. apply Hmin. exact E1.
    + assert (Hfirst : lstat fs (vob_path path maj 1) <> None).
      { intros Hc. apply N1. apply Hmin. exact Hc. }
      assert (Hts : ts = (scan_titleset fs path maj).2) by (rewrite Est; reflexivity).
      assert (Hstep : forall j, maj + 1 <= j -> visited fs path (maj + 1) j -> visited fs path maj j).
      { intros j Hj Hv i Hi. destruct (Z.eq_dec i maj) as [->|Hne]; [exact Hfirst|].
        apply Hv. lia. }
      assert (Hback : forall j, visited fs path maj j -> visited fs path (maj + 1) j).
      { intros j Hv i Hi. apply Hv. lia. }
      destruct (Z.ltb_spec ls ts) as [Hlt|Hge].
      * specialize (IH (maj + 1) maj ts). simpl in IH.
        destruct IH as (Hcase & Hle & Hall).
        split; [right|split].
        -- destruct Hcase as [Heq|(Hr & Hv & Hsz & Hgt & Hbefore)].
           ++ rewrite Heq. simpl. split; [lia|]. split.
              { intros i Hi. replace i with maj by lia. exact Hfirst. }
              split; [exact Hts|]. split; [exact Hlt|]. intros j Hj. lia.
           ++ split; [lia|]. split; [apply Hstep; [lia|exact Hv]|].
              split; [exact Hsz|]. split; [lia|].
              intros j Hj. destruct (Z.eq_dec j maj) as [->|Hne].
              ** rewrite <- Hts. exact Hgt.
              ** apply Hbefore. lia.
        -- lia.
        -- intros j Hj Hv. destruct (Z.eq_dec j maj) as [->|Hne].
           ++ rewrite <- Hts. exact Hle.
           ++ apply Hall; [lia|]. apply Hback. exact Hv.
      * specialize (IH (maj + 1) lm ls). simpl in IH.
        destruct IH as (Hcase & Hle & Hall).
        split; [|split].
        -- destruct Hcase as [Heq|(Hr & Hv & Hsz & Hgt & Hbefore)].
           ++ left. exact Heq.
           ++ right. split; [lia|]. split; [apply Hstep; [lia|exact Hv]|].
              split; [exact Hsz|]. split; [exact Hgt|].
              intros j Hj. destruct (Z.eq_dec j maj) as [->|Hne].
              ** rewrite <- Hts. lia.
              ** apply Hbefore. lia.
        -- exact Hle.
        -- intros j Hj Hv. destruct (Z.eq_dec j maj) as [->|Hne].
           ++ rewrite <- Hts. lia.
           ++ apply Hall; [lia|]. apply Hback. exact Hv.
Qed.

(** A successful scan returns a visited major number in range together
    with its aggregate, which is positive, at least as large as that of
    every visited major number, and larger than that of every earlier one. *)
Lemma scan_videots_Some maj total :
  dvdwrap_scan_videots fs path = Some (maj, total) ->
  1 <= maj < MAX_VTS_MAJ /\ visited fs path 1 maj
  /\ total = titlesize fs path maj /\ 0 < total
  /\ (forall j, 1 <= j < MAX_VTS_MAJ -> visited fs path 1 j -> titlesize fs path j <= total)
  /\ (forall j, 1 <= j < maj -> titlesize fs path j < total).
Proof.
  unfold dvdwrap_scan_videots. rewrite ninety_nine_majors.
  pose proof (scan_majors_spec 99 1 0 0) as H. cbv zeta in H.
  destruct (scan_majors fs path 99 1 0 0) as [lm ls].
  destruct H as (Hcase & Hle & Hall). cbn [fst snd] in *.
  destruct (Z.eqb_spec lm 0) as [E0|N0]; [discriminate|].
  intros Heq. inversion Heq; subst lm ls. clear Heq.
  destruct Hcase as [Hc|(Hr & Hv & Hsz & Hgt & Hbefore)].
  - inversion Hc. lia.
  - unfold MAX_VTS_MAJ.
    split; [lia|]. split; [exact Hv|]. split; [exact Hsz|]. split; [lia|].
    split; [|exact Hbefore].
    intros j Hj Hvj. apply Hall; [lia|exact Hvj].
Qed.

(** The scan fails exactly when no visited major number has a positive
    aggregate. *)
Lemma scan_videots_None :
  dvdwrap_scan_videots fs path = None <->
  forall j, 1 <= j < MAX_VTS_MAJ -> visited fs path 1 j -> titlesize fs path j = 0.
Proof.
  unfold dvdwrap_scan_videots. rewrite ninety_nine_majors.
  pose proof (scan_majors_spec 99 1 0 0) as H. cbv zeta in H.
  destruct (scan_majors fs path 99 1 0 0) as [lm ls].
  destruct H as (Hcase & Hle & Hall). cbn [fst snd] in *.
  destruct (Z.eqb_spec lm 0) as [E0|N0].
  - split; [|reflexivity]. intros _ j Hj Hv.
    destruct Hcase as [Hc|(Hr & _)]; [|lia].
    inversion Hc; subst. pose proof (titlesize_range j).
    specialize (Hall j ltac:(unfold MAX_VTS_MAJ in Hj; lia) Hv). lia.
  - split; [discriminate|]. intros Hzero. exfalso.
    destruct Hcase as [Hc|(Hr & Hv & Hsz & Hgt & _)]; [inversion Hc; lia|].
    specialize (Hzero lm ltac:(unfold MAX_VTS_MAJ; lia) Hv). lia.
Qed.

End Scan.

(** * Claims about the scan *)

(** C5, as stated, fails: with segments at major number 2 only, the scan
    reports NotFound although a major number in the range has a segment. *)
Lemma scan_not_found_despite_segment :
  ~ (dvdwrap_scan_videots fs_major_2_only "/dvd" = None <->
     forall maj, 1 <= maj < MAX_VTS_MAJ ->
       lstat fs_major_2_only (vob_path "/dvd" maj 1) = None).
Proof.
  intros [H _].
  assert (E : dvdwrap_scan_videots fs_major_2_only "/dvd" = None)
    by (vm_compute; reflexivity).
  specialize (H E 2 ltac:(unfold MAX_VTS_MAJ; lia)).
  vm_compute in H. discriminate.
Qed.

(** C5, amended: the scan visits the major numbers 1, 2, ... in order and
    stops at the first one without a segment at minor index 1 (or after 99);
    for each visited major number it sums the segment sizes from minor index
    1 up to the first missing one; it fails with NotFound if and only if no
    visited major number has a positive aggregate size. *)
Theorem scan_not_found_iff (fs : gmap string inode) (root : string) :
  (dvdwrap_scan_videots fs root = None <->
   forall maj, 1 <= maj < MAX_VTS_MAJ ->
     (forall i, 1 <= i <= maj -> lstat fs (vob_path root i 1) <> None) ->
     (scan_titleset fs root maj).2 = 0)
  /\ (forall maj segs,
        titleset_files fs root maj segs -> sum_sizes segs < 2 ^ 64 ->
        scan_titleset fs root maj
        = (1 + Z.of_nat (length segs), sum_sizes segs))
  /\ (forall maj total,
        dvdwrap_scan_videots fs root = Some (maj, total) ->
        1 <= maj < MAX_VTS_MAJ
        /\ (forall i, 1 <= i <= maj -> lstat fs (vob_path root i 1) <> None)
        /\ total = (scan_titleset fs root maj).2 /\ 0 < total).
Proof.
  split; [apply scan_videots_None|]. split.
  - intros maj segs. apply scan_titleset_files.
  - intros maj total H. apply scan_videots_Some in H.
    destruct H as (H1 & H2 & H3 & H4 & _). auto.
Qed.

(** C3, as stated, fails: with titlesets of 3 and 9 bytes at major numbers 1
    and 3, the scan selects the smaller one. *)
Lemma scan_selects_smaller_titleset :
  titleset_files fs_majors_1_3 "/dvd" 1 [file_of 3 Byte.x41]
  /\ titleset_files fs_majors_1_3 "/dvd" 3 [file_of 9 Byte.x42]
  /\ sum_sizes [file_of 3 Byte.x41] = 3
  /\ sum_sizes [file_of 9 Byte.x42] = 9
  /\ dvdwrap_scan_videots fs_majors_1_3 "/dvd" = Some (1, 3).
Proof.
  split; [|split].
  - split; [simpl; lia|]. split.
    + intros [|i] f Hi; simpl in Hi; inversion Hi; subst.
      vm_compute. reflexivity.
    + intros _. vm_compute. reflexivity.
  - split; [simpl; lia|]. split.
    + intros [|i] f Hi; simpl in Hi; inversion Hi; subst.
      vm_compute. reflexivity.
    + intros _. vm_compute. reflexivity.
  - vm_compute. auto.
Qed.

(** C3, amended: when the titlesets of a DVD image root are those of the
    major numbers 1..k (each has a segment at minor index 1, and major
    number k+1 has none or k = 99) and two of them have aggregate sizes
    A < B, the scan succeeds and selects a titleset among 1..k other than
    A's whose aggregate is the largest of all, hence at least B; with two
    titlesets (k = 2) it selects B's. *)
Theorem scan_selects_largest (fs : gmap string inode) (root : string)
    (k a b : Z) :
  1 <= k < MAX_VTS_MAJ ->
  (forall i, 1 <= i <= k -> lstat fs (vob_path root i 1) <> None) ->
  (k + 1 < MAX_VTS_MAJ -> lstat fs (vob_path root (k + 1) 1) = None) ->
  1 <= a <= k -> 1 <= b <= k ->
  titlesize fs root a < titlesize fs root b ->
  exists m total,
    dvdwrap_scan_videots fs root = Some (m, total)
    /\ 1 <= m <= k /\ m <> a
    /\ total = titlesize fs root m
    /\ (forall j, 1 <= j <= k -> titlesize fs root j <= total)
    /\ (k = 2 -> m = b).
Proof.
  intros Hk Hrun Hstop Ha Hb Hlt.
  assert (Hvis : forall j, 1 <= j <= k -> visited fs root 1 j).
  { intros j Hj i Hi. apply Hrun. lia. }
  destruct (dvdwrap_scan_videots fs root) as [[m total]|] eqn:E.
  - apply scan_videots_Some in E.
    destruct E as (Hm & Hv & Htot & Hpos & Hmax & Hfirst).
    assert (Hmk : m <= k).
    { destruct (Z.le_gt_cases m k) as [?|Hgt]; [assumption|exfalso].
      apply (Hv (k + 1)); [lia|]. apply Hstop. lia. }
    assert (Hne : m <> a).
    { intros ->. specialize (Hmax b ltac:(lia) (Hvis b Hb)). lia. }
    assert (Hab : a <> b) by (intros ->; lia).
    exists m, total.
    split; [reflexivity|]. split; [lia|]. split; [exact Hne|].
    split; [exact Htot|]. split; [|lia].
    intros j Hj. apply Hmax; [lia|]. apply Hvis. exact Hj.
  - exfalso. rewrite scan_videots_None in E.
    specialize (E b ltac:(lia) (Hvis b Hb)).
    pose proof (titlesize_range fs root a). lia.
Qed.

Lemma scan_selects_largest_witness :
  exists m total,
    dvdwrap_scan_videots fs_majors_1_2 "/dvd" = Some (m, total)
    /\ 1 <= m <= 2 /\ m <> 1
    /\ total = titlesize fs_majors_1_2 "/dvd" m
    /\ (forall j, 1 <= j <= 2 -> titlesize fs_majors_1_2 "/dvd" j <= total)
    /\ (2 = 2 -> m = 2).
Proof.
  apply (scan_selects_largest fs_majors_1_2 "/dvd" 2 1 2).
  - unfold MAX_VTS_MAJ. lia.
  - intros i Hi. assert (Hi' : i = 1 \/ i = 2) by lia.
    destruct Hi' as [->| ->]; vm_compute; discriminate.
  - intros _. vm_compute. reflexivity.
  - lia.
  - lia.
  - vm_compute. reflexivity.
Defined.

(** C8: when the segment at minor index 3 is missing while those at 1, 2 and
    4 exist, the aggregate computed for the titleset is the size of
    segments 1 and 2 only: the inner loop stops at index 3, and this is the
    total the scan reports when it selects the titleset. *)
Theorem gap_truncates_titleset (fs : gmap string inode) (root : string)
    (maj : Z) (f1 f2 f4 : inode) :
  fs !! vob_path root maj 1 = Some f1 ->
  fs !! vob_path root maj 2 = Some f2 ->
  fs !! vob_path root maj 3 = None ->
  fs !! vob_path root maj 4 = Some f4 ->
  seg_size f1 + seg_size f2 < 2 ^ 64 ->
  scan_titleset fs root maj = (3, seg_size f1 + seg_size f2)
  /\ forall total, dvdwrap_scan_videots fs root = Some (maj, total) ->
       total = seg_size f1 + seg_size f2.
Proof.
  intros H1 H2 H3 H4 Hsum.
  assert (Hts : scan_titleset fs root maj = (3, seg_size f1 + seg_size f2)).
  { rewrite (scan_titleset_files fs root maj [f1; f2]).
    - simpl. f_equal. lia.
    - split; [simpl; lia|]. split.
      + intros [|[|i]] f Hi; simpl in Hi; inversion Hi; subst; assumption.
      + intros _. exact H3.
    - simpl. lia. }
  split; [exact Hts|].
  intros total Hscan. apply scan_videots_Some in Hscan.
  destruct Hscan as (_ & _ & -> & _). unfold titlesize. rewrite Hts. reflexivity.
Qed.

Lemma gap_truncates_titleset_witness :
  scan_titleset fs_gap_at_3 "/dvd" 1 = (3, 3 + 4)
  /\ forall total, dvdwrap_scan_videots fs_gap_at_3 "/dvd" = Some (1, total) ->
       total = 3 + 4.
Proof.
  apply (gap_truncates_titleset fs_gap_at_3 "/dvd" 1
           (file_of 3 Byte.x41) (file_of 4 Byte.x42) (file_of 5 Byte.x43));
    vm_compute; reflexivity.
Defined.

(** * Paths *)

Lemma append_cons c s t : String c s +:+ t = String c (s +:+ t).
Proof. reflexivity. Qed.

Lemma append_nil s : "" +:+ s = s.
Proof. reflexivity. Qed.

Lemma length_append s t :
  String.length (s +:+ t) = (String.length s + String.length t)%nat.
Proof.
  induction s as [|c s IH]; [reflexivity|].
  rewrite append_cons. simpl. rewrite IH. reflexivity.
Qed.

Lemma str_cut_from k : forall s, str_cut k s +:+ str_from k s = s.
Proof.
  induction k as [|k IH]; intros [|c s]; simpl; try reflexivity.
  rewrite append_cons, IH. reflexivity.
Qed.

Lemma str_from_append r e : str_from (String.length r) (r +:+ e) = e.
Proof. induction r as [|c r IH]; [reflexivity|]. rewrite append_cons. exact IH. Qed.

Lemma str_cut_append r e : str_cut (String.length r) (r +:+ e) = r.
Proof.
  induction r as [|c r IH]; [destruct e; reflexivity|].
  rewrite append_cons. simpl. rewrite IH. reflexivity.
Qed.

Lemma ext_index_append r : ext_index (r +:+ FILE_EXTENSION) = String.length r.
Proof. unfold ext_index. rewrite length_append. lia. Qed.

(** A path has the extension exactly when it is some path followed by
    [".mpg"], and cutting it at the extension gives that path back. *)
Lemma has_extension_append r : has_extension (r +:+ FILE_EXTENSION) = true.
Proof.
  unfold has_extension. rewrite ext_index_append, str_from_append.
  reflexivity.
Qed.

Lemma has_extension_inv s :
  has_extension s = true -> s = str_cut (ext_index s) s +:+ FILE_EXTENSION.
Proof.
  unfold has_extension. intros H. apply String.eqb_eq in H.
  transitivity (str_cut (ext_index s) s +:+ str_from (ext_index s) s).
  - symmetry. apply str_cut_from.
  - f_equal. exact H.
Qed.

Lemma resolve_Synthetic sourcepath path root :
  resolve sourcepath path = Synthetic root <->
  sourcepath +:+ "/" +:+ path = root +:+ FILE_EXTENSION.
Proof.
  unfold resolve. split.
  - destruct (has_extension _) eqn:E; [|discriminate].
    intros H. inversion H as [H1]. apply has_extension_inv in E.
    rewrite H1 in E. rewrite H1. exact E.
  - intros ->. rewrite has_extension_append, ext_index_append, str_cut_append.
    reflexivity.
Qed.

Lemma resolve_Passthrough sourcepath path :
  (forall root, sourcepath +:+ "/" +:+ path <> root +:+ FILE_EXTENSION) ->
  resolve sourcepath path = Passthrough (sourcepath +:+ "/" +:+ path).
Proof.
  intros H. unfold resolve.
  destruct (has_extension _) eqn:E; [|reflexivity].
  apply has_extension_inv in E. exfalso. exact (H _ E).
Qed.

Lemma vob_path_name path maj min :
  vob_path path maj min = path +:+ "/VIDEO_TS/VTS_" +:+ vob_name maj min.
Proof. reflexivity. Qed.

(** The index file is none of the segment files. *)
Lemma ifo_path_not_vob root maj min : ifo_path root <> vob_path root maj min.
Proof.
  rewrite vob_path_name. unfold ifo_path. intros H.
  apply (inj (String.app root)) in H.
  rewrite !append_cons in H. inversion H.
Qed.

Lemma no_menu_name_clash :
  forallb (fun m => negb (menu_name_clash m)) (seqZ 0 MAX_VTS_MAJ) = true.
Proof. vm_compute. reflexivity. Qed.

Lemma menu_path_not_segment root menu_maj maj min :
  0 <= menu_maj < MAX_VTS_MAJ ->
  1 <= maj < MAX_VTS_MAJ -> 1 <= min < MAX_VTS_MIN ->
  vob_path root menu_maj 0 <> vob_path root maj min.
Proof.
  intros Hm Hmaj Hmin H. rewrite !vob_path_name in H.
  apply (inj (String.app root)) in H.
  apply (inj (String.app "/VIDEO_TS/VTS_")) in H.
  pose proof no_menu_name_clash as Hall.
  rewrite forallb_forall in Hall.
  specialize (Hall menu_maj). rewrite <- list_elem_of_In, elem_of_seqZ in Hall.
  specialize (Hall ltac:(unfold MAX_VTS_MAJ in *; lia)).
  apply negb_true_iff in Hall.
  assert (Hex : menu_name_clash menu_maj = true); [|congruence].
  unfold menu_name_clash. apply existsb_exists. exists maj. split.
  { rewrite <- list_elem_of_In, elem_of_seqZ. unfold MAX_VTS_MAJ in *. lia. }
  apply existsb_exists. exists min. split.
  { rewrite <- list_elem_of_In, elem_of_seqZ. unfold MAX_VTS_MIN in *. lia. }
  apply String.eqb_eq. exact H.
Qed.

(** * What the operations read of the real tree *)

Section Agree.

Variable root : string.
Variables fs fs' : gmap string inode.

(** Two trees with the same segment files under [root], for the major and
    minor numbers the loops go through. *)
Hypothesis agree : forall maj min,
  1 <= maj < MAX_VTS_MAJ -> 1 <= min < MAX_VTS_MIN ->
  fs !! vob_path root maj min = fs' !! vob_path root maj min.

Lemma lstat_agree maj min :
  1 <= maj < MAX_VTS_MAJ -> 1 <= min < MAX_VTS_MIN ->
  lstat fs (vob_path root maj min) = lstat fs' (vob_path root maj min).
Proof. intros Hmaj Hmin. unfold lstat. rewrite (agree maj min Hmaj Hmin). reflexivity. Qed.

Lemma scan_minors_agree maj n : forall min acc,
  1 <= maj < MAX_VTS_MAJ -> 1 <= min -> min + Z.of_nat n <= MAX_VTS_MIN ->
  scan_minors fs root maj n min acc = scan_minors fs' root maj n min acc.
Proof.
  induction n as [|n IH]; intros min acc Hmaj Hmin Hn; [reflexivity|].
  simpl. rewrite lstat_agree by lia.
  destruct (lstat fs' (vob_path root maj min)); [|reflexivity].
  apply IH; lia.
Qed.

Lemma scan_titleset_agree maj :
  1 <= maj < MAX_VTS_MAJ ->
  scan_titleset fs root maj = scan_titleset fs' root maj.
Proof.
  intros Hmaj. unfold scan_titleset. apply scan_minors_agree; [exact Hmaj|lia|].
  rewrite nine_minors. unfold MAX_VTS_MIN. lia.
Qed.

Lemma scan_majors_agree n : forall maj lm ls,
  1 <= maj -> maj + Z.of_nat n <= MAX_VTS_MAJ ->
  scan_majors fs root n maj lm ls = scan_majors fs' root n maj lm ls.
Proof.
  induction n as [|n IH]; intros maj lm ls Hmaj Hn; [reflexivity|].
  simpl. rewrite scan_titleset_agree by lia.
  destruct (scan_titleset fs' root maj) as [min ts].
  destruct (min =? 1); [reflexivity|].
  destruct (ls <? ts); apply IH; lia.
Qed.

Lemma scan_videots_agree :
  dvdwrap_scan_videots fs root = dvdwrap_scan_videots fs' root.
Proof.
  unfold dvdwrap_scan_videots. rewrite scan_majors_agree; [reflexivity|lia|].
  rewrite ninety_nine_majors. unfold MAX_VTS_MAJ. lia.
Qed.

Lemma open_segments_agree maj n : forall w min private,
  w_fs w = fs ->
  1 <= maj < MAX_VTS_MAJ -> 1 <= min -> min + Z.of_nat n <= MAX_VTS_MIN ->
  open_segments (with_fs fs' w) root maj n min private
  = let '(w1, private1, ok) := open_segments w root maj n min private in
    (with_fs fs' w1, private1, ok).
Proof.
  induction n as [|n IH]; intros w min private Hw Hmaj Hmin Hn; [reflexivity|].
  simpl. rewrite Hw. rewrite lstat_agree by lia.
  destruct (lstat fs' (vob_path root maj min)) as [st|]; [|reflexivity].
  unfold sys_open. simpl. rewrite Hw, (agree maj min) by lia.
  destruct (fs' !! vob_path root maj min) as [ino|]; [|reflexivity].
  destruct (i_readable ino); [|reflexivity].
  destruct (fd_alloc (w_fds w) (Ofd (i_data ino) 0)) as [i t].
  destruct (Z.of_nat i <? 0); [reflexivity|].
  apply (IH (World fs t (w_nomem w) (w_closed w))); [reflexivity|lia..].
Qed.

End Agree.

(** [dvdwrap_release] does not look at the tree. *)
Lemma release_segments_with_fs fs' private n : forall w min,
  release_segments (with_fs fs' w) private n min
  = with_fs fs' (release_segments w private n min).
Proof.
  induction n as [|n IH]; intros w min; [reflexivity|].
  simpl. destruct (vts_size (vts_at private min) =? 0); [apply IH|].
  rewrite <- IH. f_equal.
  unfold sys_close, fd_lookup. simpl.
  destruct (vts_fd (vts_at private min) <? 0); [reflexivity|].
  destruct (mjoin (w_fds w !! Z.to_nat (vts_fd (vts_at private min))));
    reflexivity.
Qed.

(** [dvdwrap_open] on a DVD image root sees nothing of the tree but the
    segment files. *)
Lemma dvdwrap_open_agree w fs' sourcepath path root :
  resolve sourcepath path = Synthetic root ->
  (forall maj min, 1 <= maj < MAX_VTS_MAJ -> 1 <= min < MAX_VTS_MIN ->
     w_fs w !! vob_path root maj min = fs' !! vob_path root maj min) ->
  dvdwrap_open (with_fs fs' w) sourcepath path
  = let '(w1, rc, fh) := dvdwrap_open w sourcepath path in
    (with_fs fs' w1, rc, fh).
Proof.
  intros Hres Hagree. unfold dvdwrap_open. rewrite Hres.
  change (w_fs (with_fs fs' w)) with fs'.
  rewrite <- (scan_videots_agree root (w_fs w) fs' Hagree).
  destruct (dvdwrap_scan_videots (w_fs w) root) as [[maj total]|] eqn:Escan;
    [|reflexivity].
  change (w_nomem (with_fs fs' w)) with (w_nomem w).
  destruct (w_nomem w); [reflexivity|].
  apply scan_videots_Some in Escan. destruct Escan as (Hmaj & _).
  rewrite (open_segments_agree root (w_fs w) fs' Hagree maj _ w 1 fh_zero eq_refl Hmaj);
    [|lia|rewrite nine_minors; unfold MAX_VTS_MIN; lia].
  destruct (open_segments w root maj _ 1 fh_zero) as [[w1 private] ok].
  destruct ok; [reflexivity|].
  unfold dvdwrap_release. cbn [fst]. rewrite release_segments_with_fs.
  reflexivity.
Qed.

(** [dvdwrap_getattr] on a DVD image root sees nothing of the tree but the
    index file and the segment files. *)
Lemma dvdwrap_getattr_agree fs fs' sourcepath path root :
  resolve sourcepath path = Synthetic root ->
  fs !! ifo_path root = fs' !! ifo_path root ->
  (forall maj min, 1 <= maj < MAX_VTS_MAJ -> 1 <= min < MAX_VTS_MIN ->
     fs !! vob_path root maj min = fs' !! vob_path root maj min) ->
  dvdwrap_getattr fs sourcepath path = dvdwrap_getattr fs' sourcepath path.
Proof.
  intros Hres Hifo Hagree. unfold dvdwrap_getattr. rewrite Hres.
  unfold lstat. rewrite Hifo.
  rewrite (scan_videots_agree root fs fs' Hagree). reflexivity.
Qed.

(** * Claims about attributes and path resolution *)

Lemma film_titleset : titleset_files fs_film "/src//Film" 1 film_segments.
Proof.
  split; [simpl; lia|]. split.
  - intros [|[|[|i]]] f Hi; simpl in Hi; inversion Hi; subst;
      vm_compute; reflexivity.
  - intros _. vm_compute. reflexivity.
Defined.

(** X21: when the index file exists and the titleset the scan selects has
    the segment files [segs] at minor indices 1..n with no gap, the size
    reported for the synthetic file is exactly the sum of the sizes [lstat]
    reports for them (which has to fit [off_t]), with the mode of the index
    file; whatever file is or is not at minor index 0 of that titleset, the
    reported size is the same.  For segment files whose [lstat] size is the
    length of their contents, as it is for regular files, that sum is the
    number of bytes of their concatenation. *)
Theorem reported_size_is_sum (fs : gmap string inode)
    (sourcepath path root : string) (ifo : inode) (maj total : Z)
    (segs : list inode) :
  resolve sourcepath path = Synthetic root ->
  fs !! ifo_path root = Some ifo ->
  dvdwrap_scan_videots fs root = Some (maj, total) ->
  titleset_files fs root maj segs ->
  sum_sizes segs <= OFF_MAX ->
  dvdwrap_getattr fs sourcepath path = (0, Stat (i_mode ifo) (sum_sizes segs))
  /\ (forall menu,
        dvdwrap_getattr (<[vob_path root maj 0 := menu]> fs) sourcepath path
        = (0, Stat (i_mode ifo) (sum_sizes segs)))
  /\ dvdwrap_getattr (delete (vob_path root maj 0) fs) sourcepath path
     = (0, Stat (i_mode ifo) (sum_sizes segs))
  /\ (Forall plain_file segs ->
      sum_sizes segs = Z.of_nat (length (titleset_bytes segs))).
Proof.
  intros Hres Hifo Hscan Hfiles Hsum.
  pose proof (sum_sizes_nonneg segs) as Hnn. unfold OFF_MAX in Hsum.
  assert (Hget : dvdwrap_getattr fs sourcepath path
                 = (0, Stat (i_mode ifo) (sum_sizes segs))).
  { unfold dvdwrap_getattr. rewrite Hres, (lstat_Some _ _ _ Hifo), Hscan.
    pose proof (scan_videots_Some _ _ _ _ Hscan) as (_ & _ & Htot & _).
    unfold titlesize in Htot.
    rewrite (scan_titleset_files fs root maj segs Hfiles) in Htot by lia.
    simpl in Htot. subst total. simpl. rewrite i64_id by lia. reflexivity. }
  pose proof (scan_videots_Some _ _ _ _ Hscan) as (Hmaj & _).
  split; [exact Hget|]. split; [|split].
  - intros menu. rewrite <- Hget.
    apply (dvdwrap_getattr_agree _ _ _ _ root Hres).
    + apply lookup_insert_ne. intros H. symmetry in H.
      exact (ifo_path_not_vob _ _ _ H).
    + intros j min Hj Hmin. apply lookup_insert_ne.
      apply menu_path_not_segment; [lia|exact Hj|exact Hmin].
  - rewrite <- Hget.
    apply (dvdwrap_getattr_agree _ _ _ _ root Hres).
    + apply lookup_delete_ne. intros H. symmetry in H.
      exact (ifo_path_not_vob _ _ _ H).
    + intros j min Hj Hmin. apply lookup_delete_ne.
      apply menu_path_not_segment; [lia|exact Hj|exact Hmin].
  - apply sum_sizes_bytes.
Qed.

Lemma reported_size_is_sum_witness :
  dvdwrap_getattr fs_film "/src" "/Film.mpg" = (0, Stat 420 350)
  /\ (forall menu,
        dvdwrap_getattr (<[vob_path "/src//Film" 1 0 := menu]> fs_film)
          "/src" "/Film.mpg" = (0, Stat 420 350))
  /\ dvdwrap_getattr (delete (vob_path "/src//Film" 1 0) fs_film)
       "/src" "/Film.mpg" = (0, Stat 420 350)
  /\ (Forall plain_file film_segments ->
      350 = Z.of_nat (length (titleset_bytes film_segments))).
Proof.
  apply (reported_size_is_sum fs_film "/src" "/Film.mpg" "/src//Film"
           (file_of 7 Byte.x49) 1 350 film_segments).
  - vm_compute. reflexivity.
  - vm_compute. reflexivity.
  - vm_compute. reflexivity.
  - exact film_titleset.
  - vm_compute. discriminate.
Defined.

(** C6, as stated, fails for open: without the index file the open of the
    synthetic file succeeds and stores a handle. *)
Lemma open_succeeds_without_index_file :
  resolve "/src" "/Film.mpg" = Synthetic "/src//Film"
  /\ lstat (w_fs w_film_no_index) (ifo_path "/src//Film") = None
  /\ (dvdwrap_open w_film_no_index "/src" "/Film.mpg").1.2 = 0
  /\ is_Some (dvdwrap_open w_film_no_index "/src" "/Film.mpg").2.
Proof.
  split; [vm_compute; reflexivity|]. split; [vm_compute; reflexivity|].
  split; [vm_compute; reflexivity|]. vm_compute. eexists. reflexivity.
Qed.

(** Whether the loop that opens the segments runs to its end: it is left
    through [goto fail] exactly when one of the segment files cannot be
    opened. *)
Lemma open_segments_flag root maj segs : forall n min w private,
  (length segs <= n)%nat ->
  (forall i f, segs !! i = Some f ->
     w_fs w !! vob_path root maj (min + Z.of_nat i) = Some f) ->
  ((length segs < n)%nat ->
     w_fs w !! vob_path root maj (min + Z.of_nat (length segs)) = None) ->
  (open_segments w root maj n min private).2 = forallb i_readable segs.
Proof.
  induction segs as [|f segs IH]; intros n min w private Hlen Hfiles Hgap.
  - destruct n as [|n]; [reflexivity|].
    cbn [length] in Hgap. rewrite Z.add_0_r in Hgap.
    simpl open_segments. rewrite (lstat_None _ _ (Hgap ltac:(lia))).
    reflexivity.
  - destruct n as [|n]; [simpl in Hlen; lia|]. cbn [length] in Hlen, Hgap.
    pose proof (Hfiles 0%nat f eq_refl) as H0. rewrite Z.add_0_r in H0.
    simpl open_segments. rewrite (lstat_Some _ _ _ H0).
    unfold sys_open. rewrite H0. cbn [forallb].
    destruct (i_readable f); [|reflexivity].
    destruct (fd_alloc (w_fds w) (Ofd (i_data f) 0)) as [i0 t1].
    destruct (Z.ltb_spec (Z.of_nat i0) 0); [lia|]. cbn [andb].
    apply IH; cbn [w_fs].
    + lia.
    + intros i g Hi.
      replace (min + 1 + Z.of_nat i) with (min + Z.of_nat (S i)) by lia.
      apply Hfiles. exact Hi.
    + intros Hlt.
      replace (min + 1 + Z.of_nat (length segs))
        with (min + Z.of_nat (S (length segs))) by lia.
      apply Hgap. lia.
Qed.

(** Every major number has its segment files: those found at the minor
    indices from 1 up to the first gap. *)
Lemma titleset_files_exist fs root maj :
  exists segs, titleset_files fs root maj segs.
Proof.
  assert (H : forall n min, exists segs,
            (length segs <= n)%nat
            /\ (forall i f, segs !! i = Some f ->
                  fs !! vob_path root maj (min + Z.of_nat i) = Some f)
            /\ ((length segs < n)%nat ->
                  fs !! vob_path root maj (min + Z.of_nat (length segs))
                  = None)).
  { induction n as [|n IH]; intros min.
    - exists []. split; [reflexivity|].
      split; [intros i f Hi; discriminate|]. simpl. lia.
    - destruct (fs !! vob_path root maj min) as [f|] eqn:E.
      + destruct (IH (min + 1)) as (segs & Hlen & Hfiles & Hgap).
        exists (f :: segs). split; [simpl; lia|]. split.
        * intros [|i] g Hi; simpl in Hi.
          -- inversion Hi; subst. rewrite Z.add_0_r. exact E.
          -- replace (min + Z.of_nat (S i)) with (min + 1 + Z.of_nat i)
               by lia.
             apply Hfiles. exact Hi.
        * intros Hlt. cbn [length] in *.
          replace (min + Z.of_nat (S (length segs)))
            with (min + 1 + Z.of_nat (length segs)) by lia.
          apply Hgap. lia.
      + exists []. split; [simpl; lia|].
        split; [intros i f Hi; discriminate|].
        intros _. simpl. rewrite Z.add_0_r. exact E. }
  destruct (H 9%nat 1) as (segs & Hlen & Hfiles & Hgap).
  exists segs. split; [exact Hlen|]. split; [exact Hfiles|exact Hgap].
Qed.

(** C6, amended: for a DVD image root whose marker subdirectory lacks the
    index file, the attribute query on the synthetic file fails with
    NotFound.  The open operation runs the scan again but not the
    index-file check: it does exactly what it would do with an index file
    in place (same return value, same handle, same descriptors), and it
    fails with NotFound exactly when the scan finds no titleset or, the
    handle being allocated, one of the segment files of the selected
    titleset cannot be opened; when the handle cannot be allocated it fails
    with out-of-memory, and otherwise it succeeds with a handle. *)
Theorem missing_index_file (w : world) (sourcepath path root : string) :
  resolve sourcepath path = Synthetic root ->
  lstat (w_fs w) (ifo_path root) = None ->
  dvdwrap_getattr (w_fs w) sourcepath path = (- ENOENT, stat_zero)
  /\ (forall ifo,
        dvdwrap_open (with_fs (<[ifo_path root := ifo]> (w_fs w)) w)
          sourcepath path
        = let '(w1, rc, fh) := dvdwrap_open w sourcepath path in
          (with_fs (<[ifo_path root := ifo]> (w_fs w)) w1, rc, fh))
  /\ (dvdwrap_scan_videots (w_fs w) root = None ->
      dvdwrap_open w sourcepath path = (w, - ENOENT, None))
  /\ (forall maj total,
        dvdwrap_scan_videots (w_fs w) root = Some (maj, total) ->
        exists segs,
          titleset_files (w_fs w) root maj segs
          /\ exists w1 private,
               dvdwrap_open w sourcepath path
               = if w_nomem w then (w, - ENOMEM, None)
                 else if forallb i_readable segs then (w1, 0, Some private)
                 else (w1, - ENOENT, None)).
Proof.
  intros Hres Hifo. split; [|split; [|split]].
  - unfold dvdwrap_getattr. rewrite Hres, Hifo. reflexivity.
  - intros ifo. apply (dvdwrap_open_agree _ _ _ _ root Hres).
    intros maj min _ _. symmetry. apply lookup_insert_ne.
    apply ifo_path_not_vob.
  - intros Hscan. unfold dvdwrap_open. rewrite Hres, Hscan. reflexivity.
  - intros maj total Hscan.
    destruct (titleset_files_exist (w_fs w) root maj) as [segs Hsegs].
    exists segs. split; [exact Hsegs|].
    destruct Hsegs as (Hlen & Hfiles & Hgap).
    unfold dvdwrap_open. rewrite Hres, Hscan.
    destruct (w_nomem w); [exists w, fh_zero; reflexivity|].
    rewrite nine_minors.
    pose proof (open_segments_flag root maj segs 9 1 w fh_zero Hlen Hfiles
                  Hgap) as Hflag.
    destruct (open_segments w root maj 9 1 fh_zero) as [[w1 private] ok].
    cbn [snd] in Hflag. rewrite <- Hflag.
    destruct ok.
    + exists w1, private. reflexivity.
    + exists (dvdwrap_release w1 private).1, private. reflexivity.
Qed.

Lemma missing_index_file_witness :
  dvdwrap_getattr (w_fs w_film_no_index) "/src" "/Film.mpg"
  = (- ENOENT, stat_zero)
  /\ (forall ifo,
        dvdwrap_open
          (with_fs (<[ifo_path "/src//Film" := ifo]> (w_fs w_film_no_index))
             w_film_no_index) "/src" "/Film.mpg"
        = let '(w1, rc, fh) :=
            dvdwrap_open w_film_no_index "/src" "/Film.mpg" in
          (with_fs (<[ifo_path "/src//Film" := ifo]> (w_fs w_film_no_index))
             w1, rc, fh))
  /\ (dvdwrap_scan_videots (w_fs w_film_no_index) "/src//Film" = None ->
      dvdwrap_open w_film_no_index "/src" "/Film.mpg"
      = (w_film_no_index, - ENOENT, None))
  /\ (forall maj total,
        dvdwrap_scan_videots (w_fs w_film_no_index) "/src//Film"
        = Some (maj, total) ->
        exists segs,
          titleset_files (w_fs w_film_no_index) "/src//Film" maj segs
          /\ exists w1 private,
               dvdwrap_open w_film_no_index "/src" "/Film.mpg"
               = if w_nomem w_film_no_index
                 then (w_film_no_index, - ENOMEM, None)
                 else if forallb i_readable segs then (w1, 0, Some private)
                 else (w1, - ENOENT, None)).
Proof.
  apply (missing_index_file w_film_no_index "/src" "/Film.mpg" "/src//Film").
  - vm_compute. reflexivity.
  - vm_compute. reflexivity.
Defined.

(** C4, as stated, fails: the leaf name [Film.mpg] is treated as a synthetic
    titleset file although [Film] is no numeral, and its attributes are those
    of the DVD image, not of a real path [/src//Film.mpg]. *)
Lemma non_numeric_leaf_is_synthetic :
  spec_synthetic_leaf "/Film.mpg" = false
  /\ spec_synthetic_leaf "/07.mpg" = true
  /\ resolve "/src" "/Film.mpg" = Synthetic "/src//Film"
  /\ dvdwrap_getattr fs_film "/src" "/Film.mpg" = (0, Stat 420 350).
Proof. vm_compute. auto. Qed.

(** C4, amended: a virtual path is treated as a synthetic file if and only
    if the path built from it ends with the suffix [".mpg"], whatever
    precedes the suffix, and the DVD image root is that path without the
    suffix; any other path is a passthrough entity: the attribute query
    uses the built path unmodified (clearing the write bits of the mode),
    and open fails with NotFound. *)
Theorem classification_by_suffix (sourcepath path : string) :
  (String.length FILE_EXTENSION
   <= String.length (sourcepath +:+ "/" +:+ path))%nat ->
  (forall root,
     resolve sourcepath path = Synthetic root <->
     sourcepath +:+ "/" +:+ path = root +:+ FILE_EXTENSION)
  /\ ((forall root, sourcepath +:+ "/" +:+ path <> root +:+ FILE_EXTENSION) ->
      resolve sourcepath path = Passthrough (sourcepath +:+ "/" +:+ path)
      /\ (forall fs,
            dvdwrap_getattr fs sourcepath path
            = match lstat fs (sourcepath +:+ "/" +:+ path) with
              | None => (- ENOENT, stat_zero)
              | Some st =>
                  (0, Stat (Z.land (st_mode st) (Z.lnot 146)) (st_size st))
              end)
      /\ (forall w, dvdwrap_open w sourcepath path = (w, - ENOENT, None))).
Proof.
  intros _. split.
  - intros root. apply resolve_Synthetic.
  - intros Hno. pose proof (resolve_Passthrough _ _ Hno) as Hres.
    split; [exact Hres|]. split.
    + intros fs. unfold dvdwrap_getattr. rewrite Hres. reflexivity.
    + intros w. unfold dvdwrap_open. rewrite Hres. reflexivity.
Qed.

Lemma classification_by_suffix_witness :
  (forall root,
     resolve "/src" "/Film.mpg" = Synthetic root <->
     "/src" +:+ "/" +:+ "/Film.mpg" = root +:+ FILE_EXTENSION)
  /\ ((forall root, "/src" +:+ "/" +:+ "/Film.mpg" <> root +:+ FILE_EXTENSION) ->
      resolve "/src" "/Film.mpg" = Passthrough ("/src" +:+ "/" +:+ "/Film.mpg")
      /\ (forall fs,
            dvdwrap_getattr fs "/src" "/Film.mpg"
            = match lstat fs ("/src" +:+ "/" +:+ "/Film.mpg") with
              | None => (- ENOENT, stat_zero)
              | Some st =>
                  (0, Stat (Z.land (st_mode st) (Z.lnot 146)) (st_size st))
              end)
      /\ (forall w, dvdwrap_open w "/src" "/Film.mpg" = (w, - ENOENT, None))).
Proof.
  apply (classification_by_suffix "/src" "/Film.mpg").
  vm_compute. lia.
Defined.

(** * Claims about read and release that need no open handle *)

(** C9: a read at an offset at or beyond the aggregate size returns 0, which
    is end-of-stream and no error; nothing is stored in the buffer and no
    descriptor is touched. *)
Theorem read_at_end_of_stream (w : world) (private : dvdwrap_fh_t)
    (buf : list Byte.byte) (size offset : Z) :
  0 <= total_size private ->
  total_size private <= offset -> offset <= OFF_MAX ->
  dvdwrap_read w private buf size offset = Returns (w, 0, buf).
Proof.
  intros Hnn Hge Hmax. unfold OFF_MAX in Hmax. unfold dvdwrap_read.
  rewrite u64_id by lia.
  destruct (Z.leb_spec (total_size private) offset); [reflexivity|lia].
Qed.

Lemma read_at_end_of_stream_witness :
  dvdwrap_read w_film_no_index fh_film [Byte.x00; Byte.x00] 2 350
  = Returns (w_film_no_index, 0, [Byte.x00; Byte.x00]).
Proof.
  apply (read_at_end_of_stream w_film_no_index fh_film); vm_compute;
    discriminate.
Defined.

(** C10: release returns [-ENOENT] whatever the handle and the state are,
    also when every [close] succeeded. *)
Theorem release_returns_enoent (w : world) (private : dvdwrap_fh_t) :
  (dvdwrap_release w private).2 = - ENOENT.
Proof. reflexivity. Qed.

(** * The descriptor table *)

Lemma fd_lookup_nonneg w fd d : fd_lookup w fd = Some d -> 0 <= fd.
Proof.
  unfold fd_lookup. destruct (Z.ltb_spec fd 0); [discriminate|]. intros _. lia.
Qed.

Lemma fd_lookup_lt w fd d :
  fd_lookup w fd = Some d -> (Z.to_nat fd < length (w_fds w))%nat.
Proof.
  unfold fd_lookup. destruct (fd <? 0); [discriminate|].
  destruct (w_fds w !! Z.to_nat fd) as [o|] eqn:E; [|discriminate].
  intros _. apply lookup_lt_Some in E. exact E.
Qed.

(** Storing a description in an open slot changes that slot only. *)
Lemma fd_lookup_store w fd d0 o fd' :
  fd_lookup w fd = Some d0 ->
  fd_lookup (World (w_fs w) (<[Z.to_nat fd := o]> (w_fds w))
                   (w_nomem w) (w_closed w)) fd'
  = if decide (fd' = fd) then o else fd_lookup w fd'.
Proof.
  intros H. pose proof (fd_lookup_nonneg _ _ _ H) as Hnn.
  pose proof (fd_lookup_lt _ _ _ H) as Hlt.
  unfold fd_lookup. simpl. destruct (decide (fd' = fd)) as [->|Hne].
  - destruct (Z.ltb_spec fd 0); [lia|].
    rewrite list_lookup_insert_eq by exact Hlt. reflexivity.
  - destruct (Z.ltb_spec fd' 0); [reflexivity|].
    rewrite list_lookup_insert_ne by lia. reflexivity.
Qed.

Lemma same_files_refl w : same_files w w.
Proof. repeat split. Qed.

Lemma same_files_trans w1 w2 w3 :
  same_files w1 w2 -> same_files w2 w3 -> same_files w1 w3.
Proof.
  intros (A1 & A2 & A3 & A4) (B1 & B2 & B3 & B4).
  split; [congruence|]. split; [congruence|]. split; [congruence|].
  intros fd. rewrite B4. apply A4.
Qed.

Lemma same_files_store w fd d pos :
  fd_lookup w fd = Some d ->
  same_files w (World (w_fs w)
                  (<[Z.to_nat fd := Some (Ofd (ofd_data d) pos)]> (w_fds w))
                  (w_nomem w) (w_closed w)).
Proof.
  intros H. split; [reflexivity|]. split; [reflexivity|].
  split; [reflexivity|]. intros fd'.
  rewrite (fd_lookup_store w fd d _ fd' H).
  destruct (decide (fd' = fd)) as [->|]; [|reflexivity].
  rewrite H. reflexivity.
Qed.

Lemma sys_lseek_same w fd off : same_files w (sys_lseek w fd off).2.
Proof.
  unfold sys_lseek. destruct (fd_lookup w fd) as [d|] eqn:E;
    [|apply same_files_refl].
  destruct (off <? 0); [apply same_files_refl|].
  apply same_files_store. exact E.
Qed.

Lemma sys_read_same w fd count : same_files w (sys_read w fd count).2.
Proof.
  unfold sys_read. destruct (fd_lookup w fd) as [d|] eqn:E;
    [|apply same_files_refl].
  apply same_files_store. exact E.
Qed.

(** A seek followed by a read on an open descriptor delivers the bytes of
    the file from the offset on. *)
Lemma seek_then_read w fd data pos (off count : nat) :
  fd_lookup w fd = Some (Ofd data pos) ->
  (sys_read (sys_lseek w fd (Z.of_nat off)).2 fd (Z.of_nat count)).1
  = (Z.of_nat (length (take count (drop off data))), take count (drop off data)).
Proof.
  intros H. unfold sys_lseek. rewrite H.
  destruct (Z.ltb_spec (Z.of_nat off) 0); [lia|]. simpl.
  unfold sys_read. rewrite (fd_lookup_store w fd _ _ fd H).
  destruct (decide (fd = fd)); [|congruence]. simpl.
  rewrite !Nat2Z.id. reflexivity.
Qed.

(** One iteration of the loop of [dvdwrap_read]. *)
Lemma read_loop_S fuel w private buf bufp size offset total :
  read_loop (S fuel) w private buf bufp size offset total
  = if total <? size then
      let thissize := i64 (u64 (size - total)) in
      let '(min, thisoffset) :=
        locate private (Z.to_nat (MAX_VTS_MIN - 1)) 1 offset in
      if min =? MAX_VTS_MIN then Returns (w, i32 total, buf)
      else
        let seg := vts_at private min in
        let room := u64 (vts_size seg - u64 thisoffset) in
        let thissize := if room <? u64 thissize then i64 room else thissize in
        let w1 := (sys_lseek w (vts_fd seg) thisoffset).2 in
        let '(n, chunk, w2) := sys_read w1 (vts_fd seg) (u64 thissize) in
        let buf1 := write_at bufp chunk buf in
        let rc := i32 n in
        if rc <? 0 then Returns (w2, rc, buf1)
        else read_loop fuel w2 private buf1 (bufp + rc) size
               (i64 (offset + rc)) (u64 (total + rc))
    else Returns (w, i32 total, buf).
Proof. reflexivity. Qed.

(** Once the loop returns, more fuel does not change what it returns. *)
Lemma read_loop_fuel private size fuel : forall fuel' w buf bufp offset total r,
  (fuel <= fuel')%nat ->
  read_loop fuel w private buf bufp size offset total = Returns r ->
  read_loop fuel' w private buf bufp size offset total = Returns r.
Proof.
  induction fuel as [|fuel IH]; intros fuel' w buf bufp offset total r Hle;
    [discriminate|].
  destruct fuel' as [|fuel']; [lia|].
  rewrite !read_loop_S. destruct (total <? size); [|auto].
  destruct (locate private _ 1 offset) as [min thisoffset].
  destruct (min =? MAX_VTS_MIN); [auto|]. cbv zeta.
  match goal with
  | |- context [sys_read ?w1 ?fd ?c] =>
      destruct (sys_read w1 fd c) as [[n chunk] w2]
  end.
  destruct (i32 n <? 0); [auto|]. apply IH. lia.
Qed.

(** The loop of [dvdwrap_read] moves file positions only, whatever its
    arguments are. *)
Lemma read_loop_same private size fuel : forall w buf bufp offset total w' rc buf',
  read_loop fuel w private buf bufp size offset total = Returns (w', rc, buf') ->
  same_files w w'.
Proof.
  induction fuel as [|fuel IH]; intros w buf bufp offset total w' rc buf';
    [discriminate|].
  rewrite read_loop_S. destruct (total <? size).
  - destruct (locate private _ 1 offset) as [min thisoffset].
    destruct (min =? MAX_VTS_MIN).
    + intros H. inversion H; subst. apply same_files_refl.
    + cbv zeta.
      match goal with
      | |- context [sys_read ?w1 ?fd ?c] =>
          pose proof (sys_read_same w1 fd c) as Hr;
          destruct (sys_read w1 fd c) as [[n chunk] w2]
      end.
      match type of Hr with
      | same_files (sys_lseek ?w0 ?fd ?o).2 _ =>
          pose proof (sys_lseek_same w0 fd o) as Hs
      end.
      cbn [snd] in Hr. pose proof (same_files_trans _ _ _ Hs Hr) as Hsr.
      destruct (i32 n <? 0).
      * intros H. inversion H; subst. exact Hsr.
      * intros H. apply IH in H. exact (same_files_trans _ _ _ Hsr H).
  - intros H. inversion H; subst. apply same_files_refl.
Qed.

Lemma dvdwrap_read_same w private buf size offset w' rc buf' :
  dvdwrap_read w private buf size offset = Returns (w', rc, buf') ->
  same_files w w'.
Proof.
  unfold dvdwrap_read. destruct (total_size private <=? u64 offset).
  - intros H. inversion H; subst. apply same_files_refl.
  - apply read_loop_same.
Qed.

(** * Reading through an open handle *)


Lemma handle_ok_same w w' private segs :
  handle_ok w private segs -> same_files w w' -> handle_ok w' private segs.
Proof.
  intros (Htot & Hlen & Hseg & Hzero) (_ & _ & _ & Hsame).
  split; [exact Htot|]. split; [exact Hlen|]. split; [|exact Hzero].
  intros i f Hi. destruct (Hseg i f Hi) as (fd & pos & Hv & Hfd).
  specialize (Hsame fd). rewrite Hfd in Hsame. simpl in Hsame.
  destruct (fd_lookup w' fd) as [[data' pos']|] eqn:E; [|discriminate].
  simpl in Hsame. inversion Hsame; subst.
  exists fd, pos'. split; [exact Hv|exact E].
Qed.

Lemma handle_ok_live w private segs :
  handle_ok w private segs -> handle_live w private segs.
Proof.
  intros (Htot & Hlen & Hseg & Hzero).
  split; [exact Htot|]. split; [exact Hlen|]. split; [|exact Hzero].
  intros i f Hi. destruct (Hseg i f Hi) as (fd & pos & Hv & Hfd).
  exists fd. split; [exact Hv|]. intros _. exists pos. exact Hfd.
Qed.

(** A descriptor of a slot among the first nine after slot 0, with a size
    that is not 0, is one the handle uses. *)
Lemma slot_fds_elem private i v :
  (i < 9)%nat -> vts private !! S i = Some v -> vts_size v <> 0 ->
  vts_fd v ∈ slot_fds private.
Proof.
  intros Hi Hv Hsz. unfold slot_fds, closed_slots.
  apply list_elem_of_fmap. exists v. split; [reflexivity|].
  apply list_elem_of_filter. split; [exact Hsz|].
  apply list_elem_of_lookup. exists i.
  rewrite lookup_take_lt by exact Hi. rewrite lookup_drop. exact Hv.
Qed.

Lemma slot_fds_inv private fd :
  fd ∈ slot_fds private ->
  exists i v, (i < 9)%nat /\ vts private !! S i = Some v
              /\ vts_size v <> 0 /\ vts_fd v = fd.
Proof.
  unfold slot_fds, closed_slots. intros H.
  apply list_elem_of_fmap in H. destruct H as (v & -> & H).
  apply list_elem_of_filter in H. destruct H as [Hsz H].
  apply list_elem_of_lookup in H. destruct H as [i H].
  apply lookup_take_Some in H. destruct H as [H Hi].
  rewrite lookup_drop in H. exists i, v. auto.
Qed.

Lemma keeps_refl private w : keeps private w w.
Proof. intros fd d pos _ H. exists pos. exact H. Qed.

Lemma keeps_trans private w1 w2 w3 :
  keeps private w1 w2 -> keeps private w2 w3 -> keeps private w1 w3.
Proof.
  intros H12 H23 fd d pos Hin H1.
  destruct (H12 fd d pos Hin H1) as [pos2 H2].
  exact (H23 fd d pos2 Hin H2).
Qed.

Lemma same_files_keeps private w w' : same_files w w' -> keeps private w w'.
Proof.
  intros (_ & _ & _ & Hsame) fd d pos _ Hfd.
  specialize (Hsame fd). rewrite Hfd in Hsame.
  destruct (fd_lookup w' fd) as [[d' pos']|]; [|discriminate].
  simpl in Hsame. inversion Hsame; subst. exists pos'. reflexivity.
Qed.

Lemma handle_live_keeps w w' private segs :
  handle_live w private segs -> keeps private w w' ->
  handle_live w' private segs.
Proof.
  intros (Htot & Hlen & Hseg & Hzero) Hkeep.
  split; [exact Htot|]. split; [exact Hlen|]. split; [|exact Hzero].
  intros i f Hi. destruct (Hseg i f Hi) as (fd & Hv & Hfd).
  exists fd. split; [exact Hv|]. intros Hne.
  destruct (Hfd Hne) as [pos Hpos].
  apply (Hkeep fd (i_data f) pos); [|exact Hpos].
  apply (slot_fds_elem private i (Vts fd (seg_size f))); auto.
  apply lookup_lt_Some in Hi. lia.
Qed.

Lemma handle_live_same w w' private segs :
  handle_live w private segs -> same_files w w' ->
  handle_live w' private segs.
Proof.
  intros H Hsame. apply (handle_live_keeps w); [exact H|].
  apply same_files_keeps. exact Hsame.
Qed.

Section Locate.

Variable private : dvdwrap_fh_t.

(** The search for the segment of an offset, over the slots from [min] on
    that hold the sizes of [segs] followed by zeros: an offset inside the
    files is found in its file, with the sizes of the files before it taken
    off; any other offset runs the loop to its end. *)
Lemma locate_segs segs : forall n min off,
  1 <= min ->
  (forall i f, segs !! i = Some f ->
     vts_size (vts_at private (min + Z.of_nat i)) = seg_size f) ->
  (forall i, (length segs <= i < n)%nat ->
     vts_size (vts_at private (min + Z.of_nat i)) = 0) ->
  (length segs <= n)%nat ->
  0 <= off <= OFF_MAX ->
  (off < sum_sizes segs ->
     exists k f,
       segs !! k = Some f
       /\ locate private n min off
          = (min + Z.of_nat k, off - sum_sizes (take k segs))
       /\ 0 <= off - sum_sizes (take k segs) < seg_size f)
  /\ (sum_sizes segs <= off ->
        locate private n min off = (min + Z.of_nat n, off - sum_sizes segs)).
Proof.
  unfold OFF_MAX.
  induction segs as [|f segs IH]; intros n min off Hmin Hsz Hzero Hlen Hoff.
  - split; [simpl; lia|]. intros _. simpl sum_sizes.
    clear Hsz Hlen. revert min off Hmin Hzero Hoff.
    induction n as [|n IHn]; intros min off Hmin Hzero Hoff.
    + simpl. f_equal; lia.
    + simpl. pose proof (Hzero 0%nat ltac:(simpl; lia)) as H0.
      rewrite Z.add_0_r in H0. rewrite H0.
      rewrite (u64_id off) by lia.
      destruct (Z.ltb_spec off 0); [lia|].
      rewrite Z.sub_0_r, (i64_id off) by lia.
      rewrite (IHn (min + 1) off); [f_equal; lia|lia| |lia].
      intros i Hi. replace (min + 1 + Z.of_nat i) with (min + Z.of_nat (S i)) by lia.
      apply Hzero. simpl in *. lia.
  - destruct n as [|n]; [simpl in Hlen; lia|].
    pose proof (Hsz 0%nat f eq_refl) as H0. rewrite Z.add_0_r in H0.
    pose proof (seg_size_nonneg f) as Hf.
    pose proof (sum_sizes_nonneg segs) as Hs.
    assert (Hsz' : forall i g, segs !! i = Some g ->
              vts_size (vts_at private (min + 1 + Z.of_nat i)) = seg_size g).
    { intros i g Hi.
      replace (min + 1 + Z.of_nat i) with (min + Z.of_nat (S i)) by lia.
      apply Hsz. exact Hi. }
    assert (Hzero' : forall i, (length segs <= i < n)%nat ->
              vts_size (vts_at private (min + 1 + Z.of_nat i)) = 0).
    { intros i Hi.
      replace (min + 1 + Z.of_nat i) with (min + Z.of_nat (S i)) by lia.
      apply Hzero. simpl. lia. }
    simpl in Hlen.
    simpl locate. rewrite H0, (u64_id off) by lia.
    destruct (Z.ltb_spec off (seg_size f)) as [Hin|Hout].
    + split; [|simpl; lia]. intros _. exists 0%nat, f.
      split; [reflexivity|]. simpl. split; [f_equal; lia|lia].
    + rewrite (i64_id (off - seg_size f)) by lia.
      destruct (IH n (min + 1) (off - seg_size f) ltac:(lia) Hsz' Hzero'
                  ltac:(lia) ltac:(lia)) as [IH1 IH2].
      split.
      * intros Hlt. simpl in Hlt.
        destruct (IH1 ltac:(lia)) as (k & g & Hk & Hloc & Hrange).
        exists (S k), g. split; [exact Hk|]. rewrite Hloc. simpl.
        split; [f_equal; lia|lia].
      * intros Hge. simpl in Hge. rewrite IH2 by lia. simpl. f_equal; lia.
Qed.

End Locate.

(** The slot sizes of a handle that is [handle_ok]. *)
Lemma handle_ok_sizes w private segs :
  handle_ok w private segs ->
  (forall i f, segs !! i = Some f ->
     vts_size (vts_at private (1 + Z.of_nat i)) = seg_size f)
  /\ (forall i, (length segs <= i)%nat ->
        vts_size (vts_at private (1 + Z.of_nat i)) = 0).
Proof.
  intros (_ & _ & Hseg & Hzero). split.
  - intros i f Hi. destruct (Hseg i f Hi) as (fd & pos & Hv & _).
    unfold vts_at. replace (Z.to_nat (1 + Z.of_nat i)) with (S i) by lia.
    rewrite Hv. reflexivity.
  - intros i Hi. unfold vts_at.
    replace (Z.to_nat (1 + Z.of_nat i)) with (S i) by lia.
    apply Hzero. lia.
Qed.

Lemma handle_live_sizes w private segs :
  handle_live w private segs ->
  (forall i f, segs !! i = Some f ->
     vts_size (vts_at private (1 + Z.of_nat i)) = seg_size f)
  /\ (forall i, (length segs <= i)%nat ->
        vts_size (vts_at private (1 + Z.of_nat i)) = 0).
Proof.
  intros (_ & _ & Hseg & Hzero). split.
  - intros i f Hi. destruct (Hseg i f Hi) as (fd & Hv & _).
    unfold vts_at. replace (Z.to_nat (1 + Z.of_nat i)) with (S i) by lia.
    rewrite Hv. reflexivity.
  - intros i Hi. unfold vts_at.
    replace (Z.to_nat (1 + Z.of_nat i)) with (S i) by lia.
    apply Hzero. lia.
Qed.

(** An interval of the titleset's bytes that lies within one segment file is
    the corresponding interval of that file. *)
Lemma titleset_bytes_within segs k f (o c : nat) :
  segs !! k = Some f ->
  (length (titleset_bytes (take k segs)) <= o)%nat ->
  (c <= length (i_data f) - (o - length (titleset_bytes (take k segs))))%nat ->
  take c (drop o (titleset_bytes segs))
  = take c (drop (o - length (titleset_bytes (take k segs))) (i_data f)).
Proof.
  intros Hk Hpre Hc.
  rewrite <- (take_drop_middle segs k f Hk) at 1.
  unfold titleset_bytes in *. rewrite fmap_app, concat_app. simpl.
  rewrite drop_app_ge by exact Hpre.
  destruct (decide (o - length (concat (i_data <$> take k segs))
                    <= length (i_data f))%nat) as [Hle|Hgt].
  - rewrite drop_app_le by exact Hle.
    rewrite take_app_le; [reflexivity|]. rewrite length_drop. lia.
  - assert (c = 0%nat) by lia. subst c. rewrite !take_0. reflexivity.
Qed.

Lemma take_add {A} (l : list A) (a b : nat) :
  take (a + b) l = take a l ++ take b (drop a l).
Proof.
  revert l. induction a as [|a IH]; intros [|x l]; simpl;
    rewrite ?take_nil; try reflexivity.
  rewrite IH. reflexivity.
Qed.

Lemma titleset_bytes_split segs k f :
  segs !! k = Some f ->
  (length (titleset_bytes (take k segs)) + length (i_data f)
   <= length (titleset_bytes segs))%nat.
Proof.
  intros Hk. rewrite <- (take_drop_middle segs k f Hk) at 2.
  unfold titleset_bytes. rewrite fmap_app, concat_app. simpl.
  rewrite !length_app. lia.
Qed.

Section ReadLoop.

Variable private : dvdwrap_fh_t.
Variable segs : list inode.
Variables size off0 : nat.

Hypothesis size_int : Z.of_nat size <= INT_MAX.
Hypothesis total_off : sum_sizes segs <= OFF_MAX.
Hypothesis plain_segs : Forall plain_file segs.

(** The loop entered with [total = t] bytes delivered, the offset advanced
    accordingly and [fuel] above the bytes still asked for: it returns
    [read_count], having stored the missing bytes of the titleset behind the
    first [t] bytes of the buffer and left the rest of the buffer alone. *)
Lemma read_loop_ok fuel : forall w buf t,
  handle_live w private segs ->
  (t <= size)%nat -> (off0 + t <= length (titleset_bytes segs))%nat ->
  length buf = size -> (size - t < fuel)%nat ->
  exists w',
    read_loop fuel w private buf (Z.of_nat t) (Z.of_nat size)
      (Z.of_nat (off0 + t)) (Z.of_nat t)
    = Returns (w', Z.of_nat (read_count segs size off0),
               take t buf
               ++ take (read_count segs size off0 - t)
                    (drop (off0 + t) (titleset_bytes segs))
               ++ drop (read_count segs size off0) buf).
Proof.
  unfold INT_MAX in size_int. unfold OFF_MAX in total_off.
  pose proof (sum_sizes_bytes segs plain_segs) as HT.
  induction fuel as [|fuel IH]; intros w buf t Hok Ht Hoff Hbuf Hfuel; [lia|].
  rewrite read_loop_S.
  destruct (Z.ltb_spec (Z.of_nat t) (Z.of_nat size)) as [Hlt|Hge].
  - destruct (handle_live_sizes _ _ _ Hok) as [Hsz Hzero].
    destruct Hok as (Htot & Hlen & Hseg & Hz).
    destruct (locate_segs private segs 9 1 (Z.of_nat (off0 + t)) ltac:(lia)
                Hsz ltac:(intros i Hi; apply Hzero; lia) Hlen
                ltac:(unfold OFF_MAX; lia)) as [Hin Hout].
    rewrite nine_minors.
    destruct (decide (off0 + t < length (titleset_bytes segs))%nat) as [Hless|Hend].
    + destruct (Hin ltac:(lia)) as (k & f & Hk & Hloc & Hrange).
      rewrite Hloc. clear Hin Hout.
      pose proof (lookup_lt_Some _ _ _ Hk) as Hklt.
      destruct (Z.eqb_spec (1 + Z.of_nat k) MAX_VTS_MIN) as [E|_];
        [unfold MAX_VTS_MIN in E; lia|].
      destruct (Hseg k f Hk) as (fd & Hv & Hfd0).
      destruct (Hfd0 ltac:(lia)) as [pos Hfd]. clear Hfd0.
      assert (Hat : vts_at private (1 + Z.of_nat k) = Vts fd (seg_size f)).
      { unfold vts_at. replace (Z.to_nat (1 + Z.of_nat k)) with (S k) by lia.
        rewrite Hv. reflexivity. }
      rewrite Hat. cbn [vts_fd vts_size]. cbv zeta.
      pose proof (sum_sizes_bytes (take k segs)
                    (Forall_take _ k _ plain_segs)) as HP.
      pose proof (titleset_bytes_split segs k f Hk) as Hsplit.
      set (P := length (titleset_bytes (take k segs))) in *.
      rewrite (plain_seg_size f (Forall_lookup_1 _ _ _ _ plain_segs Hk)) in *.
      set (o := (off0 + t - P)%nat).
      assert (Ho : Z.of_nat (off0 + t) - sum_sizes (take k segs) = Z.of_nat o)
        by (unfold o; lia).
      rewrite Ho in *.
      set (c := Nat.min (size - t) (length (i_data f) - o)).
      assert (Hc1 : (1 <= c)%nat) by (unfold c; lia).
      assert (Hthis :
        (if u64 (Z.of_nat (length (i_data f)) - u64 (Z.of_nat o))
            <? u64 (i64 (u64 (Z.of_nat size - Z.of_nat t)))
         then i64 (u64 (Z.of_nat (length (i_data f)) - u64 (Z.of_nat o)))
         else i64 (u64 (Z.of_nat size - Z.of_nat t))) = Z.of_nat c).
      { rewrite (u64_id (Z.of_nat o)) by lia.
        rewrite (u64_id (Z.of_nat (length (i_data f)) - Z.of_nat o)) by lia.
        rewrite (u64_id (Z.of_nat size - Z.of_nat t)) by lia.
        rewrite (i64_id (Z.of_nat size - Z.of_nat t)) by lia.
        rewrite (u64_id (Z.of_nat size - Z.of_nat t)) by lia.
        rewrite (i64_id (Z.of_nat (length (i_data f)) - Z.of_nat o)) by lia.
        destruct (Z.ltb_spec (Z.of_nat (length (i_data f)) - Z.of_nat o)
                    (Z.of_nat size - Z.of_nat t)); unfold c; lia. }
      rewrite Hthis. rewrite (u64_id (Z.of_nat c)) by lia.
      pose proof (seek_then_read w fd (i_data f) pos o c Hfd) as Hread.
      pose proof (sys_lseek_same w fd (Z.of_nat o)) as Hs1.
      pose proof (sys_read_same (sys_lseek w fd (Z.of_nat o)).2 fd (Z.of_nat c)) as Hs2.
      destruct (sys_read (sys_lseek w fd (Z.of_nat o)).2 fd (Z.of_nat c))
        as [[n chunk] w2].
      cbn [fst snd] in Hread, Hs2. inversion Hread as [[Hn Hchunk]]. clear Hread.
      assert (Hclen : length (take c (drop o (i_data f))) = c).
      { rewrite length_take, length_drop. unfold c. lia. }
      rewrite Hclen. rewrite i32_id by lia.
      destruct (Z.ltb_spec (Z.of_nat c) 0); [lia|].
      rewrite (i64_id (Z.of_nat (off0 + t) + Z.of_nat c)) by lia.
      rewrite (u64_id (Z.of_nat t + Z.of_nat c)) by lia.
      replace (Z.of_nat t + Z.of_nat c) with (Z.of_nat (t + c)) by lia.
      replace (Z.of_nat (off0 + t) + Z.of_nat c)
        with (Z.of_nat (off0 + (t + c))) by lia.
      assert (Hchunk' : take c (drop o (i_data f))
                        = take c (drop (off0 + t) (titleset_bytes segs))).
      { symmetry. apply (titleset_bytes_within segs k f (off0 + t) c Hk).
        - fold P. lia.
        - fold P. fold o. unfold c. lia. }
      assert (Hcn : (t + c <= read_count segs size off0)%nat).
      { unfold read_count, c. lia. }
      destruct (IH w2 (write_at (Z.of_nat t) (take c (drop o (i_data f))) buf)
                  (t + c)%nat) as [w' Hw'].
      * apply (handle_live_same w); [repeat split; assumption|].
        exact (same_files_trans _ _ _ Hs1 Hs2).
      * unfold c. lia.
      * unfold c. lia.
      * unfold write_at. rewrite !length_app, length_take, length_drop, Hclen. lia.
      * lia.
      * exists w'. rewrite Hw'. f_equal. f_equal.
        unfold write_at. rewrite Nat2Z.id, Hclen.
        rewrite take_app_ge by (rewrite length_take; lia).
        rewrite length_take, Hbuf.
        replace (t + c - Nat.min t size)%nat with c by lia.
        rewrite take_app_ge by lia. rewrite Hclen, Nat.sub_diag, take_0, app_nil_r.
        rewrite drop_app_ge by (rewrite length_take; lia).
        rewrite length_take, Hbuf.
        rewrite drop_app_ge by (rewrite Hclen; lia).
        rewrite Hclen, drop_drop.
        replace (t + c + (read_count segs size off0 - Nat.min t size - c))%nat
          with (read_count segs size off0) by lia.
        rewrite <- app_assoc. f_equal. rewrite app_assoc. f_equal.
        rewrite Hchunk'.
        replace (read_count segs size off0 - t)%nat
          with (c + (read_count segs size off0 - (t + c)))%nat by lia.
        rewrite take_add, drop_drop.
        replace (off0 + t + c)%nat with (off0 + (t + c))%nat by lia.
        reflexivity.
    + rewrite (Hout ltac:(lia)). clear Hin Hout.
      destruct (Z.eqb_spec (1 + Z.of_nat 9) MAX_VTS_MIN) as [_|N];
        [|exfalso; apply N; reflexivity].
      exists w. rewrite i32_id by lia.
      assert (Hn : read_count segs size off0 = t) by (unfold read_count; lia).
      rewrite Hn, Nat.sub_diag, take_0. simpl. rewrite take_drop. reflexivity.
  - exists w. rewrite i32_id by lia.
    assert (Hn : read_count segs size off0 = t) by (unfold read_count; lia).
    rewrite Hn, Nat.sub_diag, take_0. simpl. rewrite take_drop. reflexivity.
Qed.

End ReadLoop.

(** * What open leaves behind *)

(** The table slot a new description goes to was free, and no other slot
    changes. *)
Lemma fd_alloc_spec d : forall t i t',
  fd_alloc t d = (i, t') ->
  mjoin (t !! i) = None
  /\ forall j, mjoin (t' !! j) = if decide (j = i) then Some d else mjoin (t !! j).
Proof.
  induction t as [|[x|] t IH]; intros i t' H; simpl in H.
  - inversion H; subst. split; [reflexivity|].
    intros [|j]; simpl; [reflexivity|]. destruct (decide (S j = 0%nat)); [lia|].
    reflexivity.
  - destruct (fd_alloc t d) as [i0 t0] eqn:E. inversion H; subst.
    destruct (IH i0 t0 eq_refl) as [IH1 IH2]. split; [exact IH1|].
    intros [|j]; simpl.
    + destruct (decide (0%nat = S i0)); [lia|]. reflexivity.
    + rewrite IH2. destruct (decide (j = i0)), (decide (S j = S i0));
        try lia; reflexivity.
  - inversion H; subst. split; [reflexivity|].
    intros [|j]; simpl; [reflexivity|]. destruct (decide (S j = 0%nat)); [lia|].
    reflexivity.
Qed.

(** Every slot holds the size of its file and a descriptor that was free
    before and is now open on the file at position 0; the descriptors are
    pairwise distinct; the rest of the table is as it was. *)
Lemma open_files_spec segs : forall t slots t',
  open_files t segs = (slots, t') ->
  length slots = length segs
  /\ (forall i f, segs !! i = Some f ->
        exists fd : nat,
          slots !! i = Some (Vts (Z.of_nat fd) (seg_size f))
          /\ mjoin (t !! fd) = None
          /\ mjoin (t' !! fd) = Some (Ofd (i_data f) 0))
  /\ NoDup (vts_fd <$> slots)
  /\ (forall j : nat, Z.of_nat j ∉ vts_fd <$> slots ->
        mjoin (t' !! j) = mjoin (t !! j)).
Proof.
  induction segs as [|f segs IH]; intros t slots t' H; simpl in H.
  - inversion H; subst. split; [reflexivity|]. split; [intros i f Hi; discriminate|].
    split; [constructor|]. reflexivity.
  - destruct (fd_alloc t (Ofd (i_data f) 0)) as [i0 t1] eqn:Ea.
    destruct (open_files t1 segs) as [slots0 t0] eqn:Eo.
    inversion H; subst. clear H.
    destruct (fd_alloc_spec _ _ _ _ Ea) as [Hfree Hother].
    destruct (IH _ _ _ Eo) as (Hlen & Hslots & Hnd & Hrest).
    assert (Hnotin : Z.of_nat i0 ∉ vts_fd <$> slots0).
    { intros Hin. apply list_elem_of_fmap in Hin. destruct Hin as (v & Hv & Hin).
      apply list_elem_of_lookup in Hin. destruct Hin as (k & Hk).
      assert (Hklt : (k < length segs)%nat).
      { rewrite <- Hlen. eapply lookup_lt_Some. exact Hk. }
      destruct (lookup_lt_is_Some_2 segs k Hklt) as [g Hg].
      destruct (Hslots k g Hg) as (fd & Hs & Hf1 & _).
      rewrite Hk in Hs. inversion Hs; subst. simpl in Hv.
      apply Nat2Z.inj in Hv. subst fd.
      rewrite Hother in Hf1. destruct (decide (i0 = i0)); [discriminate|congruence]. }
    split; [simpl; congruence|]. split; [|split].
    + intros [|i] g Hi; simpl in Hi.
      * inversion Hi; subst. exists i0. split; [reflexivity|].
        split; [exact Hfree|]. rewrite (Hrest i0 Hnotin), Hother.
        destruct (decide (i0 = i0)); [reflexivity|congruence].
      * destruct (Hslots i g Hi) as (fd & Hs & Hf1 & Hf2).
        exists fd. split; [exact Hs|]. split; [|exact Hf2].
        rewrite Hother in Hf1. destruct (decide (fd = i0)); [discriminate|exact Hf1].
    + simpl. constructor; assumption.
    + intros j Hj. simpl in Hj. apply not_elem_of_cons in Hj as [Hj1 Hj2].
      rewrite (Hrest j Hj2), Hother.
      destruct (decide (j = i0)); [subst; congruence|reflexivity].
Qed.

Section OpenSegments.

Variable root : string.
Variable maj : Z.

(** The loop of [dvdwrap_open] over the files [segs] at the minor indices
    from [min] on, when it is not left through [goto fail]: the files are
    all opened, in order, and the slots from [min] on are filled in. *)
Lemma open_segments_ok segs : forall n min w private w' private',
  (length segs <= n)%nat ->
  (forall i f, segs !! i = Some f ->
     w_fs w !! vob_path root maj (min + Z.of_nat i) = Some f) ->
  ((length segs < n)%nat ->
     w_fs w !! vob_path root maj (min + Z.of_nat (length segs)) = None) ->
  0 <= min ->
  0 <= total_size private -> total_size private + sum_sizes segs < 2 ^ 64 ->
  open_segments w root maj n min private = (w', private', true) ->
  w' = World (w_fs w) (open_files (w_fds w) segs).2 (w_nomem w) (w_closed w)
  /\ private' = Fh (list_inserts (Z.to_nat min)
                      (open_files (w_fds w) segs).1 (vts private))
                   (total_size private + sum_sizes segs).
Proof.
  induction segs as [|f segs IH];
    intros n min w private w' private' Hlen Hfiles Hgap Hmin Htot Hsum Hopen.
  - assert (Hres : (w', private') = (w, private)).
    { destruct n as [|n]; simpl in Hopen; [congruence|].
      simpl in Hgap. rewrite Z.add_0_r in Hgap.
      rewrite (lstat_None _ _ (Hgap ltac:(lia))) in Hopen. congruence. }
    inversion Hres; subst. simpl. rewrite Z.add_0_r.
    destruct w, private; split; reflexivity.
  - destruct n as [|n]; [simpl in Hlen; lia|].
    pose proof (Hfiles 0%nat f eq_refl) as H0. rewrite Z.add_0_r in H0.
    pose proof (seg_size_nonneg f). pose proof (sum_sizes_nonneg segs).
    simpl in Hsum, Hlen, Hgap.
    simpl in Hopen. rewrite (lstat_Some _ _ _ H0) in Hopen.
    unfold sys_open in Hopen. rewrite H0 in Hopen.
    destruct (i_readable f); [|simpl in Hopen; discriminate].
    simpl open_files.
    destruct (fd_alloc (w_fds w) (Ofd (i_data f) 0)) as [i0 t1] eqn:Ea.
    destruct (Z.ltb_spec (Z.of_nat i0) 0); [lia|].
    cbn [st_size] in Hopen.
    rewrite (u64_id (seg_size f)), (u64_id (total_size private + seg_size f))
      in Hopen by lia.
    apply IH in Hopen; cbn [w_fs w_fds w_nomem w_closed vts total_size] in *;
      try lia.
    + destruct Hopen as [-> ->].
      destruct (open_files t1 segs) as [slots t'] eqn:Eo. cbn [fst snd].
      split; [reflexivity|]. f_equal; [|simpl; lia].
      replace (Z.to_nat (min + 1)) with (S (Z.to_nat min)) by lia.
      simpl. symmetry. apply list_insert_inserts_lt. lia.
    + intros i g Hi. specialize (Hfiles (S i) g Hi).
      replace (min + 1 + Z.of_nat i) with (min + Z.of_nat (S i)) by lia.
      exact Hfiles.
    + intros Hlt.
      replace (min + 1 + Z.of_nat (length segs))
        with (min + Z.of_nat (S (length segs))) by lia.
      apply Hgap. lia.
Qed.

End OpenSegments.

(** A successful [dvdwrap_open] on the titleset made of the files [segs]
    leaves a handle that is [handle_ok] for them, and a state that differs
    from the one before in the descriptors of the handle only, which were
    free before. *)
Lemma dvdwrap_open_ok w sourcepath path root maj total segs w1 private :
  resolve sourcepath path = Synthetic root ->
  dvdwrap_scan_videots (w_fs w) root = Some (maj, total) ->
  titleset_files (w_fs w) root maj segs ->
  sum_sizes segs < 2 ^ 64 ->
  dvdwrap_open w sourcepath path = (w1, 0, Some private) ->
  handle_ok w1 private segs
  /\ w1 = World (w_fs w) (open_files (w_fds w) segs).2 (w_nomem w) (w_closed w)
  /\ vts private = Vts 0 0 :: (open_files (w_fds w) segs).1
                   ++ replicate (9 - length segs) (Vts 0 0).
Proof.
  intros Hres Hscan (Hlen & Hfiles & Hgap) Hsum Hopen.
  unfold dvdwrap_open in Hopen. rewrite Hres, Hscan in Hopen.
  destruct (w_nomem w) eqn:Enm; [unfold ENOMEM in Hopen; discriminate|].
  rewrite nine_minors in Hopen.
  destruct (open_segments w root maj 9 1 fh_zero) as [[w1' private'] ok] eqn:Eo.
  destruct ok; [|unfold ENOENT in Hopen; discriminate].
  inversion Hopen; subst w1' private'. clear Hopen.
  apply (open_segments_ok root maj segs) in Eo; auto; try (simpl; lia).
  destruct Eo as [Hw1 Hp]. rewrite Enm in Hw1.
  destruct (open_files (w_fds w) segs) as [slots t'] eqn:Ef.
  destruct (open_files_spec _ _ _ _ Ef) as (Hsl & Hslots & Hnd & Hrest).
  cbn [fst snd] in *.
  assert (Hvts : vts private = Vts 0 0 :: slots ++ replicate (9 - length segs) (Vts 0 0)).
  { rewrite Hp. cbn [vts fh_zero].
    change (Z.to_nat MAX_VTS_MIN) with 10%nat. change (Z.to_nat 1) with 1%nat.
    change (replicate 10 (Vts 0 0)) with ([Vts 0 0] ++ replicate 9 (Vts 0 0)).
    change 1%nat with (length [Vts 0 0] + 0)%nat at 1.
    rewrite (list_inserts_app_r slots [Vts 0 0] (replicate 9 (Vts 0 0)) 0).
    cbn [app]. f_equal.
    replace 9%nat with (length segs + (9 - length segs))%nat at 1 by lia.
    rewrite replicate_add.
    rewrite list_inserts_0_r by (rewrite length_replicate; lia).
    reflexivity. }
  split; [|split; [exact Hw1|exact Hvts]].
  split; [rewrite Hp; simpl; lia|]. split; [exact Hlen|]. split.
  - intros i f Hi. destruct (Hslots i f Hi) as (fd & Hs & _ & Ht').
    exists (Z.of_nat fd), 0. split.
    + rewrite Hvts. simpl. rewrite lookup_app_l by (rewrite Hsl; eapply lookup_lt_Some; eauto).
      exact Hs.
    + rewrite Hw1. unfold fd_lookup. cbn [w_fds].
      destruct (Z.ltb_spec (Z.of_nat fd) 0); [lia|].
      rewrite Nat2Z.id. exact Ht'.
  - intros [|j] Hj; [lia|]. rewrite Hvts. simpl.
    rewrite lookup_app_r by lia.
    destruct (replicate (9 - length segs) (Vts 0 0) !! (j - length slots)%nat)
      as [v|] eqn:E; [|reflexivity].
    apply lookup_replicate in E. destruct E as [-> _]. reflexivity.
Qed.

(** * The byte-exact read *)

(** [close] leaves every other descriptor alone. *)
Lemma sys_close_other w fd fd0 :
  fd <> fd0 -> fd_lookup (sys_close w fd).2 fd0 = fd_lookup w fd0.
Proof.
  intros Hne. unfold sys_close.
  destruct (fd_lookup w fd) as [d|] eqn:E; [|reflexivity].
  cbn [snd]. unfold fd_lookup in *. cbn [w_fds].
  destruct (Z.ltb_spec fd 0); [discriminate|].
  destruct (Z.ltb_spec fd0 0); [reflexivity|].
  rewrite list_lookup_insert_ne by lia. reflexivity.
Qed.

(** The loop of [dvdwrap_release] leaves alone every descriptor that is not
    in a slot it closes. *)
Lemma release_segments_other private fd0 : forall n min w,
  (forall i, (i < n)%nat ->
     vts_size (vts_at private (min + Z.of_nat i)) <> 0 ->
     vts_fd (vts_at private (min + Z.of_nat i)) <> fd0) ->
  fd_lookup (release_segments w private n min) fd0 = fd_lookup w fd0.
Proof.
  induction n as [|n IH]; intros min w Hne; [reflexivity|].
  pose proof (Hne 0%nat ltac:(lia)) as H0. rewrite Z.add_0_r in H0.
  assert (Hne' : forall i, (i < n)%nat ->
            vts_size (vts_at private (min + 1 + Z.of_nat i)) <> 0 ->
            vts_fd (vts_at private (min + 1 + Z.of_nat i)) <> fd0).
  { intros i Hi.
    replace (min + 1 + Z.of_nat i) with (min + Z.of_nat (S i)) by lia.
    apply Hne. lia. }
  simpl. destruct (Z.eqb_spec (vts_size (vts_at private min)) 0) as [E|N].
  - apply IH. exact Hne'.
  - rewrite IH by exact Hne'. apply sys_close_other. apply H0. exact N.
Qed.

(** Release leaves alone every descriptor the handle does not use. *)
Lemma dvdwrap_release_other w private fd0 :
  fd0 ∉ slot_fds private ->
  fd_lookup (dvdwrap_release w private).1 fd0 = fd_lookup w fd0.
Proof.
  intros Hnot. unfold dvdwrap_release. cbn [fst]. rewrite nine_minors.
  apply release_segments_other. intros i Hi Hsz Hfd. apply Hnot.
  unfold vts_at in *. replace (Z.to_nat (1 + Z.of_nat i)) with (S i) in * by lia.
  destruct (vts private !! S i) as [v|] eqn:Ev;
    [|cbn [default vts_size] in Hsz; contradiction].
  cbn [default] in *. rewrite <- Hfd.
  apply (slot_fds_elem private i v); assumption.
Qed.

(** [open] leaves every open descriptor as it is, and the descriptor it
    returns was free. *)
Lemma sys_open_keeps w p fd o :
  fd_lookup w fd = Some o -> fd_lookup (sys_open w p).2 fd = Some o.
Proof.
  intros H. unfold sys_open. destruct (w_fs w !! p) as [ino|]; [|exact H].
  destruct (i_readable ino); [|exact H].
  destruct (fd_alloc (w_fds w) (Ofd (i_data ino) 0)) as [i t] eqn:Ea.
  destruct (fd_alloc_spec _ _ _ _ Ea) as [Hfree Hother].
  cbn [snd]. unfold fd_lookup in *. cbn [w_fds].
  destruct (Z.ltb_spec fd 0); [discriminate|].
  rewrite Hother. destruct (decide (Z.to_nat fd = i)) as [E|_]; [|exact H].
  subst i. rewrite Hfree in H. discriminate.
Qed.

Lemma sys_open_fresh w p :
  fd_lookup w (sys_open w p).1 = None.
Proof.
  unfold sys_open. destruct (w_fs w !! p) as [ino|]; [|reflexivity].
  destruct (i_readable ino); [|reflexivity].
  destruct (fd_alloc (w_fds w) (Ofd (i_data ino) 0)) as [i t] eqn:Ea.
  destruct (fd_alloc_spec _ _ _ _ Ea) as [Hfree _].
  cbn [fst]. unfold fd_lookup.
  destruct (Z.ltb_spec (Z.of_nat i) 0); [reflexivity|].
  rewrite Nat2Z.id. exact Hfree.
Qed.

(** The loop of [dvdwrap_open], started in a state that has every descriptor
    of [w0] still open: so has the state it leaves, and the slots it leaves
    with a size that is not 0 hold descriptors that are free in [w0], if the
    slots it started from do. *)
Lemma open_segments_keeps root maj w0 : forall n min w private,
  (forall fd o, fd_lookup w0 fd = Some o -> fd_lookup w fd = Some o) ->
  (forall j v, vts private !! j = Some v -> vts_size v <> 0 ->
     fd_lookup w0 (vts_fd v) = None) ->
  (forall fd o, fd_lookup w0 fd = Some o ->
     fd_lookup (open_segments w root maj n min private).1.1 fd = Some o)
  /\ (forall j v,
        vts (open_segments w root maj n min private).1.2 !! j = Some v ->
        vts_size v <> 0 -> fd_lookup w0 (vts_fd v) = None).
Proof.
  induction n as [|n IH]; intros min w private Hext Hfresh; [simpl; auto|].
  simpl open_segments.
  destruct (lstat (w_fs w) (vob_path root maj min)) as [st|]; [|simpl; auto].
  pose proof (sys_open_fresh w (vob_path root maj min)) as Hnew.
  assert (Hext1 : forall fd o, fd_lookup w0 fd = Some o ->
            fd_lookup (sys_open w (vob_path root maj min)).2 fd = Some o).
  { intros fd o H. apply sys_open_keeps. apply Hext. exact H. }
  destruct (sys_open w (vob_path root maj min)) as [fd w1].
  cbn [fst snd] in *.
  assert (Hfd0 : fd_lookup w0 fd = None).
  { destruct (fd_lookup w0 fd) as [o|] eqn:E; [|reflexivity].
    rewrite (Hext fd o E) in Hnew. discriminate. }
  assert (Hins : forall sz j v,
            <[Z.to_nat min := Vts fd sz]> (vts private) !! j = Some v ->
            vts_size v <> 0 -> fd_lookup w0 (vts_fd v) = None).
  { intros sz j v Hj Hsz. apply list_lookup_insert_Some in Hj.
    destruct Hj as [(_ & <- & _)|(_ & Hj)]; [exact Hfd0|].
    exact (Hfresh j v Hj Hsz). }
  destruct (fd <? 0).
  - cbn [fst snd vts]. split; [exact Hext1|]. apply Hins.
  - apply IH; [exact Hext1|]. cbn [vts]. apply Hins.
Qed.

(** Whatever its result, [dvdwrap_open] leaves every descriptor that was
    open as it was. *)
Lemma dvdwrap_open_keeps w sourcepath path fd o :
  fd_lookup w fd = Some o ->
  fd_lookup (dvdwrap_open w sourcepath path).1.1 fd = Some o.
Proof.
  intros H. unfold dvdwrap_open.
  destruct (resolve sourcepath path) as [root|]; [|exact H].
  destruct (dvdwrap_scan_videots (w_fs w) root) as [[maj total]|]; [|exact H].
  destruct (w_nomem w); [exact H|].
  rewrite nine_minors.
  destruct (open_segments_keeps root maj w 9 1 w fh_zero) as [Hk Hf].
  { auto. }
  { intros j v Hj Hsz. exfalso. apply Hsz. unfold fh_zero in Hj. cbn [vts] in Hj.
    apply lookup_replicate in Hj. destruct Hj as [-> _]. reflexivity. }
  destruct (open_segments w root maj 9 1 fh_zero) as [[w1 private] ok].
  cbn [fst snd] in *. destruct ok; cbn [fst]; [exact (Hk fd o H)|].
  rewrite dvdwrap_release_other; [exact (Hk fd o H)|].
  intros Hin. apply slot_fds_inv in Hin.
  destruct Hin as (i & v & _ & Hv & Hsz & Hfd).
  rewrite <- Hfd in H. rewrite (Hf (S i) v Hv Hsz) in H. discriminate.
Qed.

(** A handle opened while the descriptors of [private] are open uses none
    of them: such a handle can be released within a session of [private]. *)
Lemma opened_later_disjoint private w sourcepath path w' other :
  (forall fd, fd ∈ slot_fds private -> is_Some (fd_lookup w fd)) ->
  dvdwrap_open w sourcepath path = (w', 0, Some other) ->
  forall fd, fd ∈ slot_fds other -> fd ∉ slot_fds private.
Proof.
  intros Hopen H fd Hin Hin'. unfold dvdwrap_open in H.
  destruct (resolve sourcepath path) as [root|];
    [|unfold ENOENT in H; discriminate].
  destruct (dvdwrap_scan_videots (w_fs w) root) as [[maj total]|];
    [|unfold ENOENT in H; discriminate].
  destruct (w_nomem w); [unfold ENOMEM in H; discriminate|].
  rewrite nine_minors in H.
  destruct (open_segments_keeps root maj w 9 1 w fh_zero) as [_ Hf].
  { auto. }
  { intros j v Hj Hsz. exfalso. apply Hsz. unfold fh_zero in Hj. cbn [vts] in Hj.
    apply lookup_replicate in Hj. destruct Hj as [-> _]. reflexivity. }
  destruct (open_segments w root maj 9 1 fh_zero) as [[w1 private'] ok].
  cbn [fst snd] in *. destruct ok; [|unfold ENOENT in H; discriminate].
  inversion H; subst. clear H.
  apply slot_fds_inv in Hin. destruct Hin as (i & v & _ & Hv & Hsz & Hfd).
  destruct (Hopen fd Hin') as [o Ho].
  rewrite <- Hfd in Ho. rewrite (Hf (S i) v Hv Hsz) in Ho. discriminate.
Qed.

(** Throughout a session the handle keeps its descriptors, open on the same
    contents. *)
Lemma session_keeps private w w' : session private w w' -> keeps private w w'.
Proof.
  induction 1 as [|w1 other buf size offset w2 rc buf' _ IH Hread
                  |w1 sourcepath path w2 rc other _ IH Hopen
                  |w1 other w2 rc _ IH Hdisj Hrel].
  - apply keeps_refl.
  - apply (keeps_trans _ _ _ _ IH). apply same_files_keeps.
    exact (dvdwrap_read_same _ _ _ _ _ _ _ _ Hread).
  - apply (keeps_trans _ _ _ _ IH). intros fd d pos _ Hfd. exists pos.
    pose proof (dvdwrap_open_keeps w1 sourcepath path fd _ Hfd) as Hk.
    rewrite Hopen in Hk. exact Hk.
  - apply (keeps_trans _ _ _ _ IH). intros fd d pos Hin Hfd. exists pos.
    pose proof (dvdwrap_release_other w1 other fd) as Hk.
    rewrite Hrel in Hk. cbn [fst] in Hk. rewrite Hk; [exact Hfd|].
    intros Hin'. exact (Hdisj fd Hin' Hin).
Qed.

(** Reading through a handle that is [handle_live]. *)
Lemma dvdwrap_read_ok w private segs buf size offset :
  handle_live w private segs ->
  Forall plain_file segs ->
  sum_sizes segs <= OFF_MAX ->
  0 <= offset <= OFF_MAX -> 0 <= size <= INT_MAX ->
  length buf = Z.to_nat size ->
  let n := Z.min size (Z.max 0 (sum_sizes segs - offset)) in
  exists w',
    dvdwrap_read w private buf size offset
    = Returns (w', n,
               take (Z.to_nat n) (drop (Z.to_nat offset) (titleset_bytes segs))
               ++ drop (Z.to_nat n) buf).
Proof.
  intros Hok Hplain HT Hoff Hsize Hbuf n.
  pose proof (sum_sizes_bytes segs Hplain) as HB.
  pose proof Hok as (Htot & _).
  unfold dvdwrap_read. unfold OFF_MAX in *. rewrite (u64_id offset) by lia.
  rewrite Htot.
  destruct (Z.leb_spec (sum_sizes segs) offset) as [Hend|Hin].
  - exists w. assert (Hn : n = 0) by (unfold n; lia). rewrite Hn.
    simpl. rewrite drop_0. reflexivity.
  - destruct (read_loop_ok private segs (Z.to_nat size) (Z.to_nat offset)
                ltac:(lia) ltac:(unfold OFF_MAX; lia) Hplain
                (S (Z.to_nat size)) w buf 0%nat Hok
                ltac:(lia) ltac:(lia) Hbuf ltac:(lia)) as [w' Hw'].
    rewrite Nat.add_0_r, !Z2Nat.id in Hw' by lia.
    change (Z.of_nat 0) with 0 in Hw'.
    exists w'. rewrite Hw'.
    assert (Hn : Z.of_nat (read_count segs (Z.to_nat size) (Z.to_nat offset)) = n).
    { unfold read_count, n. lia. }
    rewrite <- Hn, Nat2Z.id, Nat.sub_0_r. reflexivity.
Qed.

(** X20: after a successful open of the synthetic file whose titleset is
    made of the segment files [segs], and these being files whose [lstat]
    size is the length of their contents (regular files, not symbolic
    links), every read of [size] bytes at [offset] (whatever reads came
    before on the handle) returns and delivers exactly the bytes of the
    concatenation of the segment files, in the order of their minor
    indices, from [offset] on: [size] bytes when
    [offset + size] is within the aggregate size, the bytes up to the
    aggregate end when it is not, across any number of segment boundaries.
    The returned count is the number of bytes stored at the start of the
    buffer, and the rest of the buffer is left alone. *)
Theorem read_is_concatenation (w : world) (sourcepath path root : string)
    (maj total : Z) (segs : list inode) (w1 : world) (private : dvdwrap_fh_t)
    (w2 : world) (buf : list Byte.byte) (size offset : Z) :
  resolve sourcepath path = Synthetic root ->
  dvdwrap_scan_videots (w_fs w) root = Some (maj, total) ->
  titleset_files (w_fs w) root maj segs ->
  Forall plain_file segs ->
  sum_sizes segs <= OFF_MAX ->
  dvdwrap_open w sourcepath path = (w1, 0, Some private) ->
  session private w1 w2 ->
  0 <= offset <= OFF_MAX -> 0 <= size <= INT_MAX ->
  length buf = Z.to_nat size ->
  let n := Z.min size (Z.max 0 (sum_sizes segs - offset)) in
  total_size private = sum_sizes segs
  /\ exists w3,
       dvdwrap_read w2 private buf size offset
       = Returns (w3, n,
                  take (Z.to_nat n)
                    (drop (Z.to_nat offset) (titleset_bytes segs))
                  ++ drop (Z.to_nat n) buf).
Proof.
  intros Hres Hscan Hfiles Hplain HT Hopen Hsess Hoff Hsize Hbuf n.
  destruct (dvdwrap_open_ok _ _ _ _ _ _ _ _ _ Hres Hscan Hfiles
              ltac:(unfold OFF_MAX in HT; lia) Hopen) as (Hok & _).
  split; [apply Hok|].
  apply dvdwrap_read_ok; try assumption.
  apply (handle_live_keeps w1); [exact (handle_ok_live _ _ _ Hok)|].
  apply session_keeps. exact Hsess.
Qed.

(** The example of the specification: a read of 200 bytes at offset 250 of
    the 350-byte aggregate delivers the last 50 bytes of segment 2 followed
    by the 50 bytes of segment 3.  Here the image is opened while another
    handle on it is open; before the read the other handle is released and
    the image is opened a third time, which takes the released
    descriptors. *)
Lemma read_is_concatenation_witness :
  total_size fh_film_second = 350
  /\ exists w3,
       dvdwrap_read
         (dvdwrap_open
            (dvdwrap_release
               (dvdwrap_open w_film_busy "/src" "/Film.mpg").1.1 fh_film).1
            "/src" "/Film.mpg").1.1
         fh_film_second (replicate 200 Byte.x00) 200 250
       = Returns (w3, 100,
                  (replicate 50 Byte.x42 ++ replicate 50 Byte.x43)
                  ++ replicate 100 Byte.x00).
Proof.
  apply (read_is_concatenation w_film_busy "/src" "/Film.mpg" "/src//Film" 1
           350 film_segments
           (dvdwrap_open w_film_busy "/src" "/Film.mpg").1.1 fh_film_second
           (dvdwrap_open
              (dvdwrap_release
                 (dvdwrap_open w_film_busy "/src" "/Film.mpg").1.1 fh_film).1
              "/src" "/Film.mpg").1.1
           (replicate 200 Byte.x00) 200 250).
  - vm_compute. reflexivity.
  - vm_compute. reflexivity.
  - exact film_titleset.
  - repeat constructor.
  - vm_compute. discriminate.
  - vm_compute. reflexivity.
  - eapply (session_open _ _ _ "/src" "/Film.mpg" _ 0 (Some fh_film)).
    + eapply (session_release _ _ _ fh_film _ (- ENOENT)).
      * apply session_opened.
      * intros fd H1 H2.
        assert (D : bool_decide
                      (Forall (fun fd : Z =>
                                 bool_decide (fd ∈ slot_fds fh_film_second)
                                 = false)
                         (slot_fds fh_film)) = true)
          by (vm_compute; reflexivity).
        apply bool_decide_eq_true in D.
        pose proof (proj1 (Forall_forall _ _) D fd H1) as H.
        cbv beta in H. apply bool_decide_eq_false in H. exact (H H2).
      * vm_compute. reflexivity.
    + vm_compute. reflexivity.
  - vm_compute. split; discriminate.
  - vm_compute. split; discriminate.
  - vm_compute. reflexivity.
Defined.

(** * What release closes *)

(** The loop of [dvdwrap_release] over the slots from [min] on, which hold
    [slots] followed by slots of size 0. *)
Lemma release_segments_slots private slots : forall n min w,
  0 <= min ->
  (forall i v, slots !! i = Some v ->
     vts_at private (min + Z.of_nat i) = v) ->
  (forall i, (length slots <= i < n)%nat ->
     vts_size (vts_at private (min + Z.of_nat i)) = 0) ->
  (length slots <= n)%nat ->
  release_segments w private n min = close_slots w slots.
Proof.
  induction slots as [|v slots IH]; intros n min w Hmin Hat Hzero Hlen.
  - simpl. clear Hat Hlen. revert min w Hmin Hzero.
    induction n as [|n IHn]; intros min w Hmin Hzero; [reflexivity|].
    simpl. pose proof (Hzero 0%nat ltac:(simpl; lia)) as H0.
    rewrite Z.add_0_r in H0. rewrite H0. simpl.
    apply IHn; [lia|]. intros i Hi.
    replace (min + 1 + Z.of_nat i) with (min + Z.of_nat (S i)) by lia.
    apply Hzero. simpl in *. lia.
  - destruct n as [|n]; [simpl in Hlen; lia|].
    pose proof (Hat 0%nat v eq_refl) as H0. rewrite Z.add_0_r in H0.
    simpl in Hlen.
    assert (Hat' : forall i v', slots !! i = Some v' ->
              vts_at private (min + 1 + Z.of_nat i) = v').
    { intros i v' Hi.
      replace (min + 1 + Z.of_nat i) with (min + Z.of_nat (S i)) by lia.
      apply Hat. exact Hi. }
    assert (Hzero' : forall i, (length slots <= i < n)%nat ->
              vts_size (vts_at private (min + 1 + Z.of_nat i)) = 0).
    { intros i Hi.
      replace (min + 1 + Z.of_nat i) with (min + Z.of_nat (S i)) by lia.
      apply Hzero. simpl. lia. }
    simpl. rewrite H0.
    destruct (vts_size v =? 0); apply IH; auto; lia.
Qed.

(** Closing slots with pairwise distinct, open descriptors: the trace of
    [close] grows by the descriptors of the slots of non-zero size, in order,
    and exactly these descriptors are no longer open. *)
Lemma close_slots_spec slots : forall w,
  NoDup (vts_fd <$> slots) ->
  (forall v, v ∈ slots -> is_Some (fd_lookup w (vts_fd v))) ->
  w_closed (close_slots w slots)
  = w_closed w ++ (vts_fd <$> closed_slots slots)
  /\ forall fd,
       fd_lookup (close_slots w slots) fd
       = if decide (fd ∈ vts_fd <$> closed_slots slots) then None
         else fd_lookup w fd.
Proof.
  unfold closed_slots.
  induction slots as [|v slots IH]; intros w Hnd Hopen.
  - simpl. rewrite app_nil_r. split; [reflexivity|]. intros fd.
    destruct (decide (fd ∈ [])) as [Hin|]; [|reflexivity].
    apply elem_of_nil in Hin. contradiction.
  - rewrite fmap_cons in Hnd. apply NoDup_cons in Hnd as [Hnotin Hnd].
    assert (Hopen' : forall v', v' ∈ slots -> is_Some (fd_lookup w (vts_fd v'))).
    { intros v' Hv'. apply Hopen. apply elem_of_cons. right. exact Hv'. }
    simpl. rewrite filter_cons.
    destruct (Z.eqb_spec (vts_size v) 0) as [E0|N0].
    + destruct (decide (vts_size v <> 0)); [contradiction|].
      apply IH; assumption.
    + destruct (decide (vts_size v <> 0)); [|contradiction].
      destruct (Hopen v ltac:(apply elem_of_cons; left; reflexivity)) as [d Hd].
      unfold sys_close. rewrite Hd. cbn [snd].
      match goal with
      | |- context [close_slots ?w0 slots] => set (w' := w0)
      end.
      assert (Hw' : forall fd, fd_lookup w' fd
                = if decide (fd = vts_fd v) then None else fd_lookup w fd).
      { intros fd. unfold w'.
        pose proof (fd_lookup_store w (vts_fd v) d None fd Hd) as Hs.
        cbn [w_fs w_nomem] in Hs. 
        unfold fd_lookup in *. cbn [w_fds] in *. exact Hs. }
      destruct (IH w' Hnd) as [IH1 IH2].
      { intros v' Hv'. rewrite Hw'.
        destruct (decide (vts_fd v' = vts_fd v)) as [E|_]; [|apply Hopen'; exact Hv'].
        exfalso. apply Hnotin. rewrite <- E. apply list_elem_of_fmap.
        exists v'. split; [reflexivity|exact Hv']. }
      split.
      * rewrite IH1. unfold w'. cbn [w_closed]. rewrite fmap_cons.
        rewrite <- app_assoc. reflexivity.
      * intros fd. rewrite IH2, Hw', fmap_cons.
        destruct (decide (fd ∈ vts_fd <$> filter (fun v0 => vts_size v0 <> 0) slots))
          as [Hin|Hout].
        -- destruct (decide (fd ∈ vts_fd v :: (vts_fd <$> filter (fun v0 => vts_size v0 <> 0) slots)))
             as [_|Hc]; [reflexivity|].
           exfalso. apply Hc. apply elem_of_cons. right. exact Hin.
        -- destruct (decide (fd = vts_fd v)) as [->|Hne].
           ++ destruct (decide (vts_fd v ∈ vts_fd v :: (vts_fd <$> filter (fun v0 => vts_size v0 <> 0) slots)))
                as [_|Hc]; [reflexivity|].
              exfalso. apply Hc. apply elem_of_cons. left. reflexivity.
           ++ destruct (decide (fd ∈ vts_fd v :: (vts_fd <$> filter (fun v0 => vts_size v0 <> 0) slots)))
                as [Hc|_]; [|reflexivity].
              apply elem_of_cons in Hc as [Hc|Hc]; contradiction.
Qed.

(** Release after a successful open: the descriptors the open took were
    free before and are pairwise distinct; release passes to [close], once
    each and in order, those that belong to a segment of non-zero size, and
    these are the descriptors that are no longer open afterwards. *)
Lemma release_after_open w sourcepath path root maj total segs w1 private :
  resolve sourcepath path = Synthetic root ->
  dvdwrap_scan_videots (w_fs w) root = Some (maj, total) ->
  titleset_files (w_fs w) root maj segs ->
  sum_sizes segs < 2 ^ 64 ->
  dvdwrap_open w sourcepath path = (w1, 0, Some private) ->
  let slots := (open_files (w_fds w) segs).1 in
  let w2 := (dvdwrap_release w1 private).1 in
  NoDup (vts_fd <$> slots)
  /\ (forall v, v ∈ slots ->
        fd_lookup w (vts_fd v) = None /\ is_Some (fd_lookup w1 (vts_fd v)))
  /\ (forall fd, fd ∉ vts_fd <$> slots -> fd_lookup w1 fd = fd_lookup w fd)
  /\ w_closed w2 = w_closed w ++ (vts_fd <$> closed_slots slots)
  /\ (forall fd,
        fd_lookup w2 fd
        = if decide (fd ∈ vts_fd <$> closed_slots slots) then None
          else fd_lookup w1 fd).
Proof.
  intros Hres Hscan Hfiles Hsum Hopen slots w2.
  destruct (dvdwrap_open_ok _ _ _ _ _ _ _ _ _ Hres Hscan Hfiles Hsum Hopen)
    as (Hok & Hw1 & Hvts).
  destruct Hfiles as (Hlen & _).
  destruct (open_files (w_fds w) segs) as [slots0 t'] eqn:Ef.
  destruct (open_files_spec _ _ _ _ Ef) as (Hsl & Hslots & Hnd & Hrest).
  cbn [fst snd] in *. subst slots.
  assert (Hlook1 : forall fd : nat, fd_lookup w1 (Z.of_nat fd) = mjoin (t' !! fd)).
  { intros fd. rewrite Hw1. unfold fd_lookup. cbn [w_fds].
    destruct (Z.ltb_spec (Z.of_nat fd) 0); [lia|]. rewrite Nat2Z.id. reflexivity. }
  assert (Hlook0 : forall fd : nat, fd_lookup w (Z.of_nat fd) = mjoin (w_fds w !! fd)).
  { intros fd. unfold fd_lookup.
    destruct (Z.ltb_spec (Z.of_nat fd) 0); [lia|]. rewrite Nat2Z.id. reflexivity. }
  assert (Hfresh : forall v, v ∈ slots0 ->
            fd_lookup w (vts_fd v) = None /\ is_Some (fd_lookup w1 (vts_fd v))).
  { intros v Hv. apply list_elem_of_lookup in Hv. destruct Hv as (k & Hk).
    assert (Hklt : (k < length segs)%nat).
    { rewrite <- Hsl. eapply lookup_lt_Some. exact Hk. }
    destruct (lookup_lt_is_Some_2 segs k Hklt) as [f Hf].
    destruct (Hslots k f Hf) as (fd & Hs & Hf1 & Hf2).
    rewrite Hk in Hs. inversion Hs; subst. cbn [vts_fd].
    rewrite Hlook0, Hlook1, Hf1, Hf2. split; [reflexivity|eexists; reflexivity]. }
  assert (Hrel : w2 = close_slots w1 slots0).
  { unfold w2, dvdwrap_release. cbn [fst]. rewrite nine_minors.
    apply release_segments_slots; [lia| | |lia].
    - intros i v Hi. unfold vts_at.
      replace (Z.to_nat (1 + Z.of_nat i)) with (S i) by lia.
      rewrite Hvts. simpl.
      rewrite lookup_app_l by (eapply lookup_lt_Some; eauto).
      rewrite Hi. reflexivity.
    - intros i Hi. unfold vts_at.
      replace (Z.to_nat (1 + Z.of_nat i)) with (S i) by lia.
      rewrite Hvts. simpl. rewrite lookup_app_r by lia.
      destruct (replicate (9 - length segs) (Vts 0 0) !! (i - length slots0)%nat)
        as [v|] eqn:E; [|reflexivity].
      apply lookup_replicate in E. destruct E as [-> _]. reflexivity. }
  destruct (close_slots_spec slots0 w1 Hnd) as [Hc1 Hc2].
  { intros v Hv. apply Hfresh. exact Hv. }
  split; [exact Hnd|]. split; [exact Hfresh|]. split; [|split].
  - intros fd Hfd. unfold fd_lookup at 1 2. rewrite Hw1. cbn [w_fds].
    destruct (Z.ltb_spec fd 0); [reflexivity|].
    apply Hrest. rewrite Z2Nat.id by lia. exact Hfd.
  - rewrite Hrel, Hc1, Hw1. reflexivity.
  - intros fd. rewrite Hrel. apply Hc2.
Qed.

Lemma filter_all {A} (P : A -> Prop) `{forall x, Decision (P x)} (l : list A) :
  Forall P l -> filter P l = l.
Proof.
  induction 1 as [|x l Hx _ IH]; [reflexivity|].
  rewrite filter_cons_True by exact Hx. rewrite IH. reflexivity.
Qed.

(** When no segment file is empty, release undoes what open did to the
    descriptor table: each descriptor of the handle is closed exactly once
    and every descriptor is as it was before the open. *)
Lemma release_closes_non_empty w sourcepath path root maj total segs w1 private :
  resolve sourcepath path = Synthetic root ->
  dvdwrap_scan_videots (w_fs w) root = Some (maj, total) ->
  titleset_files (w_fs w) root maj segs ->
  sum_sizes segs < 2 ^ 64 ->
  dvdwrap_open w sourcepath path = (w1, 0, Some private) ->
  Forall (fun f => seg_size f <> 0) segs ->
  let fds := vts_fd <$> (open_files (w_fds w) segs).1 in
  let w2 := (dvdwrap_release w1 private).1 in
  NoDup fds /\ length fds = length segs
  /\ w_closed w2 = w_closed w ++ fds
  /\ forall fd, fd_lookup w2 fd = fd_lookup w fd.
Proof.
  intros Hres Hscan Hfiles Hsum Hopen Hne fds w2.
  destruct (release_after_open _ _ _ _ _ _ _ _ _ Hres Hscan Hfiles Hsum Hopen)
    as (Hnd & Hfresh & Hrest & Hclosed & Hlook).
  fold w2 in Hclosed, Hlook.
  destruct (open_files (w_fds w) segs) as [slots t'] eqn:Ef.
  destruct (open_files_spec _ _ _ _ Ef) as (Hsl & Hslots & _ & _).
  cbn [fst snd] in *. subst fds.
  assert (Hall : closed_slots slots = slots).
  { unfold closed_slots. apply filter_all. apply Forall_forall. intros v Hv.
    apply list_elem_of_lookup in Hv. destruct Hv as (k & Hk).
    assert (Hklt : (k < length segs)%nat).
    { rewrite <- Hsl. eapply lookup_lt_Some. exact Hk. }
    destruct (lookup_lt_is_Some_2 segs k Hklt) as [f Hf].
    destruct (Hslots k f Hf) as (fd & Hs & _).
    rewrite Hk in Hs. inversion Hs; subst. cbn [vts_size].
    rewrite Forall_forall in Hne. apply Hne.
    apply list_elem_of_lookup. exists k. exact Hf. }
  rewrite Hall in *.
  split; [exact Hnd|]. split; [rewrite length_fmap; exact Hsl|].
  split; [exact Hclosed|].
  intros fd. rewrite Hlook.
  destruct (decide (fd ∈ vts_fd <$> slots)) as [Hin|Hout].
  - apply list_elem_of_fmap in Hin. destruct Hin as (v & -> & Hv).
    symmetry. apply Hfresh. exact Hv.
  - apply Hrest. exact Hout.
Qed.

(** * The descriptors release leaves open *)

(** C7 does not hold of the code.  With an empty second segment file, open
    succeeds with the descriptors 3 and 4, and release passes only 3 to
    [close]: descriptor 4, free before the open, is still open after the
    release.  With an empty first segment file and a third one that cannot
    be opened, the failed open has opened 3 and 4 and its clean-up closes 4
    only: descriptor 3 is still open when the failure is returned. *)
Theorem release_skips_empty_segments :
  (exists w1 private,
     dvdwrap_open w_empty_segment "/src" "/Film.mpg" = (w1, 0, Some private)
     /\ fd_lookup w_empty_segment 4 = None
     /\ vts_at private 2 = Vts 4 0
     /\ fd_lookup w1 4 = Some (Ofd [] 0)
     /\ w_closed (dvdwrap_release w1 private).1 = [3]
     /\ fd_lookup (dvdwrap_release w1 private).1 4 = Some (Ofd [] 0))
  /\ (exists w1,
        dvdwrap_open w_unreadable_segment "/src" "/Film.mpg"
        = (w1, - ENOENT, None)
        /\ fd_lookup w_unreadable_segment 3 = None
        /\ w_closed w1 = [4]
        /\ fd_lookup w1 3 = Some (Ofd [] 0)).
Proof.
  split.
  - eexists. eexists. split; [vm_compute; reflexivity|].
    vm_compute. repeat split.
  - eexists. split; [vm_compute; reflexivity|].
    vm_compute. repeat split.
Qed.


(** * Further properties of the scan *)

(** X1: of the visited titlesets with the largest aggregate size the scan
    selects the one with the lowest major number: every titleset before the
    selected one is strictly smaller, every visited one is at most as
    large. *)
Theorem scan_ties_to_lowest_major (fs : gmap string inode) (root : string)
    (maj total : Z) :
  dvdwrap_scan_videots fs root = Some (maj, total) ->
  (forall j, 1 <= j < maj -> titlesize fs root j < total)
  /\ (forall j, 1 <= j < MAX_VTS_MAJ ->
        (forall i, 1 <= i <= j -> lstat fs (vob_path root i 1) <> None) ->
        titlesize fs root j = total -> maj <= j).
Proof.
  intros H. apply scan_videots_Some in H.
  destruct H as (Hmaj & Hv & Htot & Hpos & Hmax & Hfirst).
  split; [exact Hfirst|].
  intros j Hj _ Heq. destruct (Z.le_gt_cases maj j) as [?|Hlt]; [assumption|].
  specialize (Hfirst j ltac:(lia)). lia.
Qed.

Lemma scan_ties_to_lowest_major_witness :
  (forall j, 1 <= j < 1 -> titlesize fs_tie "/dvd" j < 4)
  /\ (forall j, 1 <= j < MAX_VTS_MAJ ->
        (forall i, 1 <= i <= j -> lstat fs_tie (vob_path "/dvd" i 1) <> None) ->
        titlesize fs_tie "/dvd" j = 4 -> 1 <= j).
Proof.
  apply (scan_ties_to_lowest_major fs_tie "/dvd" 1 4).
  vm_compute. reflexivity.
Defined.

(** X2: the scan looks at nothing but the segment files of the major numbers
    1..99 and minor indices 1..9 below the image root: two trees that agree
    on these paths give the same result, whatever else they hold. *)
Theorem scan_reads_segments_only (fs fs' : gmap string inode) (root : string) :
  (forall maj min, 1 <= maj < MAX_VTS_MAJ -> 1 <= min < MAX_VTS_MIN ->
     fs !! vob_path root maj min = fs' !! vob_path root maj min) ->
  dvdwrap_scan_videots fs root = dvdwrap_scan_videots fs' root.
Proof. intros H. apply scan_videots_agree. exact H. Qed.

Lemma scan_reads_segments_only_witness :
  dvdwrap_scan_videots fs_film "/src//Film"
  = dvdwrap_scan_videots fs_film_no_index "/src//Film".
Proof.
  apply (scan_reads_segments_only fs_film fs_film_no_index "/src//Film").
  intros maj min _ _. symmetry. apply lookup_delete_ne.
  apply (ifo_path_not_vob "/src//Film" maj min).
Defined.

(** * Further properties of attributes and open *)

(** X3: for a passthrough path that exists, the attribute query succeeds
    with the size of the real node and its mode without the write bits
    0222; every other mode bit is as [lstat] gave it. *)
Theorem getattr_passthrough_read_only (fs : gmap string inode)
    (sourcepath path target : string) (st : stat) :
  resolve sourcepath path = Passthrough target ->
  lstat fs target = Some st ->
  exists st',
    dvdwrap_getattr fs sourcepath path = (0, st')
    /\ st_size st' = st_size st
    /\ Z.land (st_mode st') 146 = 0
    /\ forall n, 0 <= n -> Z.testbit 146 n = false ->
         Z.testbit (st_mode st') n = Z.testbit (st_mode st) n.
Proof.
  intros Hres Hst. unfold dvdwrap_getattr. rewrite Hres, Hst.
  eexists. split; [reflexivity|]. cbn [st_size st_mode].
  split; [reflexivity|]. split.
  - rewrite <- Z.land_assoc. change (Z.land (Z.lnot 146) 146) with 0.
    apply Z.land_0_r.
  - intros n Hn Hbit. rewrite Z.land_spec, Z.lnot_spec by exact Hn.
    rewrite Hbit. apply andb_true_r.
Qed.

Lemma getattr_passthrough_read_only_witness :
  exists st',
    dvdwrap_getattr fs_sub "/src" "/sub/docs" = (0, st')
    /\ st_size st' = st_size (Stat 16877 0)
    /\ Z.land (st_mode st') 146 = 0
    /\ forall n, 0 <= n -> Z.testbit 146 n = false ->
         Z.testbit (st_mode st') n = Z.testbit (st_mode (Stat 16877 0)) n.
Proof.
  apply (getattr_passthrough_read_only fs_sub "/src" "/sub/docs"
           "/src//sub/docs" (Stat 16877 0)).
  - vm_compute. reflexivity.
  - vm_compute. reflexivity.
Defined.

Lemma sys_open_frame w p :
  w_fs (sys_open w p).2 = w_fs w
  /\ w_nomem (sys_open w p).2 = w_nomem w
  /\ w_closed (sys_open w p).2 = w_closed w.
Proof.
  unfold sys_open. destruct (w_fs w !! p) as [ino|]; [|auto].
  destruct (i_readable ino); [|auto].
  destruct (fd_alloc (w_fds w) (Ofd (i_data ino) 0)). auto.
Qed.

(** The loop of [dvdwrap_open] changes the descriptor table only. *)
Lemma open_segments_frame root maj n : forall min w private,
  w_fs (open_segments w root maj n min private).1.1 = w_fs w
  /\ w_nomem (open_segments w root maj n min private).1.1 = w_nomem w
  /\ w_closed (open_segments w root maj n min private).1.1 = w_closed w.
Proof.
  induction n as [|n IH]; intros min w private; [simpl; auto|].
  simpl. destruct (lstat (w_fs w) (vob_path root maj min)) as [st|]; [|simpl; auto].
  pose proof (sys_open_frame w (vob_path root maj min)) as (F1 & F2 & F3).
  destruct (sys_open w (vob_path root maj min)) as [fd w1]. cbn [snd] in *.
  destruct (fd <? 0); [simpl; auto|].
  match goal with
  | |- context [open_segments w1 root maj n ?m ?p] =>
      destruct (IH m w1 p) as (G1 & G2 & G3)
  end.
  rewrite G1, G2, G3. auto.
Qed.

(** The loop of [dvdwrap_release] leaves the tree alone. *)
Lemma release_segments_frame private n : forall min w,
  w_fs (release_segments w private n min) = w_fs w
  /\ w_nomem (release_segments w private n min) = w_nomem w.
Proof.
  induction n as [|n IH]; intros min w; [simpl; auto|].
  simpl. destruct (vts_size (vts_at private min) =? 0); [apply IH|].
  destruct (IH (min + 1) (sys_close w (vts_fd (vts_at private min))).2)
    as [G1 G2].
  rewrite G1, G2. unfold sys_close.
  destruct (fd_lookup w (vts_fd (vts_at private min))); auto.
Qed.

(** X4: open either succeeds, returning 0 with a handle and having closed
    nothing, or fails, returning [-ENOENT] or [-ENOMEM] with no handle left
    behind; it never changes the tree, and when memory is short it changes
    nothing at all. *)
Theorem open_all_or_nothing (w : world) (sourcepath path : string) :
  let '(w1, rc, fh) := dvdwrap_open w sourcepath path in
  w_fs w1 = w_fs w
  /\ ((rc = 0 /\ is_Some fh /\ w_closed w1 = w_closed w)
      \/ (rc = - ENOENT /\ fh = None)
      \/ (rc = - ENOMEM /\ fh = None /\ w1 = w)).
Proof.
  unfold dvdwrap_open.
  destruct (resolve sourcepath path) as [root|real];
    [|split; [reflexivity|right; left; auto]].
  destruct (dvdwrap_scan_videots (w_fs w) root) as [[maj total]|];
    [|split; [reflexivity|right; left; auto]].
  destruct (w_nomem w); [split; [reflexivity|right; right; auto]|].
  pose proof (open_segments_frame root maj (Z.to_nat (MAX_VTS_MIN - 1)) 1 w fh_zero)
    as (F1 & _ & F3).
  destruct (open_segments w root maj (Z.to_nat (MAX_VTS_MIN - 1)) 1 fh_zero)
    as [[w1 private] ok].
  cbn [fst] in F1, F3. destruct ok.
  - split; [exact F1|]. left. split; [reflexivity|]. split; [eexists; reflexivity|exact F3].
  - split; [|right; left; auto].
    unfold dvdwrap_release. cbn [fst].
    destruct (release_segments_frame private (Z.to_nat (MAX_VTS_MIN - 1)) 1 w1)
      as [G1 _].
    rewrite G1. exact F1.
Qed.

(** The loop of [dvdwrap_open], when it is not left through [goto fail],
    adds up the sizes the inner loop of the scan adds up. *)
Lemma open_segments_total root maj n : forall min w private w' private',
  0 <= total_size private < 2 ^ 64 ->
  open_segments w root maj n min private = (w', private', true) ->
  total_size private'
  = (scan_minors (w_fs w) root maj n min (total_size private)).2.
Proof.
  induction n as [|n IH]; intros min w private w' private' Htot Hopen.
  - simpl in *. inversion Hopen; subst. reflexivity.
  - simpl in *.
    destruct (lstat (w_fs w) (vob_path root maj min)) as [st|];
      [|inversion Hopen; subst; reflexivity].
    pose proof (sys_open_frame w (vob_path root maj min)) as (F1 & _).
    destruct (sys_open w (vob_path root maj min)) as [fd w1]. cbn [snd] in F1.
    destruct (fd <? 0); [discriminate|].
    apply IH in Hopen; [|cbn [total_size]; apply u64_range].
    rewrite Hopen, F1. cbn [total_size]. f_equal. f_equal.
    unfold u64. apply Zplus_mod_idemp_r.
Qed.

(** X5: when the attribute query and the open of the same synthetic file
    both succeed, the size the attribute query reports is the aggregate size
    recorded in the handle (as an [off_t]), which is not 0. *)
Theorem getattr_size_is_handle_total (w : world) (sourcepath path : string)
    (st : stat) (w1 : world) (private : dvdwrap_fh_t) :
  dvdwrap_getattr (w_fs w) sourcepath path = (0, st) ->
  dvdwrap_open w sourcepath path = (w1, 0, Some private) ->
  st_size st = i64 (total_size private) /\ 0 < total_size private.
Proof.
  unfold dvdwrap_getattr, dvdwrap_open.
  destruct (resolve sourcepath path) as [root|real];
    [|intros _ H; unfold ENOENT in H; discriminate].
  destruct (lstat (w_fs w) (ifo_path root)) as [stbuf|];
    [|intros H; unfold ENOENT in H; discriminate].
  destruct (dvdwrap_scan_videots (w_fs w) root) as [[maj total]|] eqn:Escan;
    [|intros H; unfold ENOENT in H; discriminate].
  intros Hget Hopen. inversion Hget; subst st. cbn [st_size].
  destruct (w_nomem w); [unfold ENOMEM in Hopen; discriminate|].
  destruct (open_segments w root maj (Z.to_nat (MAX_VTS_MIN - 1)) 1 fh_zero)
    as [[w1' private'] ok] eqn:Eo.
  destruct ok; [|unfold ENOENT in Hopen; discriminate].
  inversion Hopen; subst w1' private'.
  apply open_segments_total in Eo; [|simpl; lia].
  apply scan_videots_Some in Escan. destruct Escan as (_ & _ & Htot & Hpos & _).
  unfold titlesize, scan_titleset in Htot. cbn [total_size fh_zero] in Eo.
  rewrite <- Eo in Htot. subst total. split; [reflexivity|exact Hpos].
Qed.

Lemma getattr_size_is_handle_total_witness :
  st_size (Stat 420 350) = i64 (total_size fh_film) /\ 0 < total_size fh_film.
Proof.
  apply (getattr_size_is_handle_total w_film "/src" "/Film.mpg" (Stat 420 350)
           (dvdwrap_open w_film "/src" "/Film.mpg").1.1 fh_film).
  - vm_compute. reflexivity.
  - vm_compute. reflexivity.
Defined.

(** The loop of [dvdwrap_open] is not left through [goto fail] when every
    file of the tree can be opened. *)
Lemma open_segments_readable root maj n : forall min w private,
  (forall p f, w_fs w !! p = Some f -> i_readable f = true) ->
  (open_segments w root maj n min private).2 = true.
Proof.
  induction n as [|n IH]; intros min w private Hread; [reflexivity|].
  simpl. unfold lstat, sys_open.
  destruct (w_fs w !! vob_path root maj min) as [f|] eqn:E; [|reflexivity].
  rewrite (Hread _ _ E).
  destruct (fd_alloc (w_fds w) (Ofd (i_data f) 0)) as [i t].
  destruct (Z.ltb_spec (Z.of_nat i) 0); [lia|].
  apply IH. exact Hread.
Qed.

(** X6: when the attribute query on a synthetic file succeeds, memory is
    available and every file of the tree can be opened, the open of that
    file succeeds. *)
Theorem getattr_then_open (w : world) (sourcepath path : string) (st : stat) :
  dvdwrap_getattr (w_fs w) sourcepath path = (0, st) ->
  (exists root, resolve sourcepath path = Synthetic root) ->
  w_nomem w = false ->
  (forall p f, w_fs w !! p = Some f -> i_readable f = true) ->
  exists w1 private, dvdwrap_open w sourcepath path = (w1, 0, Some private).
Proof.
  intros Hget [root Hres] Hmem Hread. unfold dvdwrap_getattr in Hget.
  unfold dvdwrap_open. rewrite Hres in *.
  destruct (lstat (w_fs w) (ifo_path root)) as [stbuf|];
    [|unfold ENOENT in Hget; discriminate].
  destruct (dvdwrap_scan_videots (w_fs w) root) as [[maj total]|];
    [|unfold ENOENT in Hget; discriminate].
  rewrite Hmem.
  pose proof (open_segments_readable root maj (Z.to_nat (MAX_VTS_MIN - 1)) 1 w
                fh_zero Hread) as Hok.
  destruct (open_segments w root maj (Z.to_nat (MAX_VTS_MIN - 1)) 1 fh_zero)
    as [[w1 private] ok].
  cbn [snd] in Hok. subst ok. exists w1, private. reflexivity.
Qed.

Lemma getattr_then_open_witness :
  exists w1 private,
    dvdwrap_open w_film "/src" "/Film.mpg" = (w1, 0, Some private).
Proof.
  apply (getattr_then_open w_film "/src" "/Film.mpg" (Stat 420 350)).
  - vm_compute. reflexivity.
  - eexists. vm_compute. reflexivity.
  - reflexivity.
  - assert (H : map_Forall (fun _ f => i_readable f = true) fs_film).
    { unfold fs_film.
      repeat (apply map_Forall_insert_2; [reflexivity|]).
      apply map_Forall_empty. }
    exact H.
Defined.

(** X7: a successful open takes one descriptor per segment file of the
    titleset, in the order of the minor indices: the descriptors were free
    before, are pairwise distinct and are open at position 0 on the contents
    [open] leads to, with the sizes [lstat] reported for the paths recorded
    beside them (for a symbolic link the two differ); every other
    descriptor is as it was, and nothing is closed. *)
Theorem open_takes_fresh_descriptors (w : world)
    (sourcepath path root : string) (maj total : Z) (segs : list inode)
    (w1 : world) (private : dvdwrap_fh_t) :
  resolve sourcepath path = Synthetic root ->
  dvdwrap_scan_videots (w_fs w) root = Some (maj, total) ->
  titleset_files (w_fs w) root maj segs ->
  sum_sizes segs < 2 ^ 64 ->
  dvdwrap_open w sourcepath path = (w1, 0, Some private) ->
  let slots := take (length segs) (drop 1 (vts private)) in
  length slots = length segs
  /\ (forall i f, segs !! i = Some f ->
        exists fd,
          slots !! i = Some (Vts fd (seg_size f))
          /\ fd_lookup w fd = None
          /\ fd_lookup w1 fd = Some (Ofd (i_data f) 0))
  /\ NoDup (vts_fd <$> slots)
  /\ (forall fd, fd ∉ vts_fd <$> slots -> fd_lookup w1 fd = fd_lookup w fd)
  /\ w_closed w1 = w_closed w.
Proof.
  intros Hres Hscan Hfiles Hsum Hopen slots.
  destruct (release_after_open _ _ _ _ _ _ _ _ _ Hres Hscan Hfiles Hsum Hopen)
    as (Hnd & Hfresh & Hrest & _ & _).
  destruct (dvdwrap_open_ok _ _ _ _ _ _ _ _ _ Hres Hscan Hfiles Hsum Hopen)
    as (Hok & Hw1 & Hvts).
  destruct (open_files (w_fds w) segs) as [slots0 t'] eqn:Ef.
  destruct (open_files_spec _ _ _ _ Ef) as (Hsl & Hslots & _ & _).
  cbn [fst snd] in *.
  assert (Hs : slots = slots0).
  { unfold slots. rewrite Hvts. cbn [drop]. rewrite drop_0, <- Hsl.
    rewrite take_app_length. reflexivity. }
  rewrite Hs. split; [exact Hsl|]. split; [|split; [exact Hnd|split; [exact Hrest|]]].
  - intros i f Hi. destruct (Hslots i f Hi) as (fd & Hsi & _).
    exists (Z.of_nat fd). split; [exact Hsi|].
    assert (Hin : Vts (Z.of_nat fd) (seg_size f) ∈ slots0).
    { apply list_elem_of_lookup. exists i. exact Hsi. }
    destruct (Hfresh _ Hin) as [Hfree _]. cbn [vts_fd] in Hfree.
    split; [exact Hfree|].
    destruct Hok as (_ & _ & Hseg & _).
    destruct (Hseg i f Hi) as (fd' & pos & Hv & Hfd').
    rewrite Hvts in Hv. simpl in Hv.
    rewrite lookup_app_l in Hv by (eapply lookup_lt_Some; eauto).
    rewrite Hsi in Hv. inversion Hv; subst fd'.
    rewrite Hfd'. f_equal. f_equal.
    rewrite Hw1 in Hfd'. unfold fd_lookup in Hfd'. cbn [w_fds] in Hfd'.
    destruct (Z.of_nat fd <? 0); [discriminate|].
    rewrite Nat2Z.id in Hfd'.
    destruct (Hslots i f Hi) as (fd2 & Hsi2 & _ & Hopen2).
    rewrite Hsi in Hsi2. inversion Hsi2 as [Heq]. apply Nat2Z.inj in Heq. subst fd2.
    rewrite Hopen2 in Hfd'. inversion Hfd'. reflexivity.
  - rewrite Hw1. reflexivity.
Qed.

Lemma open_takes_fresh_descriptors_witness :
  let w1 := (dvdwrap_open w_film "/src" "/Film.mpg").1.1 in
  let slots := take (length film_segments) (drop 1 (vts fh_film)) in
  length slots = length film_segments
  /\ (forall i f, film_segments !! i = Some f ->
        exists fd,
          slots !! i = Some (Vts fd (seg_size f))
          /\ fd_lookup w_film fd = None
          /\ fd_lookup w1 fd = Some (Ofd (i_data f) 0))
  /\ NoDup (vts_fd <$> slots)
  /\ (forall fd, fd ∉ vts_fd <$> slots -> fd_lookup w1 fd = fd_lookup w_film fd)
  /\ w_closed w1 = w_closed w_film.
Proof.
  apply (open_takes_fresh_descriptors w_film "/src" "/Film.mpg" "/src//Film"
           1 350 film_segments).
  - vm_compute. reflexivity.
  - vm_compute. reflexivity.
  - exact film_titleset.
  - vm_compute. reflexivity.
  - vm_compute. reflexivity.
Defined.

(** * Further properties of release *)

(** Closing slots, whatever their descriptors are: each slot of non-zero
    size adds its descriptor to the trace of [close]. *)
Lemma close_slots_trace slots : forall w,
  w_closed (close_slots w slots)
  = w_closed w ++ (vts_fd <$> closed_slots slots)
  /\ w_fs (close_slots w slots) = w_fs w.
Proof.
  unfold closed_slots.
  induction slots as [|v slots IH]; intros w.
  - simpl. rewrite app_nil_r. auto.
  - simpl. rewrite filter_cons.
    destruct (Z.eqb_spec (vts_size v) 0) as [E0|N0].
    + destruct (decide (vts_size v <> 0)); [contradiction|]. apply IH.
    + destruct (decide (vts_size v <> 0)); [|contradiction].
      destruct (IH (sys_close w (vts_fd v)).2) as [IH1 IH2].
      unfold close_slots in *. rewrite IH1, IH2. unfold sys_close.
      destruct (fd_lookup w (vts_fd v)); cbn [snd w_closed w_fs];
        rewrite fmap_cons, <- app_assoc; auto.
Qed.

(** X8: for any handle and any state, release passes to [close] the
    descriptors of the slots 1 to 9 whose recorded size is not 0, in slot
    order and once per slot, and nothing else (slot 0 is never looked at):
    at most nine calls; the tree is left alone. *)
Theorem release_close_trace (w : world) (private : dvdwrap_fh_t) :
  let w2 := (dvdwrap_release w private).1 in
  let closed := vts_fd <$> closed_slots (take 9 (drop 1 (vts private))) in
  w_closed w2 = w_closed w ++ closed
  /\ (length closed <= 9)%nat
  /\ w_fs w2 = w_fs w.
Proof.
  intros w2 closed.
  assert (Hrel : w2 = close_slots w (take 9 (drop 1 (vts private)))).
  { unfold w2, dvdwrap_release. cbn [fst]. rewrite nine_minors.
    apply release_segments_slots; [lia| | |].
    - intros i v Hi. apply lookup_take_Some in Hi as [Hi _].
      rewrite lookup_drop in Hi. unfold vts_at.
      replace (Z.to_nat (1 + Z.of_nat i)) with (1 + i)%nat by lia.
      rewrite Hi. reflexivity.
    - intros i [Hge Hlt]. unfold vts_at.
      replace (Z.to_nat (1 + Z.of_nat i)) with (1 + i)%nat by lia.
      rewrite length_take, length_drop in Hge.
      rewrite (lookup_ge_None_2 (vts private) (1 + i)) by lia. reflexivity.
    - rewrite length_take. lia. }
  destruct (close_slots_trace (take 9 (drop 1 (vts private))) w) as [H1 H2].
  rewrite Hrel. split; [exact H1|]. split; [|exact H2].
  unfold closed, closed_slots. rewrite length_fmap.
  etransitivity; [apply length_filter|]. rewrite length_take. lia.
Qed.

(** * Further properties of open: the failure path *)

Lemma seg_size_le_sum segs : forall i g,
  segs !! i = Some g -> seg_size g <= sum_sizes segs.
Proof.
  induction segs as [|f segs IH]; intros [|i] g Hi; simpl in Hi;
    [discriminate|discriminate| |].
  - inversion Hi; subst. simpl. pose proof (sum_sizes_nonneg segs). lia.
  - simpl. pose proof (seg_size_nonneg f). specialize (IH i g Hi). lia.
Qed.

Section OpenFails.

Variable root : string.
Variable maj : Z.

(** The loop of [dvdwrap_open] over files of which the one of index [k] is
    the first that cannot be opened: the files before it are opened, the
    loop is left through [goto fail], the slots of the opened files are
    filled in and every slot from the failing one on has size 0. *)
Lemma open_segments_fail : forall k segs n min w private f,
  segs !! k = Some f -> i_readable f = false ->
  (forall i g, (i < k)%nat -> segs !! i = Some g -> i_readable g = true) ->
  (forall i g, (i <= k)%nat -> segs !! i = Some g ->
     w_fs w !! vob_path root maj (min + Z.of_nat i) = Some g) ->
  (forall i g, segs !! i = Some g -> seg_size g < 2 ^ 64) ->
  (k < n)%nat -> 0 <= min ->
  (Z.to_nat min + n <= length (vts private))%nat ->
  (forall j, (Z.to_nat min <= j)%nat ->
     vts_size (default (Vts 0 0) (vts private !! j)) = 0) ->
  exists private',
    open_segments w root maj n min private
    = (World (w_fs w) (open_files (w_fds w) (take k segs)).2
         (w_nomem w) (w_closed w), private', false)
    /\ length (vts private') = length (vts private)
    /\ (forall i v, (open_files (w_fds w) (take k segs)).1 !! i = Some v ->
          vts private' !! (Z.to_nat min + i)%nat = Some v)
    /\ (forall j, (Z.to_nat min + k <= j)%nat ->
          vts_size (default (Vts 0 0) (vts private' !! j)) = 0)
    /\ (forall j, (j < Z.to_nat min)%nat ->
          vts private' !! j = vts private !! j).
Proof.
  induction k as [|k IH];
    intros segs n min w private f Hk Hf Hread Hfiles Hsz Hn Hmin Hlen Hzero;
    (destruct segs as [|g segs]; [discriminate|]);
    (destruct n as [|n]; [lia|]).
  - simpl in Hk. inversion Hk; subst g. clear Hk.
    pose proof (Hfiles 0%nat f ltac:(lia) eq_refl) as H0.
    rewrite Z.add_0_r in H0.
    simpl. rewrite (lstat_Some _ _ _ H0). unfold sys_open. rewrite H0, Hf.
    change (-1 <? 0) with true. cbv iota.
    eexists. split; [destruct w; reflexivity|]. cbn [vts].
    split; [apply length_insert|]. split; [intros i v Hi; discriminate|].
    split.
    + intros j Hj. rewrite Nat.add_0_r in Hj.
      destruct (decide (j = Z.to_nat min)) as [->|Hne].
      * rewrite list_lookup_insert_eq by lia. cbn [default vts_size].
        unfold vts_at. apply Hzero. lia.
      * rewrite list_lookup_insert_ne by lia. apply Hzero. exact Hj.
    + intros j Hj. apply list_lookup_insert_ne. lia.
  - simpl in Hk.
    pose proof (Hfiles 0%nat g ltac:(lia) eq_refl) as H0.
    rewrite Z.add_0_r in H0.
    pose proof (Hread 0%nat g ltac:(lia) eq_refl) as Hg.
    pose proof (Hsz 0%nat g eq_refl) as Hgs.
    pose proof (seg_size_nonneg g) as Hgn.
    simpl open_segments. rewrite (lstat_Some _ _ _ H0).
    unfold sys_open. rewrite H0, Hg. simpl take. simpl open_files.
    destruct (fd_alloc (w_fds w) (Ofd (i_data g) 0)) as [i0 t1] eqn:Ea.
    destruct (Z.ltb_spec (Z.of_nat i0) 0); [lia|].
    cbn [st_size]. rewrite (u64_id (seg_size g)) by lia.
    match goal with
    | |- context [open_segments ?w1 root maj n (min + 1) ?p2] =>
        destruct (IH segs n (min + 1) w1 p2 f Hk Hf) as (private' & Ho & Hl & Hs & Hz & Hb)
    end.
    + intros i g' Hi Hg'. apply (Hread (S i) g'); [lia|exact Hg'].
    + intros i g' Hi Hg'. cbn [w_fs].
      replace (min + 1 + Z.of_nat i) with (min + Z.of_nat (S i)) by lia.
      apply Hfiles; [lia|exact Hg'].
    + intros i g' Hg'. apply (Hsz (S i) g'). exact Hg'.
    + lia.
    + lia.
    + cbn [vts]. rewrite length_insert. lia.
    + intros j Hj. cbn [vts]. rewrite list_lookup_insert_ne by lia.
      apply Hzero. lia.
    + cbn [w_fs w_fds w_nomem w_closed vts] in *.
      rewrite length_insert in Hl.
      replace (Z.to_nat (min + 1)) with (S (Z.to_nat min)) in * by lia.
      destruct (open_files t1 (take k segs)) as [slots t'] eqn:Eo.
      cbn [fst snd] in *.
      exists private'. split; [exact Ho|]. split; [exact Hl|]. split; [|split].
      * intros [|i] v Hi; simpl in Hi.
        -- inversion Hi; subst v. rewrite Nat.add_0_r.
           rewrite (Hb (Z.to_nat min) ltac:(lia)).
           apply list_lookup_insert_eq. lia.
        -- replace (Z.to_nat min + S i)%nat with (S (Z.to_nat min) + i)%nat by lia.
           apply Hs. exact Hi.
      * intros j Hj. apply Hz. lia.
      * intros j Hj. rewrite (Hb j ltac:(lia)).
        apply list_lookup_insert_ne. lia.
Qed.

End OpenFails.

(** Closing the slots [open_files] filled in for files none of which is
    empty undoes the opening. *)
Lemma close_opened_files (w : world) (segs : list inode) :
  Forall (fun f => seg_size f <> 0) segs ->
  let slots := (open_files (w_fds w) segs).1 in
  let w1 := World (w_fs w) (open_files (w_fds w) segs).2
              (w_nomem w) (w_closed w) in
  let w2 := close_slots w1 slots in
  length slots = length segs
  /\ NoDup (vts_fd <$> slots)
  /\ (forall fd, fd ∈ vts_fd <$> slots -> fd_lookup w fd = None)
  /\ w_closed w2 = w_closed w ++ (vts_fd <$> slots)
  /\ forall fd, fd_lookup w2 fd = fd_lookup w fd.
Proof.
  intros Hne slots w1 w2.
  destruct (open_files (w_fds w) segs) as [slots0 t'] eqn:Ef.
  destruct (open_files_spec _ _ _ _ Ef) as (Hsl & Hslots & Hnd & Hrest).
  cbn [fst snd] in *. subst slots.
  assert (Hlook1 : forall fd : nat, fd_lookup w1 (Z.of_nat fd) = mjoin (t' !! fd)).
  { intros fd. unfold w1, fd_lookup. cbn [w_fds].
    destruct (Z.ltb_spec (Z.of_nat fd) 0); [lia|]. rewrite Nat2Z.id. reflexivity. }
  assert (Hlook0 : forall fd : nat, fd_lookup w (Z.of_nat fd) = mjoin (w_fds w !! fd)).
  { intros fd. unfold fd_lookup.
    destruct (Z.ltb_spec (Z.of_nat fd) 0); [lia|]. rewrite Nat2Z.id. reflexivity. }
  assert (Hfresh : forall v, v ∈ slots0 ->
            fd_lookup w (vts_fd v) = None /\ is_Some (fd_lookup w1 (vts_fd v))
            /\ vts_size v <> 0).
  { intros v Hv. apply list_elem_of_lookup in Hv. destruct Hv as (k & Hk).
    assert (Hklt : (k < length segs)%nat).
    { rewrite <- Hsl. eapply lookup_lt_Some. exact Hk. }
    destruct (lookup_lt_is_Some_2 segs k Hklt) as [f Hf].
    destruct (Hslots k f Hf) as (fd & Hs & Hf1 & Hf2).
    rewrite Hk in Hs. inversion Hs; subst. cbn [vts_fd vts_size].
    rewrite Hlook0, Hlook1, Hf1, Hf2.
    split; [reflexivity|]. split; [eexists; reflexivity|].
    rewrite Forall_forall in Hne. apply Hne.
    apply list_elem_of_lookup. exists k. exact Hf. }
  destruct (close_slots_spec slots0 w1 Hnd) as [Hc1 Hc2].
  { intros v Hv. apply Hfresh. exact Hv. }
  assert (Hall : closed_slots slots0 = slots0).
  { unfold closed_slots. apply filter_all. apply Forall_forall.
    intros v Hv. apply Hfresh. exact Hv. }
  rewrite Hall in *.
  split; [exact Hsl|]. split; [exact Hnd|]. split; [|split].
  - intros fd Hin. apply list_elem_of_fmap in Hin. destruct Hin as (v & -> & Hv).
    apply Hfresh. exact Hv.
  - exact Hc1.
  - intros fd. unfold w2. rewrite Hc2.
    destruct (decide (fd ∈ vts_fd <$> slots0)) as [Hin|Hout].
    + apply list_elem_of_fmap in Hin. destruct Hin as (v & -> & Hv).
      symmetry. apply Hfresh. exact Hv.
    + unfold fd_lookup at 1 2. unfold w1. cbn [w_fds].
      destruct (Z.ltb_spec fd 0); [reflexivity|].
      apply Hrest. rewrite Z2Nat.id by lia. exact Hout.
Qed.

(** X9: when the first segment file that cannot be opened is the one of
    index [k] and the files before it are not empty, open fails with
    [-ENOENT] and leaves no handle; on the way it has opened [k]
    descriptors, free before and pairwise distinct, and closed each of them
    once, in order, so that every descriptor is as it was before the
    call. *)
Theorem failed_open_closes_what_it_opened (w : world)
    (sourcepath path root : string) (maj total : Z) (segs : list inode)
    (k : nat) (f : inode) :
  resolve sourcepath path = Synthetic root ->
  dvdwrap_scan_videots (w_fs w) root = Some (maj, total) ->
  titleset_files (w_fs w) root maj segs ->
  sum_sizes segs < 2 ^ 64 ->
  w_nomem w = false ->
  segs !! k = Some f -> i_readable f = false ->
  (forall i g, (i < k)%nat -> segs !! i = Some g ->
     i_readable g = true /\ seg_size g <> 0) ->
  exists w1 fds,
    dvdwrap_open w sourcepath path = (w1, - ENOENT, None)
    /\ length fds = k /\ NoDup fds
    /\ (forall fd, fd ∈ fds -> fd_lookup w fd = None)
    /\ w_closed w1 = w_closed w ++ fds
    /\ (forall fd, fd_lookup w1 fd = fd_lookup w fd)
    /\ w_fs w1 = w_fs w.
Proof.
  intros Hres Hscan (Hlen & Hfiles & _) Hsum Hmem Hk Hf Hbefore.
  pose proof (lookup_lt_Some _ _ _ Hk) as Hklt.
  destruct (open_segments_fail root maj k segs 9 1 w fh_zero f Hk Hf)
    as (private' & Ho & Hl & Hs & Hz & _).
  { intros i g Hi Hg. apply (Hbefore i g Hi Hg). }
  { intros i g _ Hg. apply Hfiles. exact Hg. }
  { intros i g Hg. pose proof (seg_size_le_sum _ _ _ Hg). lia. }
  { lia. }
  { lia. }
  { simpl. lia. }
  { intros j _. cbn [vts fh_zero].
    destruct (replicate (Z.to_nat MAX_VTS_MIN) (Vts 0 0) !! j) as [v|] eqn:E;
      [|reflexivity].
    apply lookup_replicate in E. destruct E as [-> _]. reflexivity. }
  assert (Hne : Forall (fun g => seg_size g <> 0) (take k segs)).
  { apply Forall_forall. intros g Hg. apply list_elem_of_lookup in Hg.
    destruct Hg as (i & Hi). apply lookup_take_Some in Hi as [Hi Hik].
    apply (Hbefore i g Hik Hi). }
  destruct (close_opened_files w (take k segs) Hne)
    as (Hsl & Hnd & Hfree & Hclosed & Hlook).
  unfold dvdwrap_open. rewrite Hres, Hscan, Hmem, nine_minors, Ho.
  unfold dvdwrap_release. cbn [fst]. rewrite nine_minors.
  rewrite (release_segments_slots private'
             (open_files (w_fds w) (take k segs)).1 9 1).
  - eexists. exists (vts_fd <$> (open_files (w_fds w) (take k segs)).1).
    split; [reflexivity|]. split.
    { rewrite length_fmap, Hsl, length_take. lia. }
    split; [exact Hnd|]. split; [exact Hfree|]. split; [exact Hclosed|].
    split; [exact Hlook|].
    match goal with
    | |- w_fs (close_slots ?w0 ?sl) = _ =>
        destruct (close_slots_trace sl w0) as [_ Hfs]; exact Hfs
    end.
  - lia.
  - intros i v Hi. unfold vts_at.
    replace (Z.to_nat (1 + Z.of_nat i)) with (Z.to_nat 1 + i)%nat by lia.
    rewrite (Hs i v Hi). reflexivity.
  - intros i Hi. unfold vts_at.
    replace (Z.to_nat (1 + Z.of_nat i)) with (Z.to_nat 1 + i)%nat by lia.
    apply Hz. rewrite Hsl, length_take in Hi. lia.
  - rewrite Hsl, length_take. lia.
Qed.

Lemma locked_titleset : titleset_files fs_locked "/src//Film" 1 locked_segments.
Proof.
  split; [simpl; lia|]. split.
  - intros [|[|i]] f Hi; simpl in Hi; inversion Hi; subst;
      vm_compute; reflexivity.
  - intros _. vm_compute. reflexivity.
Defined.

Lemma failed_open_closes_what_it_opened_witness :
  exists w1 fds,
    dvdwrap_open w_locked "/src" "/Film.mpg" = (w1, - ENOENT, None)
    /\ length fds = 1%nat /\ NoDup fds
    /\ (forall fd, fd ∈ fds -> fd_lookup w_locked fd = None)
    /\ w_closed w1 = w_closed w_locked ++ fds
    /\ (forall fd, fd_lookup w1 fd = fd_lookup w_locked fd)
    /\ w_fs w1 = w_fs w_locked.
Proof.
  apply (failed_open_closes_what_it_opened w_locked "/src" "/Film.mpg"
           "/src//Film" 1 7 locked_segments 1
           (Inode 0 4 false (replicate 4 Byte.x42))).
  - vm_compute. reflexivity.
  - vm_compute. reflexivity.
  - exact locked_titleset.
  - vm_compute. reflexivity.
  - reflexivity.
  - reflexivity.
  - reflexivity.
  - intros [|i] g Hi Hg; [|lia]. simpl in Hg. inversion Hg; subst.
    split; [reflexivity|]. vm_compute. discriminate.
Defined.

(** * Further properties of read *)

(** X10: a read that returns has changed nothing but file positions,
    whatever the handle, the state and the arguments are: the tree and the
    trace of [close] are the same, and every descriptor is open on the same
    contents as before, or closed as before. *)
Theorem read_moves_positions_only (w : world) (private : dvdwrap_fh_t)
    (buf : list Byte.byte) (size offset : Z) (w' : world) (rc : Z)
    (buf' : list Byte.byte) :
  dvdwrap_read w private buf size offset = Returns (w', rc, buf') ->
  w_fs w' = w_fs w /\ w_closed w' = w_closed w
  /\ forall fd, ofd_data <$> fd_lookup w' fd = ofd_data <$> fd_lookup w fd.
Proof.
  intros H. apply dvdwrap_read_same in H.
  destruct H as (H1 & _ & H3 & H4). auto.
Qed.

Lemma read_moves_positions_only_witness :
  exists w',
    w_fs w' = w_fs (dvdwrap_open w_film "/src" "/Film.mpg").1.1
    /\ w_closed w' = w_closed (dvdwrap_open w_film "/src" "/Film.mpg").1.1
    /\ forall fd,
         ofd_data <$> fd_lookup w' fd
         = ofd_data <$> fd_lookup (dvdwrap_open w_film "/src" "/Film.mpg").1.1 fd.
Proof.
  eexists.
  apply (read_moves_positions_only
           (dvdwrap_open w_film "/src" "/Film.mpg").1.1 fh_film
           (replicate 4 Byte.x00) 4 98 _ 4
           [Byte.x41; Byte.x41; Byte.x42; Byte.x42]).
  vm_compute. reflexivity.
Defined.

(** What [read] gives: an error and no byte, or not more bytes than asked
    for. *)
Lemma sys_read_shape w fd count n chunk w' :
  sys_read w fd count = (n, chunk, w') ->
  (n = -1 /\ chunk = [])
  \/ (n = Z.of_nat (length chunk) /\ (length chunk <= Z.to_nat count)%nat).
Proof.
  unfold sys_read. destruct (fd_lookup w fd) as [d|]; intros H;
    inversion H; subst; [right|left; auto].
  split; [reflexivity|]. rewrite length_take. lia.
Qed.

Lemma write_at_length (p : nat) chunk buf :
  (p + length chunk <= length buf)%nat ->
  length (write_at (Z.of_nat p) chunk buf) = length buf.
Proof.
  intros H. unfold write_at. rewrite Nat2Z.id.
  rewrite !length_app, length_take, length_drop. lia.
Qed.

(** The loop keeps within the caller's buffer, for any handle. *)
Lemma read_loop_in_buffer private (size : nat) :
  Z.of_nat size <= INT_MAX ->
  forall fuel w buf offset (total : nat) w' rc buf',
    (total <= size)%nat -> length buf = size ->
    read_loop fuel w private buf (Z.of_nat total) (Z.of_nat size) offset
      (Z.of_nat total) = Returns (w', rc, buf') ->
    length buf' = size /\ -1 <= rc <= Z.of_nat size.
Proof.
  unfold INT_MAX. intros Hsize.
  induction fuel as [|fuel IH]; intros w buf offset total w' rc buf' Ht Hbuf;
    [discriminate|].
  rewrite read_loop_S.
  destruct (Z.ltb_spec (Z.of_nat total) (Z.of_nat size)) as [Hlt|Hge].
  - destruct (locate private _ 1 offset) as [min thisoffset].
    destruct (min =? MAX_VTS_MIN).
    { intros H. injection H as H1 H2 H3. subst w' rc buf'.
      rewrite i32_id by lia. split; [exact Hbuf|lia]. }
    cbv zeta.
    rewrite (u64_id (Z.of_nat size - Z.of_nat total)) by lia.
    rewrite (i64_id (Z.of_nat size - Z.of_nat total)) by lia.
    rewrite (u64_id (Z.of_nat size - Z.of_nat total)) by lia.
    set (room := u64 (vts_size (vts_at private min) - u64 thisoffset)).
    pose proof (u64_range (vts_size (vts_at private min) - u64 thisoffset)) as Hroom.
    fold room in Hroom.
    set (thissize := if room <? Z.of_nat size - Z.of_nat total
                     then i64 room else Z.of_nat size - Z.of_nat total).
    assert (Hthis : 0 <= u64 thissize <= Z.of_nat size - Z.of_nat total).
    { unfold thissize.
      destruct (Z.ltb_spec room (Z.of_nat size - Z.of_nat total)).
      - rewrite (i64_id room), (u64_id room) by lia. lia.
      - rewrite u64_id by lia. lia. }
    destruct (sys_read _ (vts_fd (vts_at private min)) (u64 thissize))
      as [[n chunk] w2] eqn:Er.
    apply sys_read_shape in Er. destruct Er as [[-> ->]|[-> Hlen]].
    + change (i32 (-1)) with (-1). change (-1 <? 0) with true. cbv iota.
      intros H. injection H as H1 H2 H3. subst w' rc buf'.
      rewrite write_at_length by (simpl; lia). split; [exact Hbuf|lia].
    + rewrite i32_id by lia.
      destruct (Z.ltb_spec (Z.of_nat (length chunk)) 0); [lia|].
      rewrite (u64_id (Z.of_nat total + Z.of_nat (length chunk))) by lia.
      replace (Z.of_nat total + Z.of_nat (length chunk))
        with (Z.of_nat (total + length chunk)) by lia.
      apply IH; [lia|]. rewrite write_at_length by lia. exact Hbuf.
  - intros H. injection H as H1 H2 H3. subst w' rc buf'.
      rewrite i32_id by lia. split; [exact Hbuf|lia].
Qed.

(** X11: whatever the handle and the state are, a read of at most [INT_MAX]
    bytes that returns has stored nothing outside the [size] bytes of the
    caller's buffer, and its result is -1 or a count from 0 to [size]. *)
Theorem read_stays_in_buffer (w : world) (private : dvdwrap_fh_t)
    (buf : list Byte.byte) (size offset : Z) (w' : world) (rc : Z)
    (buf' : list Byte.byte) :
  0 <= size <= INT_MAX -> length buf = Z.to_nat size ->
  dvdwrap_read w private buf size offset = Returns (w', rc, buf') ->
  length buf' = length buf /\ -1 <= rc <= size.
Proof.
  intros Hsize Hbuf. unfold dvdwrap_read.
  destruct (total_size private <=? u64 offset).
  - intros H. inversion H; subst. split; [reflexivity|lia].
  - intros H.
    rewrite <- (Z2Nat.id size) in H at 2 by lia.
    change 0 with (Z.of_nat 0) in H.
    apply (read_loop_in_buffer private (Z.to_nat size)) in H;
      [|rewrite Z2Nat.id; lia|lia|exact Hbuf].
    rewrite Z2Nat.id in H by lia. rewrite Hbuf. exact H.
Qed.

Lemma read_stays_in_buffer_witness :
  length [Byte.x41; Byte.x41; Byte.x42; Byte.x42]
  = length (replicate 4 Byte.x00)
  /\ -1 <= 4 <= 4.
Proof.
  eapply (read_stays_in_buffer
           (dvdwrap_open w_film "/src" "/Film.mpg").1.1 fh_film
           (replicate 4 Byte.x00) 4 98 _ 4
           [Byte.x41; Byte.x41; Byte.x42; Byte.x42]).
  - vm_compute. split; discriminate.
  - reflexivity.
  - vm_compute. reflexivity.
Defined.

(** X12: reads compose.  On an open handle whose segment files are files
    with an [lstat] size that is the length of their contents (regular
    files, not symbolic links), a read of [size1] bytes at [offset] followed
    by a read of [size2] bytes where the first one ended deliver together
    what one read of [size1 + size2] bytes at [offset] delivers: the counts
    add up and the bytes are the same. *)
Theorem sequential_reads_compose (w : world) (sourcepath path root : string)
    (maj total : Z) (segs : list inode) (w1 : world) (private : dvdwrap_fh_t)
    (w2 : world) (buf1 buf2 buf : list Byte.byte) (size1 size2 offset : Z) :
  resolve sourcepath path = Synthetic root ->
  dvdwrap_scan_videots (w_fs w) root = Some (maj, total) ->
  titleset_files (w_fs w) root maj segs ->
  Forall plain_file segs ->
  sum_sizes segs <= OFF_MAX ->
  dvdwrap_open w sourcepath path = (w1, 0, Some private) ->
  session private w1 w2 ->
  0 <= offset <= OFF_MAX ->
  0 <= size1 -> 0 <= size2 -> size1 + size2 <= INT_MAX ->
  length buf1 = Z.to_nat size1 -> length buf2 = Z.to_nat size2 ->
  length buf = Z.to_nat (size1 + size2) ->
  exists w3 n1 out1 w4 n2 out2 w5,
    dvdwrap_read w2 private buf1 size1 offset = Returns (w3, n1, out1)
    /\ dvdwrap_read w3 private buf2 size2 (offset + n1) = Returns (w4, n2, out2)
    /\ dvdwrap_read w2 private buf (size1 + size2) offset
       = Returns (w5, n1 + n2,
                  take (Z.to_nat n1) out1 ++ take (Z.to_nat n2) out2
                  ++ drop (Z.to_nat (n1 + n2)) buf).
Proof.
  intros Hres Hscan Hfiles Hplain HT Hopen Hsess Hoff Hs1 Hs2 Hs12 Hb1 Hb2 Hb.
  destruct (dvdwrap_open_ok _ _ _ _ _ _ _ _ _ Hres Hscan Hfiles
              ltac:(unfold OFF_MAX in HT; lia) Hopen) as (Hok1 & _).
  assert (Hok2 : handle_live w2 private segs).
  { apply (handle_live_keeps w1); [exact (handle_ok_live _ _ _ Hok1)|].
    apply session_keeps. exact Hsess. }
  pose proof (sum_sizes_bytes segs Hplain) as HB.
  set (all := titleset_bytes segs) in *.
  unfold INT_MAX, OFF_MAX in *.
  destruct (dvdwrap_read_ok w2 private segs buf1 size1 offset Hok2 Hplain
              ltac:(unfold OFF_MAX; lia) ltac:(unfold OFF_MAX; lia)
              ltac:(unfold INT_MAX; lia) Hb1) as [w3 Hr1].
  set (n1 := Z.min size1 (Z.max 0 (sum_sizes segs - offset))) in *.
  assert (Hok3 : handle_live w3 private segs).
  { apply (handle_live_same w2); [exact Hok2|].
    exact (dvdwrap_read_same _ _ _ _ _ _ _ _ Hr1). }
  destruct (dvdwrap_read_ok w3 private segs buf2 size2 (offset + n1) Hok3
              Hplain ltac:(unfold OFF_MAX; lia) ltac:(unfold OFF_MAX, n1; lia)
              ltac:(unfold INT_MAX; lia) Hb2) as [w4 Hr2].
  set (n2 := Z.min size2 (Z.max 0 (sum_sizes segs - (offset + n1)))) in *.
  destruct (dvdwrap_read_ok w2 private segs buf (size1 + size2) offset Hok2
              Hplain ltac:(unfold OFF_MAX; lia) ltac:(unfold OFF_MAX; lia)
              ltac:(unfold INT_MAX; lia) Hb) as [w5 Hr3].
  assert (Hn : Z.min (size1 + size2) (Z.max 0 (sum_sizes segs - offset))
               = n1 + n2) by (unfold n1, n2; lia).
  rewrite Hn in Hr3.
  assert (B1 : 0 <= n1 /\ (n1 = 0 \/ offset + n1 <= Z.of_nat (length all)))
    by (unfold n1; lia).
  assert (B2 : 0 <= n2
               /\ (n2 = 0 \/ offset + n1 + n2 <= Z.of_nat (length all)))
    by (unfold n1, n2; lia).
  clearbody n1 n2. clear Hn HB Hok1 Hok2 Hok3 Hb1 Hb2 Hb HT Hs12 Hplain.
  destruct B1 as [B1 B1']. destruct B2 as [B2 B2'].
  exists w3, n1. eexists. exists w4, n2. eexists. exists w5.
  split; [exact Hr1|]. split; [exact Hr2|]. rewrite Hr3. f_equal. f_equal.
  fold all.
  assert (Hl1 : length (take (Z.to_nat n1) (drop (Z.to_nat offset) all))
                = Z.to_nat n1).
  { rewrite length_take, length_drop. destruct B1' as [->|?]; lia. }
  assert (Hl2 : length (take (Z.to_nat n2) (drop (Z.to_nat (offset + n1)) all))
                = Z.to_nat n2).
  { rewrite length_take, length_drop. destruct B2' as [->|?]; lia. }
  rewrite (take_app_length' _ _ _ (eq_sym Hl1)).
  rewrite (take_app_length' _ _ _ (eq_sym Hl2)).
  rewrite app_assoc. f_equal.
  replace (Z.to_nat (n1 + n2)) with (Z.to_nat n1 + Z.to_nat n2)%nat by lia.
  rewrite take_add, drop_drop.
  replace (Z.to_nat (offset + n1)) with (Z.to_nat offset + Z.to_nat n1)%nat
    by lia.
  reflexivity.
Qed.

Lemma sequential_reads_compose_witness :
  exists w3 n1 out1 w4 n2 out2 w5,
    dvdwrap_read (dvdwrap_open w_film "/src" "/Film.mpg").1.1 fh_film
      (replicate 4 Byte.x00) 4 98 = Returns (w3, n1, out1)
    /\ dvdwrap_read w3 fh_film (replicate 3 Byte.x00) 3 (98 + n1)
       = Returns (w4, n2, out2)
    /\ dvdwrap_read (dvdwrap_open w_film "/src" "/Film.mpg").1.1 fh_film
         (replicate 7 Byte.x00) (4 + 3) 98
       = Returns (w5, n1 + n2,
                  take (Z.to_nat n1) out1 ++ take (Z.to_nat n2) out2
                  ++ drop (Z.to_nat (n1 + n2)) (replicate 7 Byte.x00)).
Proof.
  apply (sequential_reads_compose w_film "/src" "/Film.mpg" "/src//Film" 1 350
           film_segments (dvdwrap_open w_film "/src" "/Film.mpg").1.1 fh_film
           (dvdwrap_open w_film "/src" "/Film.mpg").1.1).
  - vm_compute. reflexivity.
  - vm_compute. reflexivity.
  - exact film_titleset.
  - repeat constructor.
  - vm_compute. discriminate.
  - vm_compute. reflexivity.
  - apply session_opened.
  - vm_compute. split; discriminate.
  - lia.
  - lia.
  - vm_compute. discriminate.
  - reflexivity.
  - reflexivity.
  - reflexivity.
Defined.

(** The loop goes round without end once [read] delivers no byte: the
    iteration changes no variable of the loop, only the file position. *)
Lemma read_loop_spins (private : dvdwrap_fh_t) (buf : list Byte.byte)
    (size offset min thisoffset fd : Z) (data : list Byte.byte) :
  0 < size -> 0 <= offset <= OFF_MAX ->
  locate private (Z.to_nat (MAX_VTS_MIN - 1)) 1 offset = (min, thisoffset) ->
  min <> MAX_VTS_MIN -> 0 <= thisoffset ->
  vts_fd (vts_at private min) = fd ->
  Z.of_nat (length data) <= thisoffset ->
  forall fuel w0 pos0,
    fd_lookup w0 fd = Some (Ofd data pos0) ->
    read_loop fuel w0 private buf 0 size offset 0 = Diverges.
Proof.
  unfold OFF_MAX. intros Hsize Hoff Hloc Hmin Hthis Hfd Hshort.
  induction fuel as [|fuel IH]; intros w0 pos0 H0; [reflexivity|].
  rewrite read_loop_S.
  destruct (Z.ltb_spec 0 size); [|lia].
  rewrite Hloc. destruct (Z.eqb_spec min MAX_VTS_MIN); [contradiction|].
  cbv zeta. rewrite Hfd.
  match goal with
  | |- context [sys_read _ fd ?c] => set (count := c)
  end.
  assert (Hl : fd_lookup (sys_lseek w0 fd thisoffset).2 fd
               = Some (Ofd data thisoffset)).
  { unfold sys_lseek. rewrite H0.
    destruct (Z.ltb_spec thisoffset 0); [lia|]. cbn [snd ofd_data].
    rewrite (fd_lookup_store w0 fd _ _ fd H0).
    destruct (decide (fd = fd)); [reflexivity|congruence]. }
  unfold sys_read in *. rewrite Hl in *. cbn [ofd_data ofd_pos snd] in *.
  rewrite (drop_ge data) by lia. rewrite take_nil. cbn [length].
  change (i32 (Z.of_nat 0)) with 0. change (0 <? 0) with false. cbv iota.
  unfold write_at. cbn [length]. rewrite Nat.add_0_r.
  change (Z.to_nat 0) with 0%nat. rewrite take_0, drop_0. cbn [app].
  change (u64 (0 + 0)) with 0. rewrite !Z.add_0_r, i64_id by lia.
  match goal with
  | |- read_loop fuel ?w2 _ _ _ _ _ _ = _ => apply (IH w2 thisoffset)
  end.
  rewrite (fd_lookup_store _ fd _ _ fd Hl).
  destruct (decide (fd = fd)); [reflexivity|congruence].
Qed.

(** X13: a read does not return when the descriptor of the segment the
    offset falls in has no byte at the offset within the segment (its file
    is shorter than the size recorded in the handle): each iteration reads
    0 bytes and changes no variable of the loop, for any number of
    iterations. *)
Theorem read_spins_on_empty_read (w : world) (private : dvdwrap_fh_t)
    (buf : list Byte.byte) (size offset min thisoffset fd : Z)
    (data : list Byte.byte) (pos : Z) :
  0 < size -> 0 <= offset <= OFF_MAX -> offset < total_size private ->
  locate private (Z.to_nat (MAX_VTS_MIN - 1)) 1 offset = (min, thisoffset) ->
  min <> MAX_VTS_MIN -> 0 <= thisoffset ->
  vts_fd (vts_at private min) = fd ->
  fd_lookup w fd = Some (Ofd data pos) ->
  Z.of_nat (length data) <= thisoffset ->
  (forall fuel, read_loop fuel w private buf 0 size offset 0 = Diverges)
  /\ dvdwrap_read w private buf size offset = Diverges.
Proof.
  intros Hsize Hoff Htot Hloc Hmin Hthis Hfd Hopen Hshort.
  pose proof (read_loop_spins private buf size offset min thisoffset fd data
                Hsize Hoff Hloc Hmin Hthis Hfd Hshort) as Hspin.
  unfold OFF_MAX in Hoff.
  split.
  - intros fuel. apply (Hspin fuel w pos). exact Hopen.
  - unfold dvdwrap_read. rewrite u64_id by lia.
    destruct (Z.leb_spec (total_size private) offset); [lia|].
    apply (Hspin _ w pos). exact Hopen.
Qed.

Lemma read_spins_on_empty_read_witness :
  (forall fuel,
     read_loop fuel w_stale fh_stale [Byte.x00; Byte.x00] 0 2 3 0 = Diverges)
  /\ dvdwrap_read w_stale fh_stale [Byte.x00; Byte.x00] 2 3 = Diverges.
Proof.
  apply (read_spins_on_empty_read w_stale fh_stale [Byte.x00; Byte.x00] 2 3
           1 3 3 (replicate 3 Byte.x41) 0).
  - lia.
  - vm_compute. split; discriminate.
  - vm_compute. reflexivity.
  - vm_compute. reflexivity.
  - vm_compute. discriminate.
  - lia.
  - reflexivity.
  - reflexivity.
  - vm_compute. discriminate.
Defined.

(** * The read of the first revision *)

(** The loop that opens the segments, which both revisions of
    [dvdwrap_open] have, leaves a handle that is [handle_ok]. *)
Lemma open_segments_handle_ok root maj segs w w1 private :
  titleset_files (w_fs w) root maj segs ->
  sum_sizes segs < 2 ^ 64 ->
  open_segments w root maj 9 1 fh_zero = (w1, private, true) ->
  handle_ok w1 private segs.
Proof.
  intros (Hlen & Hfiles & Hgap) Hsum Eo.
  apply (open_segments_ok root maj segs) in Eo; auto; try (simpl; lia).
  destruct Eo as [Hw1 Hp].
  destruct (open_files (w_fds w) segs) as [slots t'] eqn:Ef.
  destruct (open_files_spec _ _ _ _ Ef) as (Hsl & Hslots & _ & _).
  cbn [fst snd] in *.
  assert (Hvts : vts private
                 = Vts 0 0 :: slots ++ replicate (9 - length segs) (Vts 0 0)).
  { rewrite Hp. cbn [vts fh_zero].
    change (Z.to_nat MAX_VTS_MIN) with 10%nat. change (Z.to_nat 1) with 1%nat.
    change (replicate 10 (Vts 0 0)) with ([Vts 0 0] ++ replicate 9 (Vts 0 0)).
    change 1%nat with (length [Vts 0 0] + 0)%nat at 1.
    rewrite (list_inserts_app_r slots [Vts 0 0] (replicate 9 (Vts 0 0)) 0).
    cbn [app]. f_equal.
    replace 9%nat with (length segs + (9 - length segs))%nat at 1 by lia.
    rewrite replicate_add.
    rewrite list_inserts_0_r by (rewrite length_replicate; lia).
    reflexivity. }
  split; [rewrite Hp; simpl; lia|]. split; [exact Hlen|]. split.
  - intros i f Hi. destruct (Hslots i f Hi) as (fd & Hs & _ & Ht').
    exists (Z.of_nat fd), 0. split.
    + rewrite Hvts. simpl.
      rewrite lookup_app_l by (rewrite Hsl; eapply lookup_lt_Some; eauto).
      exact Hs.
    + rewrite Hw1. unfold fd_lookup. cbn [w_fds].
      destruct (Z.ltb_spec (Z.of_nat fd) 0); [lia|].
      rewrite Nat2Z.id. exact Ht'.
  - intros [|j] Hj; [lia|]. rewrite Hvts. simpl.
    rewrite lookup_app_r by lia.
    destruct (replicate (9 - length segs) (Vts 0 0) !! (j - length slots)%nat)
      as [v|] eqn:E; [|reflexivity].
    apply lookup_replicate in E. destruct E as [-> _]. reflexivity.
Qed.

(** X14: the read of the first revision serves one segment only.  Through a
    handle filled in by the loop that opens the segments, for segment files
    with an [lstat] size that is the length of their contents (regular
    files, not symbolic links), a read at an offset inside the aggregate
    returns the bytes of the concatenation from the offset on, but not
    beyond the end of the segment file the offset falls in: [size] bytes, or
    the bytes left in that file if these are fewer. *)
Theorem rev1_read_stops_at_segment_end (w0 : world) (root : string) (maj : Z)
    (segs : list inode) (w : world) (private : dvdwrap_fh_t)
    (buf : list Byte.byte) (size offset : Z) :
  titleset_files (w_fs w0) root maj segs ->
  Forall plain_file segs ->
  sum_sizes segs <= OFF_MAX ->
  open_segments w0 root maj (Z.to_nat (MAX_VTS_MIN - 1)) 1 fh_zero
  = (w, private, true) ->
  0 <= offset < sum_sizes segs -> 0 <= size <= INT_MAX ->
  length buf = Z.to_nat size ->
  exists k f w',
    segs !! k = Some f
    /\ sum_sizes (take k segs) <= offset
       < sum_sizes (take k segs) + seg_size f
    /\ let n := Z.min size (sum_sizes (take k segs) + seg_size f - offset) in
       Rev1.dvdwrap_read w private buf size offset
       = (w', n,
          take (Z.to_nat n) (drop (Z.to_nat offset) (titleset_bytes segs))
          ++ drop (Z.to_nat n) buf).
Proof.
  unfold OFF_MAX, INT_MAX. intros Hfiles Hplain HT Hopen Hoff Hsize Hbuf.
  rewrite nine_minors in Hopen.
  pose proof (open_segments_handle_ok _ _ _ _ _ _ Hfiles ltac:(lia) Hopen) as Hok.
  destruct (handle_ok_sizes _ _ _ Hok) as [Hsz Hzero].
  destruct Hok as (Htot & Hlen & Hseg & _).
  destruct (locate_segs private segs 9 1 offset ltac:(lia) Hsz
              ltac:(intros i Hi; apply Hzero; lia) Hlen
              ltac:(unfold OFF_MAX; lia)) as [Hin _].
  destruct (Hin ltac:(lia)) as (k & f & Hk & Hloc & Hrange).
  destruct (Hseg k f Hk) as (fd & pos & Hv & Hfd).
  assert (Hat : vts_at private (1 + Z.of_nat k) = Vts fd (seg_size f)).
  { unfold vts_at. replace (Z.to_nat (1 + Z.of_nat k)) with (S k) by lia.
    rewrite Hv. reflexivity. }
  pose proof (sum_sizes_bytes (take k segs) (Forall_take _ k _ Hplain)) as HP.
  pose proof (sum_sizes_bytes segs Hplain) as HB.
  pose proof (titleset_bytes_split segs k f Hk) as Hsplit.
  pose proof (plain_seg_size f (Forall_lookup_1 _ _ _ _ Hplain Hk)) as Hpf.
  set (n := Z.min size (sum_sizes (take k segs) + seg_size f - offset)).
  cut (exists w', Rev1.dvdwrap_read w private buf size offset
                  = (w', n,
                     take (Z.to_nat n)
                       (drop (Z.to_nat offset) (titleset_bytes segs))
                     ++ drop (Z.to_nat n) buf)).
  { intros [w' Hw']. exists k, f, w'.
    split; [exact Hk|]. split; [lia|]. exact Hw'. }
  unfold Rev1.dvdwrap_read.
  rewrite Htot, (u64_id offset) by lia.
  destruct (Z.leb_spec (sum_sizes segs) offset); [lia|].
  rewrite nine_minors, Hloc, Hat. cbn [vts_fd vts_size].
  set (o := Z.to_nat (offset - sum_sizes (take k segs))).
  assert (Ho : offset - sum_sizes (take k segs) = Z.of_nat o) by (unfold o; lia).
  rewrite Ho in *. rewrite Hpf in *.
  rewrite (u64_id (Z.of_nat o)) by lia.
  rewrite (u64_id (Z.of_nat (length (i_data f)) - Z.of_nat o)) by lia.
  assert (Hn : (if Z.of_nat (length (i_data f)) - Z.of_nat o <? size
                then Z.of_nat (length (i_data f)) - Z.of_nat o else size)
               = Z.of_nat (Z.to_nat n)).
  { destruct (Z.ltb_spec (Z.of_nat (length (i_data f)) - Z.of_nat o) size);
      unfold n; lia. }
  rewrite Hn.
  pose proof (seek_then_read w fd (i_data f) pos o (Z.to_nat n) Hfd) as Hread.
  destruct (sys_read (sys_lseek w fd (Z.of_nat o)).2 fd (Z.of_nat (Z.to_nat n)))
    as [[m chunk] w2].
  cbn [fst] in Hread. inversion Hread as [[Hm Hchunk]]. clear Hread.
  assert (Hclen : length (take (Z.to_nat n) (drop o (i_data f))) = Z.to_nat n).
  { rewrite length_take, length_drop. unfold n. lia. }
  rewrite Hclen, i32_id by (unfold n; lia).
  replace (Z.of_nat (Z.to_nat n)) with n by (unfold n; lia).
  exists w2. f_equal.
  unfold write_at. change (Z.to_nat 0) with 0%nat.
  rewrite take_0, Hclen. cbn [app]. f_equal.
  symmetry.
  replace o with (Z.to_nat offset - length (titleset_bytes (take k segs)))%nat
    by (unfold o; lia).
  apply (titleset_bytes_within segs k f (Z.to_nat offset) (Z.to_nat n) Hk).
  - lia.
  - unfold n. lia.
Qed.

Lemma rev1_read_stops_at_segment_end_witness :
  exists k f w',
    film_segments !! k = Some f
    /\ sum_sizes (take k film_segments) <= 250
       < sum_sizes (take k film_segments) + seg_size f
    /\ let n := Z.min 200 (sum_sizes (take k film_segments) + seg_size f - 250) in
       Rev1.dvdwrap_read
         (open_segments w_film "/src//Film" 1 (Z.to_nat (MAX_VTS_MIN - 1)) 1
            fh_zero).1.1 fh_film (replicate 200 Byte.x00) 200 250
       = (w', n,
          take (Z.to_nat n) (drop (Z.to_nat 250) (titleset_bytes film_segments))
          ++ drop (Z.to_nat n) (replicate 200 Byte.x00)).
Proof.
  apply (rev1_read_stops_at_segment_end w_film "/src//Film" 1 film_segments).
  - exact film_titleset.
  - repeat constructor.
  - vm_compute. discriminate.
  - vm_compute. reflexivity.
  - vm_compute. split; [discriminate|reflexivity].
  - vm_compute. split; discriminate.
  - reflexivity.
Defined.

(** * The directory listing *)

Lemma append_assoc a b c : (a +:+ b) +:+ c = a +:+ (b +:+ c).
Proof.
  induction a as [|x a IH]; [reflexivity|].
  rewrite !append_cons, IH. reflexivity.
Qed.

(** When an iteration of the loop passes a name to [filler], and which. *)
Lemma readdir_entry_Some fs t dir name :
  readdir_entry fs t dir = Some name <->
  hidden (d_name dir) = false
  /\ entry_is_dir fs (t +:+ "/" +:+ d_name dir) dir
  /\ name = match lstat fs ((t +:+ "/" +:+ d_name dir) +:+ "/VIDEO_TS") with
            | None => d_name dir
            | Some _ => d_name dir +:+ FILE_EXTENSION
            end.
Proof.
  unfold readdir_entry, entry_is_dir. cbv zeta.
  destruct (hidden (d_name dir)).
  { split; [discriminate|]. intros [H _]. discriminate. }
  destruct (d_type dir).
  - destruct (lstat fs ((t +:+ "/" +:+ d_name dir) +:+ "/VIDEO_TS")); split.
    + intros [= <-]. auto.
    + intros (_ & _ & ->). reflexivity.
    + intros [= <-]. auto.
    + intros (_ & _ & ->). reflexivity.
  - destruct (lstat fs (t +:+ "/" +:+ d_name dir)) as [st|].
    + destruct (S_ISDIR (st_mode st)) eqn:Ed; cbn [negb].
      * destruct (lstat fs ((t +:+ "/" +:+ d_name dir) +:+ "/VIDEO_TS")); split.
        -- intros [= <-]. split; [reflexivity|]. split; [|reflexivity].
           right. split; [reflexivity|]. exists st. auto.
        -- intros (_ & _ & ->). reflexivity.
        -- intros [= <-]. split; [reflexivity|]. split; [|reflexivity].
           right. split; [reflexivity|]. exists st. auto.
        -- intros (_ & _ & ->). reflexivity.
      * split; [discriminate|].
        intros (_ & [H | (_ & st' & [= <-] & H)] & _); [discriminate|].
        rewrite Ed in H. discriminate.
    + split; [discriminate|].
      intros (_ & [H | (_ & st' & H & _)] & _); discriminate.
  - split; [discriminate|].
    intros (_ & [H | (H & _)] & _); discriminate.
Qed.

(** The loop appends to [buf], in the order of the entries, the names of the
    iterations that reach [filler]. *)
Lemma readdir_loop_spec fs t entries : forall buf,
  exists names,
    readdir_loop fs t entries buf = buf ++ names
    /\ (length names <= length entries)%nat
    /\ forall name, name ∈ names <->
         exists dir, dir ∈ entries /\ readdir_entry fs t dir = Some name.
Proof.
  induction entries as [|dir entries IH]; intros buf.
  - exists []. cbn [readdir_loop]. rewrite app_nil_r.
    split; [reflexivity|]. split; [reflexivity|].
    intros name. split.
    + intros H. apply elem_of_nil in H. contradiction.
    + intros (d & H & _). apply elem_of_nil in H. contradiction.
  - cbn [readdir_loop]. destruct (readdir_entry fs t dir) as [n|] eqn:E.
    + destruct (IH (buf ++ [n])) as (names & Hl & Hlen & Hmem).
      exists (n :: names). rewrite Hl, <- app_assoc.
      split; [reflexivity|]. split; [simpl; lia|].
      intros name. rewrite elem_of_cons, Hmem. split.
      * intros [-> | (d & Hd & Hn)].
        -- exists dir. split; [apply elem_of_cons; left; reflexivity|exact E].
        -- exists d. split; [apply elem_of_cons; right; exact Hd|exact Hn].
      * intros (d & Hd & Hn). apply elem_of_cons in Hd as [-> | Hd].
        -- left. congruence.
        -- right. exists d. auto.
    + destruct (IH buf) as (names & Hl & Hlen & Hmem).
      exists names. split; [exact Hl|]. split; [simpl; lia|].
      intros name. rewrite Hmem. split.
      * intros (d & Hd & Hn).
        exists d. split; [apply elem_of_cons; right; exact Hd|exact Hn].
      * intros (d & Hd & Hn). apply elem_of_cons in Hd as [-> | Hd].
        -- congruence.
        -- exists d. auto.
Qed.

(** An entry that reaches [filler] is in the listing. *)
Lemma readdir_member fs dirs sourcepath path fh buf entries dir name :
  dirs !! (sourcepath +:+ "/" +:+ path) = Some entries ->
  dir ∈ entries ->
  readdir_entry fs (sourcepath +:+ "/" +:+ path) dir = Some name ->
  name ∈ (dvdwrap_readdir fs dirs sourcepath (Some path) fh buf).2.
Proof.
  intros Hd Hin He. unfold dvdwrap_readdir. cbv zeta. rewrite Hd. cbn [snd].
  destruct (readdir_loop_spec fs (sourcepath +:+ "/" +:+ path) entries
              ((buf ++ ["."]) ++ [".."])) as (names & -> & _ & Hmem).
  apply elem_of_app. right. apply Hmem. exists dir. auto.
Qed.

(** The path of a squashed entry leads back to the directory it stands
    for. *)
Lemma squashed_path_resolves sourcepath path name :
  resolve sourcepath (path +:+ "/" +:+ name +:+ FILE_EXTENSION)
  = Synthetic ((sourcepath +:+ "/" +:+ path) +:+ "/" +:+ name).
Proof.
  apply resolve_Synthetic. rewrite !append_assoc. reflexivity.
Qed.

(** X15: what [dvdwrap_readdir] lists.  It returns 0 and appends to the
    buffer the names [.] and [..] and then, when the directory at the source
    can be opened, names made from its entries, at most one for each.  A name
    is listed exactly when it comes from an entry whose name does not start
    with a dot and which is a directory (by its [d_type], or by [lstat] when
    the type is unknown): the name of the entry itself if [lstat] finds
    nothing at [VIDEO_TS] inside it, and the name with the extension [.mpg]
    added otherwise.  Files and hidden entries are never listed, and when
    the directory cannot be opened only [.] and [..] are. *)
Theorem readdir_lists_directories (fs : gmap string inode)
    (dirs : gmap string (list dirent)) (sourcepath : string)
    (path : option string) (fh : string) (buf : list string) :
  exists names,
    dvdwrap_readdir fs dirs sourcepath path fh buf
    = (0, buf ++ "." :: ".." :: names)
    /\ (dirs !! (sourcepath +:+ "/" +:+ default fh path) = None -> names = [])
    /\ forall entries,
         dirs !! (sourcepath +:+ "/" +:+ default fh path) = Some entries ->
         (length names <= length entries)%nat
         /\ forall name, name ∈ names <->
              exists dir, dir ∈ entries
                /\ hidden (d_name dir) = false
                /\ entry_is_dir fs
                     ((sourcepath +:+ "/" +:+ default fh path)
                      +:+ "/" +:+ d_name dir) dir
                /\ name
                   = match lstat fs
                             (((sourcepath +:+ "/" +:+ default fh path)
                               +:+ "/" +:+ d_name dir) +:+ "/VIDEO_TS") with
                     | None => d_name dir
                     | Some _ => d_name dir +:+ FILE_EXTENSION
                     end.
Proof.
  unfold dvdwrap_readdir. cbv zeta.
  change (match path with Some p => p | None => fh end) with (default fh path).
  set (t := sourcepath +:+ "/" +:+ default fh path).
  destruct (dirs !! t) as [entries|] eqn:Ed.
  - destruct (readdir_loop_spec fs t entries ((buf ++ ["."]) ++ [".."]))
      as (names & Hl & Hlen & Hmem).
    exists names. rewrite Hl, <- !app_assoc.
    split; [reflexivity|]. split; [discriminate|].
    intros entries' [= <-]. split; [exact Hlen|].
    intros name. rewrite Hmem. split.
    + intros (d & Hd & He). exists d. split; [exact Hd|].
      apply readdir_entry_Some. exact He.
    + intros (d & Hd & He). exists d. split; [exact Hd|].
      apply readdir_entry_Some. exact He.
  - exists []. rewrite <- !app_assoc.
    split; [reflexivity|]. split; [reflexivity|]. discriminate.
Qed.

(** X16: listing and lookup agree on a squashed directory.  A directory
    entry that is not hidden and has something at [VIDEO_TS] inside it is
    listed under its name with the extension added; and the path made of the
    path of the listed directory, a slash and that name is classified as a
    synthetic file whose DVD root is the very directory of the entry. *)
Theorem squashed_entry_resolves_to_its_directory (fs : gmap string inode)
    (dirs : gmap string (list dirent)) (sourcepath path fh : string)
    (buf : list string) (entries : list dirent) (dir : dirent) :
  dirs !! (sourcepath +:+ "/" +:+ path) = Some entries ->
  dir ∈ entries ->
  hidden (d_name dir) = false ->
  entry_is_dir fs ((sourcepath +:+ "/" +:+ path) +:+ "/" +:+ d_name dir) dir ->
  lstat fs (((sourcepath +:+ "/" +:+ path) +:+ "/" +:+ d_name dir)
            +:+ "/VIDEO_TS") <> None ->
  (d_name dir +:+ FILE_EXTENSION)
    ∈ (dvdwrap_readdir fs dirs sourcepath (Some path) fh buf).2
  /\ resolve sourcepath (path +:+ "/" +:+ d_name dir +:+ FILE_EXTENSION)
     = Synthetic ((sourcepath +:+ "/" +:+ path) +:+ "/" +:+ d_name dir).
Proof.
  intros Hd Hin Hh Hdir Hv. split; [|apply squashed_path_resolves].
  apply (readdir_member fs dirs sourcepath path fh buf entries dir); auto.
  apply readdir_entry_Some. split; [exact Hh|]. split; [exact Hdir|].
  destruct (lstat fs _); [reflexivity|contradiction].
Qed.

Lemma squashed_entry_resolves_to_its_directory_witness :
  "Film.mpg" ∈ (dvdwrap_readdir fs_sub dirs_sub "/src" (Some "/sub") "" []).2
  /\ resolve "/src" "/sub/Film.mpg" = Synthetic "/src//sub/Film".
Proof.
  apply (squashed_entry_resolves_to_its_directory fs_sub dirs_sub "/src" "/sub"
           "" [] entries_sub (Dirent "Film" DT_DIR)).
  - vm_compute. reflexivity.
  - vm_compute. do 2 right. left.
  - reflexivity.
  - left. reflexivity.
  - vm_compute. discriminate.
Defined.

(** X17: a listed name that cannot be looked up.  A directory that has
    something at [VIDEO_TS] inside it but nothing at
    [VIDEO_TS/VIDEO_TS.IFO] is still listed as a file with the extension,
    while [dvdwrap_getattr] on the path of that name fails with [-ENOENT]
    and leaves the buffer zeroed: the listing tests for [VIDEO_TS] only. *)
Theorem listed_without_index_file_is_dangling (fs : gmap string inode)
    (dirs : gmap string (list dirent)) (sourcepath path fh : string)
    (buf : list string) (entries : list dirent) (dir : dirent) :
  dirs !! (sourcepath +:+ "/" +:+ path) = Some entries ->
  dir ∈ entries ->
  hidden (d_name dir) = false ->
  entry_is_dir fs ((sourcepath +:+ "/" +:+ path) +:+ "/" +:+ d_name dir) dir ->
  lstat fs (((sourcepath +:+ "/" +:+ path) +:+ "/" +:+ d_name dir)
            +:+ "/VIDEO_TS") <> None ->
  lstat fs (ifo_path ((sourcepath +:+ "/" +:+ path) +:+ "/" +:+ d_name dir))
  = None ->
  (d_name dir +:+ FILE_EXTENSION)
    ∈ (dvdwrap_readdir fs dirs sourcepath (Some path) fh buf).2
  /\ dvdwrap_getattr fs sourcepath
       (path +:+ "/" +:+ d_name dir +:+ FILE_EXTENSION)
     = (- ENOENT, stat_zero).
Proof.
  intros Hd Hin Hh Hdir Hv Hifo. split.
  - apply (readdir_member fs dirs sourcepath path fh buf entries dir); auto.
    apply readdir_entry_Some. split; [exact Hh|]. split; [exact Hdir|].
    destruct (lstat fs _); [reflexivity|contradiction].
  - unfold dvdwrap_getattr. cbv zeta.
    rewrite squashed_path_resolves, Hifo. reflexivity.
Qed.

Lemma listed_without_index_file_is_dangling_witness :
  "Broken.mpg" ∈ (dvdwrap_readdir fs_sub dirs_sub "/src" (Some "/sub") "" []).2
  /\ dvdwrap_getattr fs_sub "/src" "/sub/Broken.mpg" = (- ENOENT, stat_zero).
Proof.
  apply (listed_without_index_file_is_dangling fs_sub dirs_sub "/src" "/sub"
           "" [] entries_sub (Dirent "Broken" DT_DIR)).
  - vm_compute. reflexivity.
  - vm_compute. do 6 right. left.
  - reflexivity.
  - left. reflexivity.
  - vm_compute. discriminate.
  - vm_compute. reflexivity.
Defined.

(** X18: a plain directory whose own name ends in the extension.  Such a
    directory, with nothing at [VIDEO_TS] inside it, is listed under its
    name unchanged; but [dvdwrap_getattr] takes the path of that name for a
    synthetic file, cuts the extension off and looks for an index file under
    what remains: when there is none it fails with [-ENOENT], although the
    directory exists. *)
Theorem directory_named_like_a_film_is_unreachable (fs : gmap string inode)
    (dirs : gmap string (list dirent)) (sourcepath path fh : string)
    (buf : list string) (entries : list dirent) (dir : dirent)
    (stem : string) :
  dirs !! (sourcepath +:+ "/" +:+ path) = Some entries ->
  dir ∈ entries ->
  d_name dir = stem +:+ FILE_EXTENSION ->
  hidden (d_name dir) = false ->
  entry_is_dir fs ((sourcepath +:+ "/" +:+ path) +:+ "/" +:+ d_name dir) dir ->
  lstat fs (((sourcepath +:+ "/" +:+ path) +:+ "/" +:+ d_name dir)
            +:+ "/VIDEO_TS") = None ->
  lstat fs (ifo_path ((sourcepath +:+ "/" +:+ path) +:+ "/" +:+ stem)) = None ->
  d_name dir ∈ (dvdwrap_readdir fs dirs sourcepath (Some path) fh buf).2
  /\ dvdwrap_getattr fs sourcepath (path +:+ "/" +:+ d_name dir)
     = (- ENOENT, stat_zero).
Proof.
  intros Hd Hin Hn Hh Hdir Hv Hifo. split.
  - apply (readdir_member fs dirs sourcepath path fh buf entries dir); auto.
    apply readdir_entry_Some. split; [exact Hh|]. split; [exact Hdir|].
    rewrite Hv. reflexivity.
  - unfold dvdwrap_getattr. cbv zeta.
    rewrite Hn, squashed_path_resolves, Hifo. reflexivity.
Qed.

Lemma directory_named_like_a_film_is_unreachable_witness :
  "old.mpg" ∈ (dvdwrap_readdir fs_sub dirs_sub "/src" (Some "/sub") "" []).2
  /\ dvdwrap_getattr fs_sub "/src" "/sub/old.mpg" = (- ENOENT, stat_zero).
Proof.
  apply (directory_named_like_a_film_is_unreachable fs_sub dirs_sub "/src"
           "/sub" "" [] entries_sub (Dirent "old.mpg" DT_DIR) "old").
  - vm_compute. reflexivity.
  - vm_compute. do 7 right. left.
  - reflexivity.
  - reflexivity.
  - left. reflexivity.
  - vm_compute. reflexivity.
  - vm_compute. reflexivity.
Defined.

(** * The entry point *)

(** The loop moves [k] arguments one place down, from place [n] on; the last
    of them stays where it was as well. *)
Lemma shift_args_spec : forall k n argv,
  (n + k < length argv)%nat ->
  shift_args k n argv
  = take n argv ++ take k (drop (S n) argv) ++ drop (n + k) argv.
Proof.
  induction k as [|k IH]; intros n argv Hlen.
  - cbn [shift_args]. rewrite take_0, Nat.add_0_r. cbn [app].
    symmetry. apply take_drop.
  - cbn [shift_args].
    destruct (argv !! S n) as [x|] eqn:Ex;
      [|apply lookup_ge_None in Ex; lia].
    cbn [default from_option id].
    rewrite IH by (rewrite length_insert; lia).
    rewrite (take_S_r (<[n:=x]> argv) n x)
      by (apply list_lookup_insert_eq; lia).
    rewrite take_insert_ge by lia.
    rewrite !drop_insert_lt by lia.
    rewrite (drop_S argv x (S n) Ex). cbn [take].
    rewrite <- app_assoc. cbn [app].
    replace (S n + k)%nat with (n + S k)%nat by lia. reflexivity.
Qed.

(** X19: [main] takes the source out of the arguments.  With at least a
    source and a mount point on the command line and the context allocated,
    [main] ends in the call of [fuse_main]: with [argc - 1] for the count,
    the second argument as the source path, and an array that holds the
    program name followed by the arguments after the source, so the mount
    point and the options in their order; the last place of the array, which
    the count no longer covers, still holds the last argument. *)
Theorem main_takes_source_out (nomem : bool) (argv : list string) :
  (3 <= length argv)%nat ->
  nomem = false ->
  main nomem argv
  = FuseMain (Z.of_nat (length argv) - 1)
      (take 1 argv ++ drop 2 argv ++ drop (length argv - 1) argv)
      (default "" (argv !! 1%nat)).
Proof.
  intros Hlen ->. unfold main. cbv zeta.
  destruct (Z.ltb_spec (Z.of_nat (length argv)) 3); [lia|].
  f_equal.
  rewrite shift_args_spec by lia.
  replace (Z.to_nat (Z.of_nat (length argv) - 1 - 1))
    with (length argv - 2)%nat by lia.
  rewrite (take_ge (drop 2 argv)) by (rewrite length_drop; lia).
  replace (1 + (length argv - 2))%nat with (length argv - 1)%nat by lia.
  reflexivity.
Qed.

Lemma main_takes_source_out_witness :
  main false ["dvdwrap"; "/media/dvds"; "/mnt/films"; "-o"; "allow_other"]
  = FuseMain 4 ["dvdwrap"; "/mnt/films"; "-o"; "allow_other"; "allow_other"]
      "/media/dvds".
Proof.
  apply (main_takes_source_out false
           ["dvdwrap"; "/media/dvds"; "/mnt/films"; "-o"; "allow_other"]).
  - simpl. lia.
  - reflexivity.
Defined.

(** * A symbolic link among the segment files *)

Lemma linked_titleset :
  titleset_files fs_linked "/src//Film" 1 linked_segments.
Proof.
  split; [simpl; lia|]. split.
  - intros [|[|i]] f Hi; simpl in Hi; inversion Hi; subst;
      vm_compute; reflexivity.
  - intros _. vm_compute. reflexivity.
Qed.

(** C2: the size reported for a titleset with a symbolically linked segment
    file.  The first segment file of the example is a symbolic link to a
    file of 100 bytes, the second a regular file of 50 bytes: the segment
    files hold 150 bytes, and the attribute query reports 69, the 19
    characters of the link text plus 50, because the scan sizes the
    segments with [lstat], which does not follow the link. *)
Theorem getattr_counts_link_text :
  titleset_files fs_linked "/src//Film" 1 linked_segments
  /\ (length <$> (i_data <$> linked_segments)) = [100; 50]%nat
  /\ lstat fs_linked (vob_path "/src//Film" 1 1) = Some (Stat 41471 19)
  /\ dvdwrap_scan_videots fs_linked "/src//Film" = Some (1, 69)
  /\ dvdwrap_getattr fs_linked "/src" "/Film.mpg" = (0, Stat 420 69).
Proof.
  split; [exact linked_titleset|].
  split; [reflexivity|]. split; [vm_compute; reflexivity|].
  split; vm_compute; reflexivity.
Qed.

(** C1: reads through a handle with a symbolically linked segment file.
    Open records for the first segment the 19 bytes [lstat] reports for the
    link beside a descriptor that is open on the 100 bytes of the file the
    link leads to.  A read of 20 bytes at offset 10, inside the aggregate
    size 69 of the handle, returns 9 bytes of the first segment file
    followed by 11 bytes of the second, where the concatenation of the
    segment files has 20 bytes of the first.  When the link leads to a file
    of 5 bytes only, a read of 1 byte at offset 5, inside the aggregate size
    19 of the handle, never returns: the loop reads 0 bytes for ever. *)
Theorem read_through_symlinked_segment :
  titleset_files fs_linked "/src//Film" 1 linked_segments
  /\ (dvdwrap_open w_linked "/src" "/Film.mpg").1.2 = 0
  /\ (dvdwrap_open w_linked "/src" "/Film.mpg").2 = Some fh_linked
  /\ fd_lookup (dvdwrap_open w_linked "/src" "/Film.mpg").1.1 3
     = Some (Ofd (replicate 100 Byte.x41) 0)
  /\ (exists w2,
        dvdwrap_read (dvdwrap_open w_linked "/src" "/Film.mpg").1.1 fh_linked
          (replicate 20 Byte.x00) 20 10
        = Returns (w2, 20, replicate 9 Byte.x41 ++ replicate 11 Byte.x42))
  /\ take 20 (drop 10 (titleset_bytes linked_segments))
     = replicate 20 Byte.x41
  /\ (dvdwrap_open w_short_link "/src" "/Film.mpg").1.2 = 0
  /\ (dvdwrap_open w_short_link "/src" "/Film.mpg").2 = Some fh_short_link
  /\ (forall fuel,
        read_loop fuel (dvdwrap_open w_short_link "/src" "/Film.mpg").1.1
          fh_short_link [Byte.x00] 0 1 5 0 = Diverges)
  /\ dvdwrap_read (dvdwrap_open w_short_link "/src" "/Film.mpg").1.1
       fh_short_link [Byte.x00] 1 5 = Diverges.
Proof.
  split; [exact linked_titleset|].
  split; [vm_compute; reflexivity|]. split; [vm_compute; reflexivity|].
  split; [vm_compute; reflexivity|].
  split; [eexists; vm_compute; reflexivity|].
  split; [vm_compute; reflexivity|].
  split; [vm_compute; reflexivity|]. split; [vm_compute; reflexivity|].
  assert (Hspin : forall fuel,
            read_loop fuel (dvdwrap_open w_short_link "/src" "/Film.mpg").1.1
              fh_short_link [Byte.x00] 0 1 5 0 = Diverges).
  { intros fuel.
    apply (read_loop_spins fh_short_link [Byte.x00] 1 5 1 5 3
             (replicate 5 Byte.x41)) with (pos0 := 0).
    - lia.
    - vm_compute. split; discriminate.
    - vm_compute. reflexivity.
    - vm_compute. discriminate.
    - lia.
    - reflexivity.
    - vm_compute. discriminate.
    - vm_compute. reflexivity. }
  split; [exact Hspin|]. vm_compute. reflexivity.
Qed.
